(** * profile-data: a shallow embedding of the profile-logic core

    The development follows [src/profile-logic/profile-data.js]: the
    call-node builder, the path/index resolver, the timing aggregator, the
    range filter, the tree-order comparator and the allocation
    post-processors.

    Conventions of the embedding.
    - A JavaScript array is a [list]; [arr[i]] is [arr !!! i] (stdpp's total
      lookup).  Reading past the end gives [undefined] in JavaScript and the
      inhabitant of the element type here; the theorems are stated for tables
      whose indices are in range, where that value is never observed.
    - Indices that use the sentinel [-1] (call nodes) are [Z]; nullable
      indices ([IndexIntoStackTable | null]) are [option nat].
    - Numbers that the code only adds, negates and compares (weights, times,
      durations) are [Z].  The code computes with doubles, which hold whole
      numbers exactly up to 2^53; a theorem that depends on a sum, a
      product or a key being exact carries a hypothesis that keeps it within
      that range.
    - Typed arrays ([Int32Array], [Uint32Array]) store their elements modulo
      2^32, written out by [toInt32] and [toUint32].
    - A JavaScript [Map] is a [gmap]. *)

From Stdlib Require Import ZArith Lia.
From stdpp Require Import base option list gmap strings lexico pretty.

Local Open Scope Z_scope.

(** ** JavaScript arrays and typed arrays *)

(** [arr[i] = x] on a plain array: in range it overwrites, at
    [i = arr.length] it extends the array by one element.  The code never
    writes further out. *)
Definition array_set {A} (i : nat) (x : A) (arr : list A) : list A :=
  if decide (i < length arr)%nat then <[i := x]> arr else arr ++ [x].

(** [arr.slice(b, e)] for [0 <= b] and [0 <= e]. *)
Definition slice {A} (b e : nat) (arr : list A) : list A :=
  take (e - b) (drop b arr).

Definition toInt32 (z : Z) : Z := (z + 2 ^ 31) mod 2 ^ 32 - 2 ^ 31.
Definition toUint32 (z : Z) : Z := z mod 2 ^ 32.

(** ** Native allocations *)

Record UnbalancedNativeAllocationsTable := {
  una_time : list Z;
  una_weight : list Z;
  una_weightType : string;
  una_stack : list (option nat);
  una_length : nat;
}.

Record BalancedNativeAllocationsTable := {
  bna_time : list Z;
  bna_weight : list Z;
  bna_weightType : string;
  bna_stack : list (option nat);
  bna_memoryAddress : list Z;
  bna_threadId : list Z;
  bna_length : nat;
}.

(** [NativeAllocationsTable] is the union of the two shapes; the code tells
    them apart by the presence of the [memoryAddress] column. *)
Inductive NativeAllocationsTable :=
  | Unbalanced (t : UnbalancedNativeAllocationsTable)
  | Balanced (t : BalancedNativeAllocationsTable).

(** Modelled from the spec: [getEmptyUnbalancedNativeAllocationsTable] and
    [getEmptyBalancedNativeAllocationsTable] of [./data-structures], which is
    not among the sources: tables with no rows whose weights are bytes. *)
Definition getEmptyUnbalancedNativeAllocationsTable
  : UnbalancedNativeAllocationsTable :=
  {| una_time := []; una_weight := []; una_weightType := "bytes";
     una_stack := []; una_length := 0 |}.

Definition getEmptyBalancedNativeAllocationsTable
  : BalancedNativeAllocationsTable :=
  {| bna_time := []; bna_weight := []; bna_weightType := "bytes";
     bna_stack := []; bna_memoryAddress := []; bna_threadId := [];
     bna_length := 0 |}.

(** One iteration of the copying loops: push row [i] of [src], with the given
    stack, onto [dst]. *)
Definition pushBalancedRow (src : BalancedNativeAllocationsTable) (i : nat)
    (stack : option nat) (dst : BalancedNativeAllocationsTable)
  : BalancedNativeAllocationsTable :=
  {| bna_time := bna_time dst ++ [bna_time src !!! i];
     bna_weight := bna_weight dst ++ [bna_weight src !!! i];
     bna_weightType := bna_weightType dst;
     bna_stack := bna_stack dst ++ [stack];
     bna_memoryAddress := bna_memoryAddress dst ++ [bna_memoryAddress src !!! i];
     bna_threadId := bna_threadId dst ++ [bna_threadId src !!! i];
     bna_length := S (bna_length dst) |}.

Definition pushUnbalancedRow (src : UnbalancedNativeAllocationsTable) (i : nat)
    (dst : UnbalancedNativeAllocationsTable)
  : UnbalancedNativeAllocationsTable :=
  {| una_time := una_time dst ++ [una_time src !!! i];
     una_weight := una_weight dst ++ [una_weight src !!! i];
     una_weightType := una_weightType dst;
     una_stack := una_stack dst ++ [una_stack src !!! i];
     una_length := S (una_length dst) |}.

(** [filterToAllocations]: keep the rows whose weight is strictly positive. *)
Definition filterToAllocations (nativeAllocations : NativeAllocationsTable)
  : NativeAllocationsTable :=
  match nativeAllocations with
  | Balanced t =>
      Balanced (foldl (fun acc i =>
                  let weight := bna_weight t !!! i in
                  if decide (weight > 0)
                  then pushBalancedRow t i (bna_stack t !!! i) acc
                  else acc)
                getEmptyBalancedNativeAllocationsTable
                (seq 0 (bna_length t)))
  | Unbalanced t =>
      Unbalanced (foldl (fun acc i =>
                  let weight := una_weight t !!! i in
                  if decide (weight > 0) then pushUnbalancedRow t i acc
                  else acc)
                getEmptyUnbalancedNativeAllocationsTable
                (seq 0 (una_length t)))
  end.

(** [filterToDeallocationsSites]: keep the rows whose weight is strictly
    negative. *)
Definition filterToDeallocationsSites (nativeAllocations : NativeAllocationsTable)
  : NativeAllocationsTable :=
  match nativeAllocations with
  | Balanced t =>
      Balanced (foldl (fun acc i =>
                  let weight := bna_weight t !!! i in
                  if decide (weight < 0)
                  then pushBalancedRow t i (bna_stack t !!! i) acc
                  else acc)
                getEmptyBalancedNativeAllocationsTable
                (seq 0 (bna_length t)))
  | Unbalanced t =>
      Unbalanced (foldl (fun acc i =>
                  let weight := una_weight t !!! i in
                  if decide (weight < 0) then pushUnbalancedRow t i acc
                  else acc)
                getEmptyUnbalancedNativeAllocationsTable
                (seq 0 (una_length t)))
  end.

(** The state of the first loop of [filterToDeallocationsMemory]: the map
    from a memory address to the index of its live allocation, and the array
    [stackOfOriginalAllocation]. *)
Record DeallocState := {
  dm_memoryAddressToAllocation : gmap Z nat;
  dm_stackOfOriginalAllocation : list (option nat);
}.

Definition deallocationsMemoryStep (nativeAllocations : BalancedNativeAllocationsTable)
    (st : DeallocState) (allocationIndex : nat) : DeallocState :=
  let bytes := bna_weight nativeAllocations !!! allocationIndex in
  let memoryAddress := bna_memoryAddress nativeAllocations !!! allocationIndex in
  if decide (bytes >= 0) then
    {| dm_memoryAddressToAllocation :=
         <[memoryAddress := allocationIndex]> (dm_memoryAddressToAllocation st);
       dm_stackOfOriginalAllocation :=
         array_set allocationIndex None (dm_stackOfOriginalAllocation st) |}
  else
    match dm_memoryAddressToAllocation st !! memoryAddress with
    | None =>
        {| dm_memoryAddressToAllocation := dm_memoryAddressToAllocation st;
           dm_stackOfOriginalAllocation :=
             array_set allocationIndex None (dm_stackOfOriginalAllocation st) |}
    | Some previousAllocationIndex =>
        {| dm_memoryAddressToAllocation :=
             delete memoryAddress (dm_memoryAddressToAllocation st);
           dm_stackOfOriginalAllocation :=
             array_set allocationIndex (Some previousAllocationIndex)
               (dm_stackOfOriginalAllocation st) |}
    end.

Definition deallocationsMemoryScan (nativeAllocations : BalancedNativeAllocationsTable)
  : DeallocState :=
  foldl (deallocationsMemoryStep nativeAllocations)
    {| dm_memoryAddressToAllocation := ∅; dm_stackOfOriginalAllocation := [] |}
    (seq 0 (bna_length nativeAllocations)).

(** [filterToDeallocationsMemory].  The second loop pushes, for every row
    whose entry of [stackOfOriginalAllocation] is not [null], that entry as
    the row's stack. *)
Definition filterToDeallocationsMemory (nativeAllocations : BalancedNativeAllocationsTable)
  : NativeAllocationsTable :=
  let stackOfOriginalAllocation :=
    dm_stackOfOriginalAllocation (deallocationsMemoryScan nativeAllocations) in
  Balanced (foldl (fun newDeallocations i =>
              match stackOfOriginalAllocation !!! i with
              | Some stackIndex =>
                  pushBalancedRow nativeAllocations i (Some stackIndex) newDeallocations
              | None => newDeallocations
              end)
            getEmptyBalancedNativeAllocationsTable
            (seq 0 (bna_length nativeAllocations))).

(** The state of the first loop of [filterToRetainedAllocations]. *)
Record RetainedState := {
  rt_memoryAddressToAllocation : gmap Z nat;
  rt_retainedAllocation : list bool;
}.

Definition retainedAllocationsStep (nativeAllocations : BalancedNativeAllocationsTable)
    (st : RetainedState) (allocationIndex : nat) : RetainedState :=
  let bytes := bna_weight nativeAllocations !!! allocationIndex in
  let memoryAddress := bna_memoryAddress nativeAllocations !!! allocationIndex in
  if decide (bytes >= 0) then
    {| rt_memoryAddressToAllocation :=
         <[memoryAddress := allocationIndex]> (rt_memoryAddressToAllocation st);
       rt_retainedAllocation :=
         array_set allocationIndex true (rt_retainedAllocation st) |}
  else
    let retained := array_set allocationIndex false (rt_retainedAllocation st) in
    match rt_memoryAddressToAllocation st !! memoryAddress with
    | Some previousAllocationIndex =>
        {| rt_memoryAddressToAllocation :=
             delete memoryAddress (rt_memoryAddressToAllocation st);
           rt_retainedAllocation :=
             array_set previousAllocationIndex false retained |}
    | None =>
        {| rt_memoryAddressToAllocation := rt_memoryAddressToAllocation st;
           rt_retainedAllocation := retained |}
    end.

Definition retainedAllocationsScan (nativeAllocations : BalancedNativeAllocationsTable)
  : RetainedState :=
  foldl (retainedAllocationsStep nativeAllocations)
    {| rt_memoryAddressToAllocation := ∅; rt_retainedAllocation := [] |}
    (seq 0 (bna_length nativeAllocations)).

Definition filterToRetainedAllocations (nativeAllocations : BalancedNativeAllocationsTable)
  : NativeAllocationsTable :=
  let retainedAllocation :=
    rt_retainedAllocation (retainedAllocationsScan nativeAllocations) in
  Balanced (foldl (fun newNativeAllocations i =>
              if (retainedAllocation !!! i : bool)
              then pushBalancedRow nativeAllocations i
                     (bna_stack nativeAllocations !!! i) newNativeAllocations
              else newNativeAllocations)
            getEmptyBalancedNativeAllocationsTable
            (seq 0 (bna_length nativeAllocations))).

(** ** Raw trace tables *)

Record StackTable := {
  st_frame : list nat;
  st_category : list Z;
  st_subcategory : list Z;
  st_prefix : list (option nat);
  st_length : nat;
}.

Record FrameTable := {
  ft_func : list Z;
  ft_innerWindowID : list (option Z);
  ft_implementation : list (option nat);
  ft_length : nat;
}.

Record FuncTable := {
  fn_isJS : list bool;
  fn_relevantForJS : list bool;
  fn_length : nat;
}.

(** ** The call-node table *)

Record CallNodeTable := {
  cn_prefix : list Z;
  cn_func : list Z;
  cn_category : list Z;
  cn_subcategory : list Z;
  cn_innerWindowID : list Z;
  cn_depth : list Z;
  cn_length : nat;
}.

Record CallNodeInfo := {
  callNodeTable : CallNodeTable;
  stackIndexToCallNodeIndex : list Z;
}.

(** ** getCallNodeInfo *)

(** The variables the loop of [getCallNodeInfo] updates: the [Uint32Array]
    [stackIndexToCallNodeIndex], the map from
    [prefixCallNode * funcCount + funcIndex] to a call node, the six columns
    under construction and [length]. *)
Record BuilderState := {
  b_stackIndexToCallNodeIndex : list Z;
  b_prefixCallNodeAndFuncToCallNodeMap : gmap Z Z;
  b_prefix : list Z;
  b_func : list Z;
  b_category : list Z;
  b_subcategory : list Z;
  b_innerWindowID : list Z;
  b_depth : list Z;
  b_length : nat;
}.

Definition addCallNode (prefixIndex funcIndex categoryIndex subcategoryIndex windowID : Z)
    (s : BuilderState) : BuilderState :=
  let index := b_length s in
  {| b_stackIndexToCallNodeIndex := b_stackIndexToCallNodeIndex s;
     b_prefixCallNodeAndFuncToCallNodeMap := b_prefixCallNodeAndFuncToCallNodeMap s;
     b_prefix := array_set index prefixIndex (b_prefix s);
     b_func := array_set index funcIndex (b_func s);
     b_category := array_set index categoryIndex (b_category s);
     b_subcategory := array_set index subcategoryIndex (b_subcategory s);
     b_innerWindowID := array_set index windowID (b_innerWindowID s);
     b_depth :=
       array_set index
         (if decide (prefixIndex = -1) then 0
          else b_depth s !!! Z.to_nat prefixIndex + 1)
         (b_depth s);
     b_length := S (b_length s) |}.

Definition setMapping (key callNodeIndex : Z) (s : BuilderState) : BuilderState :=
  {| b_stackIndexToCallNodeIndex := b_stackIndexToCallNodeIndex s;
     b_prefixCallNodeAndFuncToCallNodeMap :=
       <[key := callNodeIndex]> (b_prefixCallNodeAndFuncToCallNodeMap s);
     b_prefix := b_prefix s; b_func := b_func s; b_category := b_category s;
     b_subcategory := b_subcategory s; b_innerWindowID := b_innerWindowID s;
     b_depth := b_depth s; b_length := b_length s |}.

Definition setCategory (callNodeIndex : Z) (categoryIndex subcategoryIndex : Z)
    (s : BuilderState) : BuilderState :=
  {| b_stackIndexToCallNodeIndex := b_stackIndexToCallNodeIndex s;
     b_prefixCallNodeAndFuncToCallNodeMap := b_prefixCallNodeAndFuncToCallNodeMap s;
     b_prefix := b_prefix s; b_func := b_func s;
     b_category := array_set (Z.to_nat callNodeIndex) categoryIndex (b_category s);
     b_subcategory := array_set (Z.to_nat callNodeIndex) subcategoryIndex (b_subcategory s);
     b_innerWindowID := b_innerWindowID s;
     b_depth := b_depth s; b_length := b_length s |}.

Definition setSubcategory (callNodeIndex : Z) (subcategoryIndex : Z)
    (s : BuilderState) : BuilderState :=
  {| b_stackIndexToCallNodeIndex := b_stackIndexToCallNodeIndex s;
     b_prefixCallNodeAndFuncToCallNodeMap := b_prefixCallNodeAndFuncToCallNodeMap s;
     b_prefix := b_prefix s; b_func := b_func s;
     b_category := b_category s;
     b_subcategory := array_set (Z.to_nat callNodeIndex) subcategoryIndex (b_subcategory s);
     b_innerWindowID := b_innerWindowID s;
     b_depth := b_depth s; b_length := b_length s |}.

Definition setStackIndexToCallNodeIndex (stackIndex : nat) (callNodeIndex : Z)
    (s : BuilderState) : BuilderState :=
  {| b_stackIndexToCallNodeIndex :=
       <[stackIndex := toUint32 callNodeIndex]> (b_stackIndexToCallNodeIndex s);
     b_prefixCallNodeAndFuncToCallNodeMap := b_prefixCallNodeAndFuncToCallNodeMap s;
     b_prefix := b_prefix s; b_func := b_func s; b_category := b_category s;
     b_subcategory := b_subcategory s; b_innerWindowID := b_innerWindowID s;
     b_depth := b_depth s; b_length := b_length s |}.

(** The resolution of one stack: the call node it maps to, and the state
    after the node was created or its category downgraded. *)
Definition resolveCallNode (defaultCategory : Z)
    (key prefixCallNode funcIndex categoryIndex subcategoryIndex windowID : Z)
    (s : BuilderState) : Z * BuilderState :=
  match b_prefixCallNodeAndFuncToCallNodeMap s !! key with
  | None =>
      let callNodeIndex := Z.of_nat (b_length s) in
      (callNodeIndex,
       setMapping key callNodeIndex
         (addCallNode prefixCallNode funcIndex categoryIndex subcategoryIndex
            windowID s))
  | Some callNodeIndex =>
      if decide (b_category s !!! Z.to_nat callNodeIndex ≠ categoryIndex) then
        (callNodeIndex, setCategory callNodeIndex defaultCategory 0 s)
      else if decide (b_subcategory s !!! Z.to_nat callNodeIndex ≠ subcategoryIndex) then
        (callNodeIndex, setSubcategory callNodeIndex 0 s)
      else (callNodeIndex, s)
  end.

(** The body of the loop over the stacks.  The key
    [prefixCallNode * funcCount + funcIndex] is a double in the code; it is
    the whole number computed here as long as it stays within [2 ^ 53],
    which [CallNodeKeys_exact] below states for all the stacks. *)
Definition processStack (stackTable : StackTable) (frameTable : FrameTable)
    (funcCount : Z) (defaultCategory : Z)
    (s : BuilderState) (stackIndex : nat) : BuilderState :=
  let prefixStack := st_prefix stackTable !!! stackIndex in
  let prefixCallNode :=
    match prefixStack with
    | None => -1
    | Some p => b_stackIndexToCallNodeIndex s !!! p
    end in
  let frameIndex := st_frame stackTable !!! stackIndex in
  let categoryIndex := st_category stackTable !!! stackIndex in
  let subcategoryIndex := st_subcategory stackTable !!! stackIndex in
  let windowID := default 0 (ft_innerWindowID frameTable !!! frameIndex) in
  let funcIndex := ft_func frameTable !!! frameIndex in
  let prefixCallNodeAndFuncIndex := prefixCallNode * funcCount + funcIndex in
  let '(callNodeIndex, s') :=
    resolveCallNode defaultCategory prefixCallNodeAndFuncIndex prefixCallNode
      funcIndex categoryIndex subcategoryIndex windowID s in
  setStackIndexToCallNodeIndex stackIndex callNodeIndex s'.

Definition initialBuilderState (stackTable : StackTable) : BuilderState :=
  {| b_stackIndexToCallNodeIndex := replicate (st_length stackTable) 0;
     b_prefixCallNodeAndFuncToCallNodeMap := ∅;
     b_prefix := []; b_func := []; b_category := []; b_subcategory := [];
     b_innerWindowID := []; b_depth := []; b_length := 0 |}.

Definition buildCallNodes (stackTable : StackTable) (frameTable : FrameTable)
    (funcTable : FuncTable) (defaultCategory : Z) (stackCount : nat)
  : BuilderState :=
  foldl (processStack stackTable frameTable (Z.of_nat (fn_length funcTable))
           defaultCategory)
    (initialBuilderState stackTable) (seq 0 stackCount).

Definition getCallNodeInfo (stackTable : StackTable) (frameTable : FrameTable)
    (funcTable : FuncTable) (defaultCategory : Z) : CallNodeInfo :=
  let s := buildCallNodes stackTable frameTable funcTable defaultCategory
             (st_length stackTable) in
  {| callNodeTable :=
       {| cn_prefix := toInt32 <$> b_prefix s;
          cn_func := toInt32 <$> b_func s;
          cn_category := toInt32 <$> b_category s;
          cn_subcategory := toInt32 <$> b_subcategory s;
          cn_innerWindowID := b_innerWindowID s;
          cn_depth := b_depth s;
          cn_length := b_length s |};
     stackIndexToCallNodeIndex := b_stackIndexToCallNodeIndex s |}.

(** ** CallNodePath and CallNodeIndex manipulations *)

Definition CallNodePath := list Z.

(** [_getCallNodeIndexFromParentAndFunc]: the first call node after [parent]
    whose prefix is [parent] and whose function is [func]. *)
Definition _getCallNodeIndexFromParentAndFunc (parent func : Z)
    (callNodeTable : CallNodeTable) : option Z :=
  let start := Z.to_nat (parent + 1) in
  (fun hit => Z.of_nat (snd hit)) <$>
    list_find (fun callNodeIndex =>
                 cn_prefix callNodeTable !!! callNodeIndex = parent ∧
                 cn_func callNodeTable !!! callNodeIndex = func)
      (seq start (cn_length callNodeTable - start)).

(** [getCallNodePathFromIndex].  The loop [while (fs !== -1)] follows the
    prefix links; it is run for at most [fuel] links, and [None] stands for a
    walk that has not reached [-1] by then. *)
Fixpoint collectFuncsToRoot (fuel : nat) (callNodeTable : CallNodeTable)
    (fs : Z) (callNodePath : list Z) : option (list Z) :=
  if decide (fs = -1) then Some callNodePath
  else
    match fuel with
    | O => None
    | S fuel' =>
        collectFuncsToRoot fuel' callNodeTable
          (cn_prefix callNodeTable !!! Z.to_nat fs)
          (callNodePath ++ [cn_func callNodeTable !!! Z.to_nat fs])
    end.

Definition getCallNodePathFromIndex (callNodeIndex : option Z)
    (callNodeTable : CallNodeTable) : option CallNodePath :=
  match callNodeIndex with
  | None => Some []
  | Some fs =>
      if decide (fs = -1) then Some []
      else reverse <$> collectFuncsToRoot (cn_length callNodeTable) callNodeTable fs []
  end.

Section Resolver.

(** [hashPath] of [../utils/path] is not among the sources; the resolver is
    parameterised by it. *)
Variable hashPath : CallNodePath -> string.

(** Step 1 of [_getCallNodeIndexFromPathWithCache]: the loop
    [while (--i > 0)], entered with [i = m].  It returns the value of [i]
    after the loop, the cached index of the sub-path of that length if one
    was found, and [sliceHashes] (a stack: its head is the element that
    [pop] returns). *)
Fixpoint findCachedParent (callNodePath : CallNodePath) (cache : gmap string Z)
    (m : nat) (sliceHashes : list string) : Z * option Z * list string :=
  match m with
  | O => (-1, None, sliceHashes)
  | S i =>
      match i with
      | O => (0, None, sliceHashes)
      | S _ =>
          let subPath := slice 0 i callNodePath in
          let hash := hashPath subPath in
          match cache !! hash with
          | Some index => (Z.of_nat i, Some index, sliceHashes)
          | None => findCachedParent callNodePath cache i (hash :: sliceHashes)
          end
      end
  end.

(** Step 2: the loop [while (i < callNodePath.length)], over the functions
    of the path from position [i] on. *)
Fixpoint resolveDownwards (callNodeTable : CallNodeTable) (funcs : list Z)
    (index : Z) (sliceHashes : list string) (cache : gmap string Z)
  : option Z * gmap string Z :=
  match funcs with
  | [] => (if decide (index < 0) then None else Some index, cache)
  | func :: funcs' =>
      match _getCallNodeIndexFromParentAndFunc index func callNodeTable with
      | None => (None, cache)
      | Some nextNodeIndex =>
          let hash := hd ""%string sliceHashes in
          resolveDownwards callNodeTable funcs' nextNodeIndex
            (tail sliceHashes) (<[hash := nextNodeIndex]> cache)
      end
  end.

(** For the empty path step 1 leaves [i = -1]; [callNodePath[-1]] is
    [undefined], which no call node has as its function, so the look-up of
    step 2 fails at once. *)
Definition _getCallNodeIndexFromPathWithCache (callNodePath : CallNodePath)
    (callNodeTable : CallNodeTable) (cache : gmap string Z)
  : option Z * gmap string Z :=
  let hashFullPath := hashPath callNodePath in
  match cache !! hashFullPath with
  | Some result => (Some result, cache)
  | None =>
      let '(i, index, sliceHashes) :=
        findCachedParent callNodePath cache (length callNodePath) [hashFullPath] in
      if decide (i < 0) then (None, cache)
      else
        resolveDownwards callNodeTable (drop (Z.to_nat i) callNodePath)
          (default (-1) index) sliceHashes cache
  end.

Fixpoint resolvePathsWithCache (callNodePaths : list CallNodePath)
    (callNodeTable : CallNodeTable) (cache : gmap string Z)
  : list (option Z) :=
  match callNodePaths with
  | [] => []
  | path :: paths =>
      let '(r, cache') :=
        _getCallNodeIndexFromPathWithCache path callNodeTable cache in
      r :: resolvePathsWithCache paths callNodeTable cache'
  end.

Definition getCallNodeIndicesFromPaths (callNodePaths : list CallNodePath)
    (callNodeTable : CallNodeTable) : list (option Z) :=
  resolvePathsWithCache callNodePaths callNodeTable ∅.

Definition getCallNodeIndexFromPath (callNodePath : CallNodePath)
    (callNodeTable : CallNodeTable) : option Z :=
  match getCallNodeIndicesFromPaths [callNodePath] callNodeTable with
  | result :: _ => result
  | [] => None
  end.

End Resolver.

(** ** getTreeOrderComparator *)

(** The two alignment loops: [n] times [callNode = prefix[callNode]]. *)
Definition walkTowardsRoot (callNodeTable : CallNodeTable) (n : nat) (callNode : Z) : Z :=
  Nat.iter n (fun c => cn_prefix callNodeTable !!! Z.to_nat c) callNode.

(** The loop [while (true)] of [compareCallNodes]; [None] when no common
    parent was met within [fuel] steps. *)
Fixpoint walkToCommonParent (fuel : nat) (callNodeTable : CallNodeTable)
    (callNodeA callNodeB : Z) : option (Z * Z) :=
  match fuel with
  | O => None
  | S fuel' =>
      let parentNodeA := cn_prefix callNodeTable !!! Z.to_nat callNodeA in
      let parentNodeB := cn_prefix callNodeTable !!! Z.to_nat callNodeB in
      if decide (parentNodeA = parentNodeB) then Some (callNodeA, callNodeB)
      else walkToCommonParent fuel' callNodeTable parentNodeA parentNodeB
  end.

Definition compareCallNodes (callNodeTable : CallNodeTable)
    (callNodeA callNodeB : Z) : option Z :=
  let initialDepthA := cn_depth callNodeTable !!! Z.to_nat callNodeA in
  let initialDepthB := cn_depth callNodeTable !!! Z.to_nat callNodeB in
  let callNodeA :=
    walkTowardsRoot callNodeTable (Z.to_nat (initialDepthA - initialDepthB)) callNodeA in
  let callNodeB :=
    walkTowardsRoot callNodeTable (Z.to_nat (initialDepthB - initialDepthA)) callNodeB in
  if decide (callNodeA = callNodeB) then Some (initialDepthA - initialDepthB)
  else
    '(callNodeA, callNodeB) ←
      walkToCommonParent (cn_length callNodeTable) callNodeTable callNodeA callNodeB;
    Some (callNodeA - callNodeB).

Definition getTreeOrderComparator (callNodeTable : CallNodeTable)
    (sampleCallNodes : list (option Z)) (sampleA sampleB : nat) : option Z :=
  let callNodeA := sampleCallNodes !!! sampleA in
  let callNodeB := sampleCallNodes !!! sampleB in
  match callNodeA, callNodeB with
  | None, None => Some 0
  | None, Some _ => Some 1
  | Some _, None => Some (-1)
  | Some callNodeA, Some callNodeB =>
      compareCallNodes callNodeTable callNodeA callNodeB
  end.

(** ** Samples, threads and categories *)

Record SamplesTable := {
  s_time : list Z;
  s_stack : list (option nat);
  s_weight : option (list Z);
  s_weightType : string;
  s_eventDelay : option (list (option Z));
  s_responsiveness : option (list (option Z));
  s_threadCPUDelta : option (list (option Z));
  s_length : nat;
}.

Record JsAllocationsTable := {
  js_time : list Z;
  js_className : list string;
  js_typeName : list string;
  js_coarseType : list string;
  js_weight : list Z;
  js_weightType : string;
  js_inNursery : list bool;
  js_stack : list (option nat);
  js_length : nat;
}.

(** The fields of a [Thread] that the functions below read. *)
Record Thread := {
  samples : SamplesTable;
  jsAllocations : option JsAllocationsTable;
  nativeAllocations : option NativeAllocationsTable;
  stackTable : StackTable;
  frameTable : FrameTable;
  funcTable : FuncTable;
  stringTable : list string;
}.

(** Modelled from the spec: [UniqueStringArray] of
    [../utils/unique-string-array], which is not among the sources: the array
    of the thread's strings, with [getString] as its look-up. *)
Definition getString (stringTable : list string) (index : nat) : string :=
  stringTable !!! index.

Record Category := {
  cat_name : string;
  cat_subcategories : list string;
}.

(** ** getTimingsForCallNodeIndex *)

Record CategoryBreakdown := {
  entireCategoryValue : Z;
  subcategoryBreakdown : list Z;
}.

(** A timing with its two lazily allocated breakdowns ([None] is [null]).
    The implementation breakdown is an object keyed by the implementation's
    name. *)
Record Timing := {
  value : Z;
  breakdownByImplementation : option (gmap string Z);
  breakdownByCategory : option (list CategoryBreakdown);
}.

Record ItemTimings := {
  selfTime : Timing;
  totalTime : Timing;
}.

Record TimingsForPath := {
  forPath : ItemTimings;
  forFunc : ItemTimings;
  rootTime : Z;
}.

Definition emptyTiming : Timing :=
  {| value := 0; breakdownByImplementation := None; breakdownByCategory := None |}.

Definition emptyItemTimings : ItemTimings :=
  {| selfTime := emptyTiming; totalTime := emptyTiming |}.

Definition withSelfTime (t : Timing) (it : ItemTimings) : ItemTimings :=
  {| selfTime := t; totalTime := totalTime it |}.

Definition withTotalTime (t : Timing) (it : ItemTimings) : ItemTimings :=
  {| selfTime := selfTime it; totalTime := t |}.

(** [categories.findIndex(({ name }) => name === 'JavaScript')]. *)
Definition findJavascriptCategoryIndex (categories : list Category) : Z :=
  match list_find (fun c => cat_name c = "JavaScript"%string) categories with
  | Some (i, _) => Z.of_nat i
  | None => -1
  end.

Section Timings.

Variable callNodeInfo : CallNodeInfo.
Variable isInvertedTree : bool.
Variable thread : Thread.
Variable unfilteredThread : Thread.
Variable sampleIndexOffset : nat.
Variable categories : list Category.
Variable samples_ : SamplesTable.
Variable unfilteredSamples : SamplesTable.

Let unfilteredStackTable := stackTable unfilteredThread.
Let unfilteredFuncTable := funcTable unfilteredThread.
Let unfilteredFrameTable := frameTable unfilteredThread.
Let javascriptCategoryIndex := findJavascriptCategoryIndex categories.

Definition getImplementationForJsStack (unfilteredFrameIndex : nat) : string :=
  match ft_implementation unfilteredFrameTable !!! unfilteredFrameIndex with
  | None => "interpreter"
  | Some jsImplementationStrIndex =>
      let jsImplementation := getString (stringTable thread) jsImplementationStrIndex in
      if decide (jsImplementation = "baseline"%string) then jsImplementation
      else if decide (jsImplementation = "blinterp"%string) then jsImplementation
      else if decide (jsImplementation = "ion"%string) then jsImplementation
      else "unknown"
  end.

(** The loop of [getImplementationForNativeStack] over the ancestors of the
    unfiltered stack; [None] when [fuel] links did not reach the root. *)
Fixpoint findJsAncestorImplementation (fuel : nat) (currentStackIndex : option nat)
  : option string :=
  match currentStackIndex with
  | None => Some "native"%string
  | Some current =>
      match fuel with
      | O => None
      | S fuel' =>
          let frameIndex := st_frame unfilteredStackTable !!! current in
          let funcIndex := ft_func unfilteredFrameTable !!! frameIndex in
          let isJS : bool := fn_isJS unfilteredFuncTable !!! Z.to_nat funcIndex in
          if isJS then Some (getImplementationForJsStack frameIndex)
          else findJsAncestorImplementation fuel'
                 (st_prefix unfilteredStackTable !!! current)
      end
  end.

Definition getImplementationForNativeStack (unfilteredStackIndex : nat)
  : option string :=
  let category := st_category unfilteredStackTable !!! unfilteredStackIndex in
  if decide (category ≠ javascriptCategoryIndex) then Some "native"%string
  else findJsAncestorImplementation (st_length unfilteredStackTable)
         (Some unfilteredStackIndex).

Definition getImplementationForStack (thisSampleIndex : nat) : option string :=
  match s_stack unfilteredSamples !!! (thisSampleIndex + sampleIndexOffset)%nat with
  | None => Some "native"%string
  | Some stackIndex =>
      let frameIndex := st_frame unfilteredStackTable !!! stackIndex in
      let funcIndex := ft_func unfilteredFrameTable !!! frameIndex in
      if (fn_isJS unfilteredFuncTable !!! Z.to_nat funcIndex : bool)
      then Some (getImplementationForJsStack frameIndex)
      else getImplementationForNativeStack stackIndex
  end.

(** Step 3 of [accumulateDataToTimings]. *)
Definition addToImplementationBreakdown (implementation : string) (duration : Z)
    (breakdown : option (gmap string Z)) : option (gmap string Z) :=
  let b := default ∅ breakdown in
  Some (<[implementation := default 0 (b !! implementation) + duration]> b).

Definition emptyCategoryBreakdown : list CategoryBreakdown :=
  (fun category =>
     {| entireCategoryValue := 0;
        subcategoryBreakdown := replicate (length (cat_subcategories category)) 0 |})
  <$> categories.

(** Step 5 of [accumulateDataToTimings].  The category and subcategory are
    indices into [categories] and its subcategory list; the code fails on a
    category that is not one, which is not modelled: [TimingsInput_wf] below
    states that they are. *)
Definition addToCategoryBreakdown (categoryIndex subcategoryIndex : Z) (duration : Z)
    (breakdown : option (list CategoryBreakdown)) : option (list CategoryBreakdown) :=
  let b := default emptyCategoryBreakdown breakdown in
  Some (alter (fun c =>
                 {| entireCategoryValue := entireCategoryValue c + duration;
                    subcategoryBreakdown :=
                      alter (fun v => v + duration) (Z.to_nat subcategoryIndex)
                        (subcategoryBreakdown c) |})
          (Z.to_nat categoryIndex) b).

Definition accumulateDataToTimings (timings : Timing) (sampleIndex : nat)
    (stackIndex : nat) (duration : Z) : option Timing :=
  implementation ← getImplementationForStack sampleIndex;
  let byImplementation :=
    addToImplementationBreakdown implementation duration
      (breakdownByImplementation timings) in
  let byCategory :=
    match s_stack unfilteredSamples !!! (sampleIndex + sampleIndexOffset)%nat with
    | Some unfilteredStackIndex =>
        let categoryIndex := st_category unfilteredStackTable !!! unfilteredStackIndex in
        let subcategoryIndex := st_subcategory unfilteredStackTable !!! unfilteredStackIndex in
        addToCategoryBreakdown categoryIndex subcategoryIndex duration
          (breakdownByCategory timings)
    | None => breakdownByCategory timings
    end in
  Some {| value := value timings + duration;
          breakdownByImplementation := byImplementation;
          breakdownByCategory := byCategory |}.

(** The variables of the loop over the samples. *)
Record TimingsState := {
  pathTimings : ItemTimings;
  funcTimings : ItemTimings;
  ts_rootTime : Z;
}.

(** [accumulateDataToTimings] applied to one of the four timings when the
    condition holds. *)
Definition accumulateIf (c : bool) (timings : Timing) (sampleIndex stackIndex : nat)
    (duration : Z) : option Timing :=
  if c then accumulateDataToTimings timings sampleIndex stackIndex duration
  else Some timings.

Definition addToValue (duration : Z) (timings : Timing) : Timing :=
  {| value := value timings + duration;
     breakdownByImplementation := breakdownByImplementation timings;
     breakdownByCategory := breakdownByCategory timings |}.

(** The inner loop: the walk from the sample's stack towards the root. *)
Fixpoint walkStack (fuel : nat) (needleNodeIndex needleFuncIndex : Z)
    (sampleIndex thisStackIndex : nat) (weight : Z)
    (currentStackIndex : option nat) (funcFound pathFound : bool)
    (st : TimingsState) : option TimingsState :=
  match currentStackIndex with
  | None => Some st
  | Some current =>
      match fuel with
      | O => None
      | S fuel' =>
          let currentNodeIndex := stackIndexToCallNodeIndex callNodeInfo !!! current in
          let currentFuncIndex :=
            cn_func (callNodeTable callNodeInfo) !!! Z.to_nat currentNodeIndex in
          let nextStackIndex := st_prefix (stackTable thread) !!! current in
          let isNeedle := bool_decide (currentNodeIndex = needleNodeIndex) in
          pathTotal ←
            accumulateIf (isNeedle && negb isInvertedTree)
              (totalTime (pathTimings st)) sampleIndex thisStackIndex weight;
          let pathFound := pathFound || isNeedle in
          let isFunc :=
            negb funcFound && bool_decide (currentFuncIndex = needleFuncIndex) in
          funcTotal ←
            accumulateIf (isFunc && negb isInvertedTree)
              (totalTime (funcTimings st)) sampleIndex thisStackIndex weight;
          let funcFound := funcFound || isFunc in
          let st :=
            {| pathTimings := withTotalTime pathTotal (pathTimings st);
               funcTimings := withTotalTime funcTotal (funcTimings st);
               ts_rootTime := ts_rootTime st |} in
          if negb isInvertedTree && funcFound && pathFound then Some st
          else if isInvertedTree && bool_decide (nextStackIndex = None) then
            let pathSelf :=
              if isNeedle then addToValue weight (selfTime (pathTimings st))
              else selfTime (pathTimings st) in
            funcSelf ←
              accumulateIf (bool_decide (currentFuncIndex = needleFuncIndex))
                (selfTime (funcTimings st)) sampleIndex current weight;
            pathTotal ←
              accumulateIf pathFound (totalTime (pathTimings st))
                sampleIndex current weight;
            funcTotal ←
              accumulateIf funcFound (totalTime (funcTimings st))
                sampleIndex current weight;
            Some {| pathTimings := {| selfTime := pathSelf; totalTime := pathTotal |};
                    funcTimings := {| selfTime := funcSelf; totalTime := funcTotal |};
                    ts_rootTime := ts_rootTime st |}
          else
            walkStack fuel' needleNodeIndex needleFuncIndex sampleIndex
              thisStackIndex weight nextStackIndex funcFound pathFound st
      end
  end.

(** The body of the loop over the samples. *)
Definition processSample (needleNodeIndex needleFuncIndex : Z)
    (st : TimingsState) (sampleIndex : nat) : option TimingsState :=
  match s_stack samples_ !!! sampleIndex with
  | None => Some st
  | Some thisStackIndex =>
      let weight :=
        match s_weight samples_ with
        | Some weights => weights !!! sampleIndex
        | None => 1
        end in
      let rootTime := ts_rootTime st + Z.abs weight in
      let thisNodeIndex := stackIndexToCallNodeIndex callNodeInfo !!! thisStackIndex in
      let thisFunc := cn_func (callNodeTable callNodeInfo) !!! Z.to_nat thisNodeIndex in
      pathSelf ←
        accumulateIf (negb isInvertedTree && bool_decide (thisNodeIndex = needleNodeIndex))
          (selfTime (pathTimings st)) sampleIndex thisStackIndex weight;
      funcSelf ←
        accumulateIf (negb isInvertedTree && bool_decide (thisFunc = needleFuncIndex))
          (selfTime (funcTimings st)) sampleIndex thisStackIndex weight;
      walkStack (st_length (stackTable thread)) needleNodeIndex needleFuncIndex
        sampleIndex thisStackIndex weight (Some thisStackIndex) false false
        {| pathTimings := withSelfTime pathSelf (pathTimings st);
           funcTimings := withSelfTime funcSelf (funcTimings st);
           ts_rootTime := rootTime |}
  end.

Definition initialTimingsState : TimingsState :=
  {| pathTimings := emptyItemTimings; funcTimings := emptyItemTimings;
     ts_rootTime := 0 |}.

Definition timingsOfState (st : TimingsState) : TimingsForPath :=
  {| forPath := pathTimings st; forFunc := funcTimings st;
     rootTime := ts_rootTime st |}.

(** [getTimingsForCallNodeIndex].  The result is [None] when one of the
    ancestor walks does not end.  The parameter [interval] of the source is
    not read by its body and is left out.  The reads are those of the code
    for indices inside the arrays, which [TimingsInput_wf] below states of
    the arguments; weights and times are whole numbers. *)
Definition getTimingsForCallNodeIndex (needleNodeIndex : option Z)
  : option TimingsForPath :=
  match needleNodeIndex with
  | None => Some (timingsOfState initialTimingsState)
  | Some needleNodeIndex =>
      let needleFuncIndex :=
        cn_func (callNodeTable callNodeInfo) !!! Z.to_nat needleNodeIndex in
      timingsOfState <$>
        foldl (fun acc sampleIndex =>
                 st ← acc; processSample needleNodeIndex needleFuncIndex st sampleIndex)
          (Some initialTimingsState) (seq 0 (s_length samples_))
  end.

End Timings.

(** ** Filtering the samples to a time range *)

(** Modelled from the spec: [bisectionLeft] of [utils/bisect], which is not
    among the sources: a binary search for the leftmost position of [x] in
    the sorted array, between [low] and the end of the array. *)
Fixpoint bisectionLeftLoop (fuel : nat) (array : list Z) (x : Z) (low high : nat) : nat :=
  match fuel with
  | O => low
  | S fuel' =>
      if decide (low < high)%nat then
        let mid := ((low + high) / 2)%nat in
        if decide (array !!! mid < x)
        then bisectionLeftLoop fuel' array x (mid + 1)%nat high
        else bisectionLeftLoop fuel' array x low mid
      else low
  end.

Definition bisectionLeft (array : list Z) (x : Z) (low : nat) : nat :=
  bisectionLeftLoop (length array) array x low (length array).

Definition getSampleIndexRangeForSelection (time : list Z) (rangeStart rangeEnd : Z)
  : nat * nat :=
  let sampleStart := bisectionLeft time rangeStart 0 in
  let sampleEnd := bisectionLeft time rangeEnd sampleStart in
  (sampleStart, sampleEnd).

Definition sliceNativeAllocations (b e : nat) (t : NativeAllocationsTable)
  : NativeAllocationsTable :=
  match t with
  | Balanced t =>
      Balanced
        {| bna_time := slice b e (bna_time t);
           bna_weight := slice b e (bna_weight t);
           bna_weightType := bna_weightType t;
           bna_stack := slice b e (bna_stack t);
           bna_memoryAddress := slice b e (bna_memoryAddress t);
           bna_threadId := slice b e (bna_threadId t);
           bna_length := e - b |}
  | Unbalanced t =>
      Unbalanced
        {| una_time := slice b e (una_time t);
           una_weight := slice b e (una_weight t);
           una_weightType := una_weightType t;
           una_stack := slice b e (una_stack t);
           una_length := e - b |}
  end.

Definition nativeAllocationsTime (t : NativeAllocationsTable) : list Z :=
  match t with
  | Balanced t => bna_time t
  | Unbalanced t => una_time t
  end.

Definition nativeAllocationsWeight (t : NativeAllocationsTable) : list Z :=
  match t with
  | Balanced t => bna_weight t
  | Unbalanced t => una_weight t
  end.

Definition filterThreadSamplesToRange (thread : Thread) (rangeStart rangeEnd : Z)
  : Thread :=
  let samples := samples thread in
  let '(beginSampleIndex, endSampleIndex) :=
    getSampleIndexRangeForSelection (s_time samples) rangeStart rangeEnd in
  let newSamples :=
    {| s_length := endSampleIndex - beginSampleIndex;
       s_time := slice beginSampleIndex endSampleIndex (s_time samples);
       s_weight := slice beginSampleIndex endSampleIndex <$> s_weight samples;
       s_weightType := s_weightType samples;
       s_stack := slice beginSampleIndex endSampleIndex (s_stack samples);
       s_eventDelay := slice beginSampleIndex endSampleIndex <$> s_eventDelay samples;
       s_responsiveness :=
         match s_eventDelay samples with
         | Some _ => None
         | None => slice beginSampleIndex endSampleIndex <$> s_responsiveness samples
         end;
       s_threadCPUDelta :=
         slice beginSampleIndex endSampleIndex <$> s_threadCPUDelta samples |} in
  {| samples := newSamples;
     jsAllocations :=
       (fun jsAllocations =>
          let '(startAllocIndex, endAllocIndex) :=
            getSampleIndexRangeForSelection (js_time jsAllocations) rangeStart rangeEnd in
          {| js_time := slice startAllocIndex endAllocIndex (js_time jsAllocations);
             js_className := slice startAllocIndex endAllocIndex (js_className jsAllocations);
             js_typeName := slice startAllocIndex endAllocIndex (js_typeName jsAllocations);
             js_coarseType := slice startAllocIndex endAllocIndex (js_coarseType jsAllocations);
             js_weight := slice startAllocIndex endAllocIndex (js_weight jsAllocations);
             js_weightType := js_weightType jsAllocations;
             js_inNursery := slice startAllocIndex endAllocIndex (js_inNursery jsAllocations);
             js_stack := slice startAllocIndex endAllocIndex (js_stack jsAllocations);
             js_length := endAllocIndex - startAllocIndex |})
       <$> jsAllocations thread;
     nativeAllocations :=
       (fun nativeAllocations =>
          let '(startAllocIndex, endAllocIndex) :=
            getSampleIndexRangeForSelection (nativeAllocationsTime nativeAllocations)
              rangeStart rangeEnd in
          sliceNativeAllocations startAllocIndex endAllocIndex nativeAllocations)
       <$> nativeAllocations thread;
     stackTable := stackTable thread;
     frameTable := frameTable thread;
     funcTable := funcTable thread;
     stringTable := stringTable thread |}.

(** ** processEventDelays *)

(** A call either returns or throws an [Error] with a message. *)
Inductive Completion (A : Type) :=
  | Return (a : A)
  | Throw (message : string).
Arguments Return {A} a.
Arguments Throw {A} message.








(** ** Well-formed tables *)

(** A stack table has parallel columns, fewer than 2^31 stacks, and every
    stack's prefix is an earlier stack (the condition that the loop of
    [getCallNodeInfo] relies on). *)
Record StackTable_wf (t : StackTable) : Prop := {
  st_wf_frame : length (st_frame t) = st_length t;
  st_wf_category : length (st_category t) = st_length t;
  st_wf_subcategory : length (st_subcategory t) = st_length t;
  st_wf_prefix : length (st_prefix t) = st_length t;
  st_wf_size : Z.of_nat (st_length t) < 2 ^ 31;
  st_wf_order : forall i p, st_prefix t !! i = Some (Some p) -> (p < i)%nat;
}.

(** The frames of the stacks exist, their functions are rows of the function
    table, and function indices fit an [Int32Array]. *)
Record FrameRefs_wf (stackTable : StackTable) (frameTable : FrameTable)
    (funcTable : FuncTable) : Prop := {
  fr_wf_frame : forall j, (j < st_length stackTable)%nat ->
    (st_frame stackTable !!! j < length (ft_func frameTable))%nat;
  fr_wf_func : forall f, (f < length (ft_func frameTable))%nat ->
    0 <= ft_func frameTable !!! f < Z.of_nat (fn_length funcTable);
  fr_wf_size : Z.of_nat (fn_length funcTable) < 2 ^ 31;
}.

(** The keys of the map of [getCallNodeInfo] are computed exactly: a call
    node index is below the number of stacks and a function index below the
    number of functions, so no key [prefixCallNode * funcCount + funcIndex]
    exceeds the product of the two, which a double holds exactly up to
    [2 ^ 53]. *)
Definition CallNodeKeys_exact (stackTable : StackTable) (funcTable : FuncTable)
  : Prop :=
  Z.of_nat (st_length stackTable) * Z.of_nat (fn_length funcTable) <= 2 ^ 53.

(** Categories are stored in [Int32Array]s: the default category and the
    category pairs of the stacks fit. *)
Definition Categories_int32 (stackTable : StackTable) (defaultCategory : Z) : Prop :=
  - 2 ^ 31 <= defaultCategory < 2 ^ 31 /\
  forall j, (j < st_length stackTable)%nat ->
    - 2 ^ 31 <= st_category stackTable !!! j < 2 ^ 31 /\
    - 2 ^ 31 <= st_subcategory stackTable !!! j < 2 ^ 31.

(** Call node [i] is a root of depth 0, or its prefix is an earlier call node
    that is one level higher. *)
Definition callNodeOk (prefix depth : list Z) (i : nat) : Prop :=
  (prefix !!! i = -1 /\ depth !!! i = 0) \/
  (0 <= prefix !!! i < Z.of_nat i /\
   depth !!! Z.to_nat (prefix !!! i) + 1 = depth !!! i).

(** The invariant of a [CallNodeTable]. *)
Record CallNodeTable_wf (t : CallNodeTable) : Prop := {
  cn_wf_prefix : length (cn_prefix t) = cn_length t;
  cn_wf_func : length (cn_func t) = cn_length t;
  cn_wf_depth : length (cn_depth t) = cn_length t;
  cn_wf_nodes : forall i, (i < cn_length t)%nat -> callNodeOk (cn_prefix t) (cn_depth t) i;
}.

(** No two call nodes have the same prefix and the same function. *)
Definition UniqueChildren (t : CallNodeTable) : Prop :=
  forall i j, (i < cn_length t)%nat -> (j < cn_length t)%nat ->
    cn_prefix t !!! i = cn_prefix t !!! j ->
    cn_func t !!! i = cn_func t !!! j -> i = j.

(** The call nodes of the samples are call nodes of the table. *)
Definition SampleCallNodes_wf (t : CallNodeTable) (sampleCallNodes : list (option Z)) : Prop :=
  forall sample n, sampleCallNodes !! sample = Some (Some n) ->
    0 <= n < Z.of_nat (cn_length t).

(** The stacks of the samples are rows of the stack table. *)
Definition Samples_wf (stackTable : StackTable) (samples : SamplesTable) : Prop :=
  forall i s, s_stack samples !! i = Some (Some s) ->
    (s < st_length stackTable)%nat.

(** The times of a table are in ascending order. *)
Definition TimeSorted (time : list Z) : Prop :=
  forall i j, (i <= j)%nat -> (j < length time)%nat -> time !!! i <= time !!! j.

(** Every sample has a stack in the unfiltered samples, and the category of
    that stack is a row of the category list. *)
Definition CategoriesResolved (unfilteredThread : Thread) (sampleIndexOffset : nat)
    (categories : list Category) (samples unfilteredSamples : SamplesTable) : Prop :=
  forall i, (i < s_length samples)%nat ->
    exists u, s_stack unfilteredSamples !!! (i + sampleIndexOffset)%nat = Some u /\
      0 <= st_category (stackTable unfilteredThread) !!! u
        < Z.of_nat (length categories).

(** ** The invariants of the call-node builder *)

(** The invariant of the loop of [getCallNodeInfo] after [k] stacks. *)
Record BuilderInv (stackTable : StackTable) (funcCount : Z) (k : nat)
    (s : BuilderState) : Prop := {
  inv_prefix : length (b_prefix s) = b_length s;
  inv_func : length (b_func s) = b_length s;
  inv_category : length (b_category s) = b_length s;
  inv_subcategory : length (b_subcategory s) = b_length s;
  inv_innerWindowID : length (b_innerWindowID s) = b_length s;
  inv_depth : length (b_depth s) = b_length s;
  inv_stacks : length (b_stackIndexToCallNodeIndex s) = st_length stackTable;
  inv_length : (b_length s <= k)%nat;
  inv_nodes : forall i, (i < b_length s)%nat -> callNodeOk (b_prefix s) (b_depth s) i;
  inv_resolved : forall j, (j < k)%nat ->
    0 <= b_stackIndexToCallNodeIndex s !!! j < Z.of_nat (b_length s);
  inv_map_range : forall key v,
    b_prefixCallNodeAndFuncToCallNodeMap s !! key = Some v ->
    0 <= v < Z.of_nat (b_length s);
  inv_map_nodes : forall i, (i < b_length s)%nat ->
    b_prefixCallNodeAndFuncToCallNodeMap s
      !! (b_prefix s !!! i * funcCount + b_func s !!! i) = Some (Z.of_nat i);
}.

(** Two builder states with the same call nodes, up to the categories that
    were recorded for them. *)
Definition sameCallNodes (s s' : BuilderState) : Prop :=
  b_stackIndexToCallNodeIndex s' = b_stackIndexToCallNodeIndex s /\
  b_prefixCallNodeAndFuncToCallNodeMap s' = b_prefixCallNodeAndFuncToCallNodeMap s /\
  b_prefix s' = b_prefix s /\
  b_func s' = b_func s /\
  b_innerWindowID s' = b_innerWindowID s /\
  b_depth s' = b_depth s /\
  b_length s' = b_length s /\
  length (b_category s') = length (b_category s) /\
  length (b_subcategory s') = length (b_subcategory s).

(** The category and subcategory that stack [j] was recorded with. *)
Definition stackCategory (stackTable : StackTable) (j : nat) : Z * Z :=
  (st_category stackTable !!! j, st_subcategory stackTable !!! j).

(** The branches of [getCallNodeInfo] for a call node that exists already,
    as a function from the node's category pair and the stack's category
    pair to the node's new category pair. *)
Definition mergeCategory (defaultCategory : Z) (node stack : Z * Z) : Z * Z :=
  if decide (node.1 ≠ stack.1) then (defaultCategory, 0)
  else if decide (node.2 ≠ stack.2) then (node.1, 0)
  else node.

(** The stacks among the first [k] that were resolved to call node [n]. *)
Definition stacksOf (stackIndexToCallNodeIndex : list Z) (k : nat) (n : nat) : list nat :=
  filter (fun j => stackIndexToCallNodeIndex !!! j = Z.of_nat n) (seq 0 k).

(** After [k] stacks, the category pair of every call node is the merge of
    the category pairs of the stacks resolved to it, in order. *)
Definition CategoryInv (stackTable : StackTable) (defaultCategory : Z) (k : nat)
    (s : BuilderState) : Prop :=
  forall n, (n < b_length s)%nat ->
    exists j0 rest,
      stacksOf (b_stackIndexToCallNodeIndex s) k n = j0 :: rest /\
      (b_category s !!! n, b_subcategory s !!! n) =
        foldl (mergeCategory defaultCategory) (stackCategory stackTable j0)
          (stackCategory stackTable <$> rest).

(** ** Paths of call nodes *)

(** [PathOf t n path]: [path] lists the functions of the call nodes from the
    root down to call node [n]; the path of [-1] is empty. *)
Inductive PathOf (t : CallNodeTable) : Z -> CallNodePath -> Prop :=
  | PathOf_root : PathOf t (-1) []
  | PathOf_child (n : Z) (path : CallNodePath) :
      0 <= n < Z.of_nat (cn_length t) ->
      PathOf t (cn_prefix t !!! Z.to_nat n) path ->
      PathOf t n (path ++ [cn_func t !!! Z.to_nat n]).

(** [Descends t a funcs n]: from call node [a] (or from [-1]), taking at each
    level the child with the next function of [funcs] leads to [n]. *)
Inductive Descends (t : CallNodeTable) : Z -> list Z -> Z -> Prop :=
  | Descends_here (a : Z) : Descends t a [] a
  | Descends_child (a c n : Z) (funcs : list Z) :
      0 <= c < Z.of_nat (cn_length t) ->
      cn_prefix t !!! Z.to_nat c = a ->
      Descends t c funcs n ->
      Descends t a (cn_func t !!! Z.to_nat c :: funcs) n.

(** ** The keys of the tree order *)

(** The call nodes from the root down to [n], by their indices; the sort key
    of [n] in tree order. *)
Fixpoint ancestorChain (fuel : nat) (t : CallNodeTable) (n : Z) : list Z :=
  if decide (n = -1) then []
  else
    match fuel with
    | O => []
    | S fuel' => ancestorChain fuel' t (cn_prefix t !!! Z.to_nat n) ++ [n]
    end.

Definition treeKey (t : CallNodeTable) (n : Z) : list Z :=
  ancestorChain (cn_length t) t n.

(** What a result [r] of the comparator says about the keys of the two call
    nodes: negative when [a] comes first in the lexicographic order of the
    keys, positive when [b] does, zero for the same call node. *)
Definition ordersAs (t : CallNodeTable) (a b : Z) (r : Z) : Prop :=
  (r < 0 /\ lexico (treeKey t a) (treeKey t b)) \/
  (r = 0 /\ a = b) \/
  (r > 0 /\ lexico (treeKey t b) (treeKey t a)).

(** The same for two samples, whose call nodes may be [null]: a sample
    without a call node comes after every sample with one. *)
Definition samplesOrderAs (t : CallNodeTable) (a b : option Z) (r : Z) : Prop :=
  match a, b with
  | None, None => r = 0
  | None, Some _ => r = 1
  | Some _, None => r = -1
  | Some a, Some b => ordersAs t a b r
  end.

(** ** Specification of the timings *)

Definition sumZ (l : list Z) : Z := foldr Z.add 0 l.

Definition sampleWeight (samples : SamplesTable) (i : nat) : Z :=
  match s_weight samples with
  | Some weights => weights !!! i
  | None => 1
  end.

(** The sum of [|weight|] over the first [k] samples that have a stack. *)
Definition rootTimeOf (samples : SamplesTable) (k : nat) : Z :=
  sumZ ((fun i => match s_stack samples !!! i with
                  | Some _ => Z.abs (sampleWeight samples i)
                  | None => 0
                  end) <$> seq 0 k).

(** The sum of the weights of those of the first [k] samples whose stack is
    resolved to the call node [needle]. *)
Definition selfTimeOf (callNodeInfo : CallNodeInfo) (samples : SamplesTable)
    (needle : Z) (k : nat) : Z :=
  sumZ ((fun i => match s_stack samples !!! i with
                  | Some s =>
                      if decide (stackIndexToCallNodeIndex callNodeInfo !!! s = needle)
                      then sampleWeight samples i else 0
                  | None => 0
                  end) <$> seq 0 k).

(** The sum of the entries of a timing's implementation breakdown, and of
    the category totals of its category breakdown. *)
Definition implementationTotal (t : Timing) : Z :=
  match breakdownByImplementation t with
  | Some m => map_fold (fun _ v acc => v + acc) 0 m
  | None => 0
  end.

Definition categoryTotal (t : Timing) : Z :=
  match breakdownByCategory t with
  | Some l => sumZ (entireCategoryValue <$> l)
  | None => 0
  end.

(** The value of a timing is the sum of its implementation breakdown. *)
Definition implementationAccounted (t : Timing) : Prop :=
  value t = implementationTotal t.

(** The value of a timing is the sum, over the categories, of its category
    breakdown, which has one row per category. *)
Definition categoryAccounted (categories : list Category) (t : Timing) : Prop :=
  (forall l, breakdownByCategory t = Some l -> length l = length categories) /\
  value t = categoryTotal t.

(** [Accumulated t t']: [t'] is [t] after some calls of
    [accumulateDataToTimings], each for one of the samples of the table,
    with the weight of that sample as the duration. *)
Inductive Accumulated (thread unfilteredThread : Thread) (sampleIndexOffset : nat)
    (categories : list Category) (samples unfilteredSamples : SamplesTable)
  : Timing -> Timing -> Prop :=
  | Accumulated_refl (t : Timing) :
      Accumulated thread unfilteredThread sampleIndexOffset categories
        samples unfilteredSamples t t
  | Accumulated_step (t t' t'' : Timing) (sampleIndex stackIndex : nat) :
      Accumulated thread unfilteredThread sampleIndexOffset categories
        samples unfilteredSamples t t' ->
      (sampleIndex < s_length samples)%nat ->
      accumulateDataToTimings thread unfilteredThread sampleIndexOffset categories
        unfilteredSamples t' sampleIndex stackIndex
        (sampleWeight samples sampleIndex) = Some t'' ->
      Accumulated thread unfilteredThread sampleIndexOffset categories
        samples unfilteredSamples t t''.

(** [t'] is [t] up to its value: the breakdowns are the same. *)
Definition sameBreakdowns (t t' : Timing) : Prop :=
  breakdownByImplementation t' = breakdownByImplementation t /\
  breakdownByCategory t' = breakdownByCategory t.

(** What the walk over one sample's stack, and the processing of one
    sample, do to the four timings: the total times and the function's self
    time change by calls of [accumulateDataToTimings] only; the path's self
    time changes by such calls when the tree is not inverted, and in its value
    only when it is. *)
Definition TimingsEffect (isInvertedTree : bool)
    (thread unfilteredThread : Thread) (sampleIndexOffset : nat)
    (categories : list Category) (samples unfilteredSamples : SamplesTable)
    (st st' : TimingsState) : Prop :=
  let acc := Accumulated thread unfilteredThread sampleIndexOffset categories
               samples unfilteredSamples in
  acc (totalTime (pathTimings st)) (totalTime (pathTimings st')) /\
  acc (totalTime (funcTimings st)) (totalTime (funcTimings st')) /\
  acc (selfTime (funcTimings st)) (selfTime (funcTimings st')) /\
  if isInvertedTree
  then sameBreakdowns (selfTime (pathTimings st)) (selfTime (pathTimings st'))
  else acc (selfTime (pathTimings st)) (selfTime (pathTimings st')).

(** The tables that [getTimingsForCallNodeIndex] is given fit together, so
    that no read of the function is outside an array: the columns of the
    samples have one entry per sample; the samples at [sampleIndexOffset] in
    the unfiltered samples exist; [stackIndexToCallNodeIndex] maps every
    stack of the thread to a call node of the table; the frames, functions
    and implementation strings of the unfiltered stacks exist; the category
    and subcategory of the unfiltered stack of every sample are rows of the
    category list.  The weights are whole numbers whose absolute values sum
    to at most [2 ^ 53], so that the sums of the code, which are on doubles,
    are exact. *)
Record TimingsInput_wf (callNodeInfo : CallNodeInfo)
    (thread unfilteredThread : Thread) (sampleIndexOffset : nat)
    (categories : list Category) (samples unfilteredSamples : SamplesTable)
  : Prop := {
  ti_stackTable : StackTable_wf (stackTable thread);
  ti_unfilteredStackTable : StackTable_wf (stackTable unfilteredThread);
  ti_samples : Samples_wf (stackTable thread) samples;
  ti_unfilteredSamples : Samples_wf (stackTable unfilteredThread) unfilteredSamples;
  ti_stack : length (s_stack samples) = s_length samples;
  ti_weight : forall weights, s_weight samples = Some weights ->
    length weights = s_length samples;
  ti_weights_exact : rootTimeOf samples (s_length samples) <= 2 ^ 53;
  ti_offset :
    (s_length samples + sampleIndexOffset <= length (s_stack unfilteredSamples))%nat;
  ti_callNodes :
    length (stackIndexToCallNodeIndex callNodeInfo) = st_length (stackTable thread);
  ti_callNode : forall s, (s < st_length (stackTable thread))%nat ->
    0 <= stackIndexToCallNodeIndex callNodeInfo !!! s
      < Z.of_nat (length (cn_func (callNodeTable callNodeInfo)));
  ti_frames :
    FrameRefs_wf (stackTable unfilteredThread) (frameTable unfilteredThread)
      (funcTable unfilteredThread);
  ti_isJS :
    length (fn_isJS (funcTable unfilteredThread)) =
      fn_length (funcTable unfilteredThread);
  ti_implementation :
    length (ft_implementation (frameTable unfilteredThread)) =
      length (ft_func (frameTable unfilteredThread));
  ti_strings : forall frame index,
    ft_implementation (frameTable unfilteredThread) !! frame = Some (Some index) ->
    (index < length (stringTable thread))%nat;
  ti_categories : forall i u, (i < s_length samples)%nat ->
    s_stack unfilteredSamples !! (i + sampleIndexOffset)%nat = Some (Some u) ->
    exists category,
      0 <= st_category (stackTable unfilteredThread) !!! u /\
      categories !! Z.to_nat (st_category (stackTable unfilteredThread) !!! u)
        = Some category /\
      0 <= st_subcategory (stackTable unfilteredThread) !!! u
        < Z.of_nat (length (cat_subcategories category));
}.

(** The value of category [c] in a category breakdown, and the value of its
    subcategory [s]. *)
Definition categoryValueAt (l : list CategoryBreakdown) (c : nat) : option Z :=
  entireCategoryValue <$> l !! c.

Definition subcategoryValueAt (l : list CategoryBreakdown) (c s : nat) : option Z :=
  row ← l !! c; subcategoryBreakdown row !! s.

(** A category breakdown has one row per category, and the row has one cell
    per subcategory of the category. *)
Definition BreakdownShaped (categories : list Category)
    (l : list CategoryBreakdown) : Prop :=
  Forall2 (fun category row =>
             length (subcategoryBreakdown row) = length (cat_subcategories category))
    categories l.

(** The category breakdown of a timing is [null] or has that shape. *)
Definition TimingShaped (categories : list Category) (t : Timing) : Prop :=
  forall l, breakdownByCategory t = Some l -> BreakdownShaped categories l.

(** [after] is the implementation breakdown [before] with [duration] added
    to the entry of [implementation]; a breakdown that is [null] has no
    entries and an entry that is missing counts as 0. *)
Definition ImplementationAdded (implementation : string) (duration : Z)
    (before after : option (gmap string Z)) : Prop :=
  exists m, after = Some m /\
    m !! implementation =
      Some (default 0 (default ∅ before !! implementation) + duration) /\
    forall other, other ≠ implementation -> m !! other = default ∅ before !! other.

(** [after] is the category breakdown [before], or the breakdown of zeros
    when [before] is [null], with [duration] added to the value of the
    category and to the value of the subcategory, and nothing else
    changed. *)
Definition CategoryAdded (categories : list Category)
    (categoryIndex subcategoryIndex : nat) (duration : Z)
    (before after : option (list CategoryBreakdown)) : Prop :=
  let b := default (emptyCategoryBreakdown categories) before in
  exists l, after = Some l /\
    BreakdownShaped categories l /\
    (exists v w,
       categoryValueAt b categoryIndex = Some v /\
       categoryValueAt l categoryIndex = Some (v + duration) /\
       subcategoryValueAt b categoryIndex subcategoryIndex = Some w /\
       subcategoryValueAt l categoryIndex subcategoryIndex = Some (w + duration)) /\
    (forall c, c ≠ categoryIndex -> l !! c = b !! c) /\
    (forall s, s ≠ subcategoryIndex ->
       subcategoryValueAt l categoryIndex s = subcategoryValueAt b categoryIndex s).

(** The breakdowns of a timing account for its value: the value is the sum
    of the implementation breakdown, the category breakdown has the shape
    that the category list gives, and the value of each category is the sum
    of the values of its subcategories. *)
Definition BreakdownsAccounted (categories : list Category) (t : Timing) : Prop :=
  implementationAccounted t /\
  TimingShaped categories t /\
  forall l row, breakdownByCategory t = Some l -> row ∈ l ->
    entireCategoryValue row = sumZ (subcategoryBreakdown row).

(** What one call of [accumulateDataToTimings] for sample [sampleIndex] with
    [duration] does to a timing. *)
Definition AccumulatesData (thread unfilteredThread : Thread)
    (sampleIndexOffset : nat) (categories : list Category)
    (unfilteredSamples : SamplesTable) (sampleIndex : nat) (duration : Z)
    (timings timings' : Timing) : Prop :=
  value timings' = value timings + duration /\
  (exists implementation,
     getImplementationForStack thread unfilteredThread sampleIndexOffset
       categories unfilteredSamples sampleIndex = Some implementation /\
     ImplementationAdded implementation duration
       (breakdownByImplementation timings) (breakdownByImplementation timings')) /\
  match s_stack unfilteredSamples !!! (sampleIndex + sampleIndexOffset)%nat with
  | Some unfilteredStackIndex =>
      CategoryAdded categories
        (Z.to_nat (st_category (stackTable unfilteredThread) !!! unfilteredStackIndex))
        (Z.to_nat (st_subcategory (stackTable unfilteredThread) !!! unfilteredStackIndex))
        duration (breakdownByCategory timings) (breakdownByCategory timings')
  | None => breakdownByCategory timings' = breakdownByCategory timings
  end.

(** ** Sample tables *)

(** An allocation at address 0x10 and its deallocation. *)
Definition pairedAllocations : BalancedNativeAllocationsTable :=
  {| bna_time := [0; 1]; bna_weight := [100; -100]; bna_weightType := "bytes";
     bna_stack := [Some 7%nat; Some 9%nat]; bna_memoryAddress := [16; 16];
     bna_threadId := [1; 1]; bna_length := 2 |}.

(** The same with an allocation of weight 0. *)
Definition zeroWeightAllocation : BalancedNativeAllocationsTable :=
  {| bna_time := [0; 1]; bna_weight := [0; -100]; bna_weightType := "bytes";
     bna_stack := [Some 7%nat; Some 9%nat]; bna_memoryAddress := [16; 16];
     bna_threadId := [1; 1]; bna_length := 2 |}.

(** An allocation of 100 bytes at address 0x10, an event of weight 0 at the
    same address, and a deallocation at that address. *)
Definition shadowedAllocation : BalancedNativeAllocationsTable :=
  {| bna_time := [0; 1; 2]; bna_weight := [100; 0; -100]; bna_weightType := "bytes";
     bna_stack := [Some 7%nat; Some 8%nat; Some 9%nat];
     bna_memoryAddress := [16; 16; 16];
     bna_threadId := [1; 1; 1]; bna_length := 3 |}.

(** Five stacks over two functions: stacks 0 and 3 are roots in function 0,
    stack 1 is a root in function 1, stacks 2 and 4 call function 1 from
    stacks 0 and 3. *)
Definition sampleStackTable : StackTable :=
  {| st_frame := [0; 1; 1; 2; 1]%nat;
     st_category := [1; 1; 2; 3; 2];
     st_subcategory := [1; 1; 1; 1; 4];
     st_prefix := [None; None; Some 0; None; Some 3]%nat;
     st_length := 5 |}.

Definition sampleFrameTable : FrameTable :=
  {| ft_func := [0; 1; 0];
     ft_innerWindowID := [None; Some 5; None];
     ft_implementation := [None; None; None];
     ft_length := 3 |}.

Definition sampleFuncTable : FuncTable :=
  {| fn_isJS := [false; false]; fn_relevantForJS := [false; false]; fn_length := 2 |}.

(** The table that [getCallNodeInfo] builds from [sampleStackTable]. *)
Definition sampleCallNodeTable : CallNodeTable :=
  {| cn_prefix := [-1; -1; 0];
     cn_func := [0; 1; 1];
     cn_category := [0; 1; 2];
     cn_subcategory := [0; 1; 0];
     cn_innerWindowID := [0; 5; 5];
     cn_depth := [0; 0; 1];
     cn_length := 3 |}.

Definition sampleCallNodeInfo : CallNodeInfo :=
  getCallNodeInfo sampleStackTable sampleFrameTable sampleFuncTable 0.

Definition sampleHashPath (path : CallNodePath) : string :=
  String.concat "-" (pretty <$> path).

(** Four samples at times 0, 5, 10 and 15. *)
Definition sampleSamples : SamplesTable :=
  {| s_time := [0; 5; 10; 15];
     s_stack := [Some 0; Some 1; Some 0; None]%nat;
     s_weight := None;
     s_weightType := "samples";
     s_eventDelay := None;
     s_responsiveness := None;
     s_threadCPUDelta := None;
     s_length := 4 |}.

Definition sampleThread : Thread :=
  {| samples := sampleSamples;
     jsAllocations := None;
     nativeAllocations := None;
     stackTable := sampleStackTable;
     frameTable := sampleFrameTable;
     funcTable := sampleFuncTable;
     stringTable := [] |}.

(** Three samples of weight 1 whose stacks are the root stacks 0, 1 and 0 of
    [sampleStackTable], which [getCallNodeInfo] resolves to the two distinct
    depth-0 call nodes 0 and 1. *)
Definition abaSamples : SamplesTable :=
  {| s_time := [0; 1; 2];
     s_stack := [Some 0; Some 1; Some 0]%nat;
     s_weight := Some [1; 1; 1];
     s_weightType := "samples";
     s_eventDelay := None;
     s_responsiveness := None;
     s_threadCPUDelta := None;
     s_length := 3 |}.

Definition abaThread : Thread :=
  {| samples := abaSamples;
     jsAllocations := None;
     nativeAllocations := None;
     stackTable := sampleStackTable;
     frameTable := sampleFrameTable;
     funcTable := sampleFuncTable;
     stringTable := [] |}.

Definition sampleCategories : list Category :=
  [ {| cat_name := "Other"; cat_subcategories := ["Other"] |};
    {| cat_name := "Layout"; cat_subcategories := ["Other"; "Reflow"] |};
    {| cat_name := "JavaScript"; cat_subcategories := ["Other"; "JIT"] |};
    {| cat_name := "Graphics"; cat_subcategories := ["Other"; "Paint"] |} ].

(** ** getSampleIndexToCallNodeIndex, getLeafFuncIndex, getTimingsForPath *)

(** [stacks.map(stack => stack === null ? null : stackIndexToCallNodeIndex[stack])]. *)
Definition getSampleIndexToCallNodeIndex (stacks : list (option nat))
    (stackIndexToCallNodeIndex : list Z) : list (option Z) :=
  (fun stack : option nat =>
     match stack with
     | None => None
     | Some stack => Some (stackIndexToCallNodeIndex !!! stack)
     end) <$> stacks.

Definition getLeafFuncIndex (path : CallNodePath) : Completion Z :=
  if decide (length path = 0%nat)
  then Throw "getLeafFuncIndex assumes that the path isn't empty."
  else Return (path !!! (length path - 1)%nat).

(** [getTimingsForPath]: the path is resolved by [getCallNodeIndexFromPath],
    then handed to [getTimingsForCallNodeIndex]. *)
Definition getTimingsForPath (hashPath : CallNodePath -> string)
    (needlePath : CallNodePath) (callNodeInfo : CallNodeInfo)
    (isInvertedTree : bool) (thread unfilteredThread : Thread)
    (sampleIndexOffset : nat) (categories : list Category)
    (samples unfilteredSamples : SamplesTable) : option TimingsForPath :=
  getTimingsForCallNodeIndex callNodeInfo isInvertedTree thread unfilteredThread
    sampleIndexOffset categories samples unfilteredSamples
    (getCallNodeIndexFromPath hashPath needlePath (callNodeTable callNodeInfo)).

(** ** accumulateCounterSamples *)

Record CounterSamplesTable := {
  cs_time : list Z;
  cs_number : list Z;
  cs_count : list Z;
  cs_length : nat;
}.

Record AccumulatedCounterSamples := {
  minCount : Z;
  maxCount : Z;
  countRange : Z;
  accumulatedCounts : list Z;
}.

(** The variables of the loop over the samples of one counter. *)
Record CounterAccumulator := {
  ca_minCount : Z;
  ca_maxCount : Z;
  ca_accumulated : Z;
  ca_accumulatedCounts : list Z;
}.

Definition accumulateCounterStep (samples : CounterSamplesTable)
    (st : CounterAccumulator) (i : nat) : CounterAccumulator :=
  let accumulated := ca_accumulated st + cs_count samples !!! i in
  {| ca_minCount := Z.min accumulated (ca_minCount st);
     ca_maxCount := Z.max accumulated (ca_maxCount st);
     ca_accumulated := accumulated;
     ca_accumulatedCounts := array_set i accumulated (ca_accumulatedCounts st) |}.

Definition accumulateCounterLoop (samples : CounterSamplesTable) (n : nat)
  : CounterAccumulator :=
  foldl (accumulateCounterStep samples)
    {| ca_minCount := 0; ca_maxCount := 0; ca_accumulated := 0;
       ca_accumulatedCounts := [] |}
    (seq 0 n).

Definition accumulateCounterSamples (samplesArray : list CounterSamplesTable)
  : list AccumulatedCounterSamples :=
  (fun samples =>
     let st := accumulateCounterLoop samples (cs_length samples) in
     {| minCount := ca_minCount st;
        maxCount := ca_maxCount st;
        countRange := ca_maxCount st - ca_minCount st;
        accumulatedCounts := ca_accumulatedCounts st |}) <$> samplesArray.

(** The invariant of the loop of [accumulateCounterSamples] after [k]
    samples. *)
Definition CounterInv (samples : CounterSamplesTable) (k : nat)
    (st : CounterAccumulator) : Prop :=
  length (ca_accumulatedCounts st) = k /\
  ca_accumulated st = sumZ (take k (cs_count samples)) /\
  (forall i, (i < k)%nat ->
     ca_accumulatedCounts st !!! i = sumZ (take (S i) (cs_count samples))) /\
  ca_minCount st <= 0 <= ca_maxCount st /\
  (forall i, (i < k)%nat ->
     ca_minCount st <= ca_accumulatedCounts st !!! i <= ca_maxCount st) /\
  (ca_minCount st = 0 \/
   exists i, (i < k)%nat /\ ca_accumulatedCounts st !!! i = ca_minCount st) /\
  (ca_maxCount st = 0 \/
   exists i, (i < k)%nat /\ ca_accumulatedCounts st !!! i = ca_maxCount st).

(** The counts are whole numbers whose running sums stay within [2 ^ 52]:
    the code adds them as doubles, and under this bound every sum and the
    difference of the largest and the smallest sum is exact. *)
Definition CountsExact (samples : CounterSamplesTable) : Prop :=
  forall k, (k <= cs_length samples)%nat ->
    Z.abs (sumZ (take k (cs_count samples))) <= 2 ^ 52.


(** ** computeCallNodeMaxDepth *)

Definition computeCallNodeMaxDepth (thread : Thread) (callNodeInfo : CallNodeInfo) : Z :=
  if decide (s_length (samples thread) = 0%nat ∨
             length (cn_depth (callNodeTable callNodeInfo)) = 0%nat)
  then 0
  else foldl (fun max depth => Z.max max depth) 0
         (cn_depth (callNodeTable callNodeInfo)) + 1.

(** The counts of a counter whose memory goes up by 5, down by 8 and up by 4. *)
Definition sampleCounterSamples : CounterSamplesTable :=
  {| cs_time := [0; 1; 2]; cs_number := [1; 1; 1]; cs_count := [5; -8; 4];
     cs_length := 3 |}.

(** ** convertStackToCallNodePath *)

(** The loop of [convertStackToCallNodePath] over the prefix links of the
    stack; [None] when [fuel] links did not reach [null]. *)
Fixpoint collectStackFuncs (fuel : nat) (stackTable : StackTable)
    (frameTable : FrameTable) (stackIndex : option nat) (path : list Z)
  : option (list Z) :=
  match stackIndex with
  | None => Some path
  | Some stack =>
      match fuel with
      | O => None
      | S fuel' =>
          collectStackFuncs fuel' stackTable frameTable
            (st_prefix stackTable !!! stack)
            (path ++ [ft_func frameTable !!! (st_frame stackTable !!! stack)])
      end
  end.

Definition convertStackToCallNodePath (thread : Thread) (stack : nat)
  : option CallNodePath :=
  reverse <$>
    collectStackFuncs (st_length (stackTable thread)) (stackTable thread)
      (frameTable thread) (Some stack) [].

(** ** The call node of a stack *)

(** The call node of the prefix of stack [j], as the loop of
    [getCallNodeInfo] reads it: [-1] for a stack without prefix. *)
Definition prefixCallNodeOf (stackTable : StackTable)
    (stackIndexToCallNodeIndex : list Z) (j : nat) : Z :=
  match st_prefix stackTable !!! j with
  | None => -1
  | Some p => stackIndexToCallNodeIndex !!! p
  end.

(** The function of stack [j]. *)
Definition funcOfStack (stackTable : StackTable) (frameTable : FrameTable)
    (j : nat) : Z :=
  ft_func frameTable !!! (st_frame stackTable !!! j).

(** After [k] stacks: the functions of the call nodes are rows of the
    function table, every key of the map is the key of the call node it maps
    to, and the call node of each stack has the stack's function and, as its
    prefix, the call node of the stack's prefix. *)
Definition StackNodesInv (stackTable : StackTable) (frameTable : FrameTable)
    (funcCount : Z) (k : nat) (s : BuilderState) : Prop :=
  (forall i, (i < b_length s)%nat -> 0 <= b_func s !!! i < funcCount) /\
  (forall key v, b_prefixCallNodeAndFuncToCallNodeMap s !! key = Some v ->
     key = b_prefix s !!! Z.to_nat v * funcCount + b_func s !!! Z.to_nat v) /\
  (forall j, (j < k)%nat ->
     let n := Z.to_nat (b_stackIndexToCallNodeIndex s !!! j) in
     b_func s !!! n = funcOfStack stackTable frameTable j /\
     b_prefix s !!! n = prefixCallNodeOf stackTable (b_stackIndexToCallNodeIndex s) j).

(** ** Specification of the allocation filters *)

(** The columns of an allocation table have one entry per row. *)
Record BalancedTable_wf (t : BalancedNativeAllocationsTable) : Prop := {
  bna_wf_time : length (bna_time t) = bna_length t;
  bna_wf_weight : length (bna_weight t) = bna_length t;
  bna_wf_stack : length (bna_stack t) = bna_length t;
  bna_wf_memoryAddress : length (bna_memoryAddress t) = bna_length t;
  bna_wf_threadId : length (bna_threadId t) = bna_length t;
}.

Record UnbalancedTable_wf (t : UnbalancedNativeAllocationsTable) : Prop := {
  una_wf_time : length (una_time t) = una_length t;
  una_wf_weight : length (una_weight t) = una_length t;
  una_wf_stack : length (una_stack t) = una_length t;
}.

Definition NativeAllocationsTable_wf (t : NativeAllocationsTable) : Prop :=
  match t with
  | Balanced t => BalancedTable_wf t
  | Unbalanced t => UnbalancedTable_wf t
  end.

Definition nativeAllocationsLength (t : NativeAllocationsTable) : nat :=
  match t with
  | Balanced t => bna_length t
  | Unbalanced t => una_length t
  end.

(** The table made of the rows [rows] of [src], in that order, with
    [stackOf] giving the stack of each row. *)
Definition selectBalancedRows (src : BalancedNativeAllocationsTable)
    (stackOf : nat -> option nat) (rows : list nat)
  : BalancedNativeAllocationsTable :=
  {| bna_time := (fun i => bna_time src !!! i) <$> rows;
     bna_weight := (fun i => bna_weight src !!! i) <$> rows;
     bna_weightType := "bytes";
     bna_stack := stackOf <$> rows;
     bna_memoryAddress := (fun i => bna_memoryAddress src !!! i) <$> rows;
     bna_threadId := (fun i => bna_threadId src !!! i) <$> rows;
     bna_length := length rows |}.

Definition selectUnbalancedRows (src : UnbalancedNativeAllocationsTable)
    (rows : list nat) : UnbalancedNativeAllocationsTable :=
  {| una_time := (fun i => una_time src !!! i) <$> rows;
     una_weight := (fun i => una_weight src !!! i) <$> rows;
     una_weightType := "bytes";
     una_stack := (fun i => una_stack src !!! i) <$> rows;
     una_length := length rows |}.

(** The rows [rows] of a table of either shape, with their own stacks. *)
Definition selectRows (src : NativeAllocationsTable) (rows : list nat)
  : NativeAllocationsTable :=
  match src with
  | Balanced t => Balanced (selectBalancedRows t (fun i => bna_stack t !!! i) rows)
  | Unbalanced t => Unbalanced (selectUnbalancedRows t rows)
  end.

(** The last of the first [k] rows whose memory address is [a]. *)
Fixpoint lastRowAt (memoryAddress : list Z) (a : Z) (k : nat) : option nat :=
  match k with
  | O => None
  | S k' =>
      if decide (memoryAddress !!! k' = a) then Some k'
      else lastRowAt memoryAddress a k'
  end.

(** The allocation that is live at address [a] after the first [k] rows:
    the last of these rows at that address, when it is an allocation. *)
Definition liveAllocation (t : BalancedNativeAllocationsTable) (a : Z) (k : nat)
  : option nat :=
  i ← lastRowAt (bna_memoryAddress t) a k;
  if decide (bna_weight t !!! i >= 0) then Some i else None.

(** Row [j] is a deallocation that frees the allocation of row [i]: both are
    at the same address and no row between them is. *)
Definition Frees (t : BalancedNativeAllocationsTable) (i j : nat) : Prop :=
  (i < j < bna_length t)%nat /\
  bna_weight t !!! i >= 0 /\ bna_weight t !!! j < 0 /\
  bna_memoryAddress t !!! i = bna_memoryAddress t !!! j /\
  forall m, (i < m < j)%nat ->
    bna_memoryAddress t !!! m ≠ bna_memoryAddress t !!! i.

(** The invariant of the first loop of [filterToDeallocationsMemory] after
    [k] rows. *)
Definition DeallocInv (t : BalancedNativeAllocationsTable) (k : nat)
    (st : DeallocState) : Prop :=
  (forall a, dm_memoryAddressToAllocation st !! a = liveAllocation t a k) /\
  length (dm_stackOfOriginalAllocation st) = k /\
  forall j, (j < k)%nat ->
    dm_stackOfOriginalAllocation st !!! j =
      if decide (bna_weight t !!! j >= 0) then None
      else liveAllocation t (bna_memoryAddress t !!! j) j.

(** The invariant of the first loop of [filterToRetainedAllocations] after
    [k] rows. *)
Definition RetainedInv (t : BalancedNativeAllocationsTable) (k : nat)
    (st : RetainedState) : Prop :=
  (forall a, rt_memoryAddressToAllocation st !! a = liveAllocation t a k) /\
  length (rt_retainedAllocation st) = k /\
  forall i, (i < k)%nat ->
    rt_retainedAllocation st !!! i = true <->
    bna_weight t !!! i >= 0 /\
    forall j, (i < j < k)%nat -> bna_weight t !!! j < 0 ->
      liveAllocation t (bna_memoryAddress t !!! j) j ≠ Some i.

(** Two allocations at address 0x10, the second of which is freed, and a
    deallocation at an address that was never allocated. *)
Definition leakyAllocations : BalancedNativeAllocationsTable :=
  {| bna_time := [0; 1; 2; 3];
     bna_weight := [100; 50; -50; -7];
     bna_weightType := "bytes";
     bna_stack := [Some 7%nat; Some 8%nat; Some 9%nat; None];
     bna_memoryAddress := [16; 16; 16; 32];
     bna_threadId := [1; 1; 1; 1];
     bna_length := 4 |}.

(** ** Specification of the path resolver *)

(** The descent of step 2 of [_getCallNodeIndexFromPathWithCache] without
    its cache: from [index], the child with each function of [funcs] in
    turn. *)
Fixpoint walkDown (t : CallNodeTable) (funcs : list Z) (index : Z) : option Z :=
  match funcs with
  | [] => Some index
  | func :: funcs' =>
      next ← _getCallNodeIndexFromParentAndFunc index func t;
      walkDown t funcs' next
  end.

(** Every entry of the cache is the call node that the descent along the
    entry's path reaches. *)
Definition CacheOk (hashPath : CallNodePath -> string) (t : CallNodeTable)
    (cache : gmap string Z) : Prop :=
  forall path n, cache !! hashPath path = Some n ->
    path ≠ [] /\ 0 <= n /\ walkDown t path (-1) = Some n.

(** A hash of paths that tells any two paths apart. *)
Definition injectiveHashPath (path : CallNodePath) : string :=
  pretty (encode path).

(** ** getSamplesSelectedStates *)

Inductive SelectedState :=
  | FILTERED_OUT_BY_ACTIVE_TAB
  | FILTERED_OUT_BY_TRANSFORM
  | SELECTED
  | UNSELECTED_ORDERED_BEFORE_SELECTED
  | UNSELECTED_ORDERED_AFTER_SELECTED.

(** [array[index]] on an array of call nodes that may have holes: [None] is
    [undefined], the value of a hole and of an index outside the array. *)
Definition arrayGet (array : list (option Z)) (index : Z) : option Z :=
  if decide (0 <= index) then mjoin (array !! Z.to_nat index) else None.

Definition selectedCallNodeDepthOf (callNodeTable : CallNodeTable)
    (selectedCallNodeIndex : option Z) : Z :=
  match selectedCallNodeIndex with
  | None => 0
  | Some selected =>
      if decide (selected = -1) then 0
      else cn_depth callNodeTable !!! Z.to_nat selected
  end.

(** The loop that fills [selectedCallNodeAtDepth], entered with
    [depth = n - 1]: it writes the entries [n - 1] down to 0.  The prefix
    column never holds [null], so the loop ends when [depth] is negative. *)
Fixpoint fillSelectedCallNodeAtDepth (callNodeTable : CallNodeTable) (n : nat)
    (callNodeIndex : Z) (selectedCallNodeAtDepth : list (option Z))
  : list (option Z) :=
  match n with
  | O => selectedCallNodeAtDepth
  | S depth =>
      fillSelectedCallNodeAtDepth callNodeTable depth
        (cn_prefix callNodeTable !!! Z.to_nat callNodeIndex)
        (array_set depth (Some callNodeIndex) selectedCallNodeAtDepth)
  end.

(** [selectedCallNodeAtDepth]: [new Array(selectedCallNodeDepth)], then the
    loop, which does not run when no call node is selected. *)
Definition computeSelectedCallNodeAtDepth (callNodeTable : CallNodeTable)
    (selectedCallNodeIndex : option Z) : list (option Z) :=
  let selectedCallNodeDepth :=
    selectedCallNodeDepthOf callNodeTable selectedCallNodeIndex in
  let array := replicate (Z.to_nat selectedCallNodeDepth) None in
  match selectedCallNodeIndex with
  | None => array
  | Some selected =>
      fillSelectedCallNodeAtDepth callNodeTable
        (Z.to_nat (selectedCallNodeDepth + 1)) selected array
  end.

(** The loop [while (true)] of [getSelectedStateFromCallNode]; [None] when
    it has not returned within [fuel] steps. *)
Fixpoint findCommonAncestorOrder (fuel : nat) (callNodeTable : CallNodeTable)
    (selectedCallNodeAtDepth : list (option Z)) (callNodeIndex depth : Z)
  : option SelectedState :=
  match fuel with
  | O => None
  | S fuel' =>
      let prevCallNodeIndex := callNodeIndex in
      let callNodeIndex := cn_prefix callNodeTable !!! Z.to_nat callNodeIndex in
      let depth := depth - 1 in
      if decide (callNodeIndex = -1 \/
                 arrayGet selectedCallNodeAtDepth depth = Some callNodeIndex)
      then
        Some match arrayGet selectedCallNodeAtDepth (depth + 1) with
             | Some selectedAtDepth =>
                 if decide (prevCallNodeIndex <= selectedAtDepth)
                 then UNSELECTED_ORDERED_BEFORE_SELECTED
                 else UNSELECTED_ORDERED_AFTER_SELECTED
             | None => UNSELECTED_ORDERED_AFTER_SELECTED
             end
      else
        findCommonAncestorOrder fuel' callNodeTable selectedCallNodeAtDepth
          callNodeIndex depth
  end.

Definition getSelectedStateFromCallNode (callNodeTable : CallNodeTable)
    (selectedCallNodeIndex : option Z) (selectedCallNodeDepth : Z)
    (selectedCallNodeAtDepth : list (option Z))
    (callNode activeTabFilteredCallNode : option Z) : option SelectedState :=
  match callNode with
  | None =>
      Some match activeTabFilteredCallNode with
           | None => FILTERED_OUT_BY_ACTIVE_TAB
           | Some _ => FILTERED_OUT_BY_TRANSFORM
           end
  | Some callNodeIndex =>
      match selectedCallNodeIndex with
      | None => Some SELECTED
      | Some selected =>
          let depth := cn_depth callNodeTable !!! Z.to_nat callNodeIndex in
          let callNodeIndex' :=
            walkTowardsRoot callNodeTable
              (Z.to_nat (depth - selectedCallNodeDepth)) callNodeIndex in
          let depth' :=
            if decide (depth > selectedCallNodeDepth)
            then selectedCallNodeDepth else depth in
          if decide (callNodeIndex' = selected) then Some SELECTED
          else
            findCommonAncestorOrder (cn_length callNodeTable) callNodeTable
              selectedCallNodeAtDepth callNodeIndex' depth'
      end
  end.

(** [getSamplesSelectedStates]; [None] when the walk of some sample does not
    end. *)
Definition getSamplesSelectedStates (callNodeTable : CallNodeTable)
    (sampleCallNodes activeTabFilteredCallNodes : list (option Z))
    (selectedCallNodeIndex : option Z) : option (list SelectedState) :=
  let selectedCallNodeDepth :=
    selectedCallNodeDepthOf callNodeTable selectedCallNodeIndex in
  let selectedCallNodeAtDepth :=
    computeSelectedCallNodeAtDepth callNodeTable selectedCallNodeIndex in
  mapM (fun sampleIndex =>
          getSelectedStateFromCallNode callNodeTable selectedCallNodeIndex
            selectedCallNodeDepth selectedCallNodeAtDepth
            (sampleCallNodes !!! sampleIndex)
            (activeTabFilteredCallNodes !!! sampleIndex))
    (seq 0 (length sampleCallNodes)).

(** [selected] is [callNode] or one of its ancestors. *)
Definition IsSelfOrAncestor (t : CallNodeTable) (selected callNode : Z) : Prop :=
  exists k : nat,
    Z.of_nat k <= cn_depth t !!! Z.to_nat callNode /\
    walkTowardsRoot t k callNode = selected.

(** ** updateThreadStacks *)

(** [{ ...samples, stack }] and its like for the allocation tables. *)
Definition withSamplesStack (samples : SamplesTable) (stack : list (option nat))
  : SamplesTable :=
  {| s_time := s_time samples; s_stack := stack; s_weight := s_weight samples;
     s_weightType := s_weightType samples; s_eventDelay := s_eventDelay samples;
     s_responsiveness := s_responsiveness samples;
     s_threadCPUDelta := s_threadCPUDelta samples; s_length := s_length samples |}.

Definition withJsAllocationsStack (jsAllocations : JsAllocationsTable)
    (stack : list (option nat)) : JsAllocationsTable :=
  {| js_time := js_time jsAllocations; js_className := js_className jsAllocations;
     js_typeName := js_typeName jsAllocations;
     js_coarseType := js_coarseType jsAllocations;
     js_weight := js_weight jsAllocations;
     js_weightType := js_weightType jsAllocations;
     js_inNursery := js_inNursery jsAllocations; js_stack := stack;
     js_length := js_length jsAllocations |}.

Definition nativeAllocationsStack (t : NativeAllocationsTable) : list (option nat) :=
  match t with
  | Balanced t => bna_stack t
  | Unbalanced t => una_stack t
  end.

Definition withNativeAllocationsStack (t : NativeAllocationsTable)
    (stack : list (option nat)) : NativeAllocationsTable :=
  match t with
  | Balanced t =>
      Balanced {| bna_time := bna_time t; bna_weight := bna_weight t;
                  bna_weightType := bna_weightType t; bna_stack := stack;
                  bna_memoryAddress := bna_memoryAddress t;
                  bna_threadId := bna_threadId t; bna_length := bna_length t |}
  | Unbalanced t =>
      Unbalanced {| una_time := una_time t; una_weight := una_weight t;
                    una_weightType := una_weightType t; una_stack := stack;
                    una_length := una_length t |}
  end.

Section UpdateThreadStacks.

(** [convertStack] is a closure: it reads and writes variables of the
    function that made it, here a state of type [State], and it may fail to
    return. *)
Context {State : Type}.
Variable convertStack : option nat -> State -> option (option nat * State).

(** [stacks.map(oldStack => convertStack(oldStack))]. *)
Fixpoint convertStacks (stacks : list (option nat)) (st : State)
  : option (list (option nat) * State) :=
  match stacks with
  | [] => Some ([], st)
  | oldStack :: stacks' =>
      '(newStack, st) ← convertStack oldStack st;
      '(newStacks, st) ← convertStacks stacks' st;
      Some (newStack :: newStacks, st)
  end.

(** [newStackTable] is an object that [convertStack] may still be filling
    while the stacks are converted.  The new thread holds that object, so
    its stack table is what the object holds when the last stack has been
    converted. *)
Definition updateThreadStacks (thread : Thread)
    (newStackTable : State -> StackTable) (st : State)
  : option (Thread * State) :=
  '(sampleStacks, st) ← convertStacks (s_stack (samples thread)) st;
  '(newJsAllocations, st) ←
    match jsAllocations thread with
    | None => Some (None, st)
    | Some jsAllocations =>
        '(stacks, st) ← convertStacks (js_stack jsAllocations) st;
        Some (Some (withJsAllocationsStack jsAllocations stacks), st)
    end;
  '(newNativeAllocations, st) ←
    match nativeAllocations thread with
    | None => Some (None, st)
    | Some nativeAllocations =>
        '(stacks, st) ← convertStacks (nativeAllocationsStack nativeAllocations) st;
        Some (Some (withNativeAllocationsStack nativeAllocations stacks), st)
    end;
  Some ({| samples := withSamplesStack (samples thread) sampleStacks;
           jsAllocations := newJsAllocations;
           nativeAllocations := newNativeAllocations;
           stackTable := newStackTable st;
           frameTable := frameTable thread;
           funcTable := funcTable thread;
           stringTable := stringTable thread |}, st).

End UpdateThreadStacks.

(** ** filterThreadByTab *)

(** The two maps that memoise [frameMatchesFilter] and
    [stackMatchesFilter]. *)
Record TabFilterCaches := {
  frameMatchesFilterCache : gmap nat bool;
  stackMatchesFilterCache : gmap nat bool;
}.

Definition frameMatches (frameTable : FrameTable) (relevantPages : gset Z)
    (frame : nat) : bool :=
  match ft_innerWindowID frameTable !!! frame with
  | Some innerWindowID =>
      if decide (innerWindowID > 0)
      then bool_decide (innerWindowID ∈ relevantPages)
      else false
  | None => false
  end.

Definition frameMatchesFilter (frameTable : FrameTable) (relevantPages : gset Z)
    (frame : nat) (caches : TabFilterCaches) : bool * TabFilterCaches :=
  match frameMatchesFilterCache caches !! frame with
  | Some cache => (cache, caches)
  | None =>
      let matches := frameMatches frameTable relevantPages frame in
      (matches,
       {| frameMatchesFilterCache :=
            <[frame := matches]> (frameMatchesFilterCache caches);
          stackMatchesFilterCache := stackMatchesFilterCache caches |})
  end.

Definition setStackMatches (stackIndex : nat) (matches : bool)
    (caches : TabFilterCaches) : TabFilterCaches :=
  {| frameMatchesFilterCache := frameMatchesFilterCache caches;
     stackMatchesFilterCache :=
       <[stackIndex := matches]> (stackMatchesFilterCache caches) |}.

(** [stackMatchesFilter] calls itself on the prefix of the stack; [None]
    when the calls are nested more than [fuel] deep. *)
Fixpoint stackMatchesFilter (fuel : nat) (stackTable : StackTable)
    (frameTable : FrameTable) (relevantPages : gset Z)
    (stackIndex : option nat) (caches : TabFilterCaches)
  : option (bool * TabFilterCaches) :=
  match stackIndex with
  | None => Some (false, caches)
  | Some stackIndex =>
      match stackMatchesFilterCache caches !! stackIndex with
      | Some cache => Some (cache, caches)
      | None =>
          match fuel with
          | O => None
          | S fuel' =>
              let prefix := st_prefix stackTable !!! stackIndex in
              '(prefixMatches, caches) ←
                stackMatchesFilter fuel' stackTable frameTable relevantPages
                  prefix caches;
              if (prefixMatches : bool)
              then Some (true, setStackMatches stackIndex true caches)
              else
                let frame := st_frame stackTable !!! stackIndex in
                let '(matches, caches) :=
                  frameMatchesFilter frameTable relevantPages frame caches in
                Some (matches, setStackMatches stackIndex matches caches)
          end
      end
  end.

Definition filterThreadByTab (thread : Thread) (relevantPages : gset Z)
  : option Thread :=
  if decide (size relevantPages = 0%nat) then Some thread
  else
    fst <$>
      updateThreadStacks
        (fun stackIndex caches =>
           '(matches, caches) ←
             stackMatchesFilter (st_length (stackTable thread))
               (stackTable thread) (frameTable thread) relevantPages
               stackIndex caches;
           Some (if (matches : bool) then stackIndex else None, caches))
        thread (fun _ => stackTable thread)
        {| frameMatchesFilterCache := ∅; stackMatchesFilterCache := ∅ |}.

(** The stacks of a table are rows of the stack table. *)
Definition Stacks_wf (stackTable : StackTable) (stacks : list (option nat)) : Prop :=
  forall i s, stacks !! i = Some (Some s) -> (s < st_length stackTable)%nat.

(** The stacks of the samples and of the allocations of a thread are rows of
    its stack table. *)
Definition ThreadStacks_wf (thread : Thread) : Prop :=
  Stacks_wf (stackTable thread) (s_stack (samples thread)) /\
  (forall t, jsAllocations thread = Some t ->
     Stacks_wf (stackTable thread) (js_stack t)) /\
  (forall t, nativeAllocations thread = Some t ->
     Stacks_wf (stackTable thread) (nativeAllocationsStack t)).

(** The frame of the stack, or of one of the stacks above it, belongs to
    one of the relevant pages. *)
Inductive HasRelevantFrame (stackTable : StackTable) (frameTable : FrameTable)
    (relevantPages : gset Z) : nat -> Prop :=
  | HasRelevantFrame_here (stack : nat) :
      frameMatches frameTable relevantPages (st_frame stackTable !!! stack) = true ->
      HasRelevantFrame stackTable frameTable relevantPages stack
  | HasRelevantFrame_above (stack prefix : nat) :
      st_prefix stackTable !!! stack = Some prefix ->
      HasRelevantFrame stackTable frameTable relevantPages prefix ->
      HasRelevantFrame stackTable frameTable relevantPages stack.

(** What the filter makes of a stack: it keeps a stack with a relevant
    frame and replaces any other by [null]. *)
Definition KeepsRelevant (stackTable : StackTable) (frameTable : FrameTable)
    (relevantPages : gset Z) (oldStack newStack : option nat) : Prop :=
  match oldStack with
  | None => newStack = None
  | Some stack =>
      (HasRelevantFrame stackTable frameTable relevantPages stack /\
       newStack = Some stack) \/
      (~ HasRelevantFrame stackTable frameTable relevantPages stack /\
       newStack = None)
  end.

(** The entries of the two caches are what the functions compute. *)
Definition TabFilterCachesOk (stackTable : StackTable) (frameTable : FrameTable)
    (relevantPages : gset Z) (caches : TabFilterCaches) : Prop :=
  (forall frame b, frameMatchesFilterCache caches !! frame = Some b ->
     b = frameMatches frameTable relevantPages frame) /\
  (forall stack b, stackMatchesFilterCache caches !! stack = Some b ->
     (b = true <-> HasRelevantFrame stackTable frameTable relevantPages stack)).

(** A thread whose sample at stack 4 runs in a frame of page 5, below a
    frame without page. *)
Definition tabThread : Thread :=
  {| samples :=
       {| s_time := [0; 5; 10]; s_stack := [Some 0; Some 4; None]%nat;
          s_weight := None; s_weightType := "samples"; s_eventDelay := None;
          s_responsiveness := None; s_threadCPUDelta := None; s_length := 3 |};
     jsAllocations := None;
     nativeAllocations := None;
     stackTable := sampleStackTable;
     frameTable := sampleFrameTable;
     funcTable := sampleFuncTable;
     stringTable := [] |}.

(** ** invertCallstack *)

(** The variables that [stackFor] and [convertStack] share: the stack table
    under construction and the two maps. *)
Record InvertState := {
  ic_newStackTable : StackTable;
  ic_prefixAndFrameToStack : gmap Z nat;
  ic_oldStackToNewStack : gmap nat (option nat);
}.

Definition withNewStackTable (newStackTable : StackTable) (st : InvertState)
  : InvertState :=
  {| ic_newStackTable := newStackTable;
     ic_prefixAndFrameToStack := ic_prefixAndFrameToStack st;
     ic_oldStackToNewStack := ic_oldStackToNewStack st |}.

(** [(prefix === null ? -1 : prefix) * frameCount + frame]. *)
Definition prefixAndFrameKey (frameCount : Z) (prefix : option nat) (frame : nat) : Z :=
  match prefix with
  | None => -1
  | Some p => Z.of_nat p
  end * frameCount + Z.of_nat frame.

Definition stackFor (frameCount defaultCategory : Z) (prefix : option nat)
    (frame : nat) (category subcategory : Z) (st : InvertState)
  : nat * InvertState :=
  let prefixAndFrameIndex := prefixAndFrameKey frameCount prefix frame in
  let newStackTable := ic_newStackTable st in
  match ic_prefixAndFrameToStack st !! prefixAndFrameIndex with
  | None =>
      let stackIndex := st_length newStackTable in
      (stackIndex,
       {| ic_newStackTable :=
            {| st_frame := array_set stackIndex frame (st_frame newStackTable);
               st_category :=
                 array_set stackIndex category (st_category newStackTable);
               st_subcategory :=
                 array_set stackIndex subcategory (st_subcategory newStackTable);
               st_prefix := array_set stackIndex prefix (st_prefix newStackTable);
               st_length := S (st_length newStackTable) |};
          ic_prefixAndFrameToStack :=
            <[prefixAndFrameIndex := stackIndex]> (ic_prefixAndFrameToStack st);
          ic_oldStackToNewStack := ic_oldStackToNewStack st |})
  | Some stackIndex =>
      if decide (st_category newStackTable !!! stackIndex ≠ category) then
        (stackIndex,
         withNewStackTable
           {| st_frame := st_frame newStackTable;
              st_category :=
                array_set stackIndex defaultCategory (st_category newStackTable);
              st_subcategory :=
                array_set stackIndex 0 (st_subcategory newStackTable);
              st_prefix := st_prefix newStackTable;
              st_length := st_length newStackTable |} st)
      else if decide (st_subcategory newStackTable !!! stackIndex ≠ subcategory) then
        (stackIndex,
         withNewStackTable
           {| st_frame := st_frame newStackTable;
              st_category := st_category newStackTable;
              st_subcategory :=
                array_set stackIndex 0 (st_subcategory newStackTable);
              st_prefix := st_prefix newStackTable;
              st_length := st_length newStackTable |} st)
      else (stackIndex, st)
  end.

(** The loop of [convertStack] over the stack and the stacks above it;
    [None] when [fuel] links did not reach [null]. *)
Fixpoint convertStackLoop (fuel : nat) (stackTable : StackTable)
    (frameCount defaultCategory : Z) (currentStack newStack : option nat)
    (st : InvertState) : option (option nat * InvertState) :=
  match currentStack with
  | None => Some (newStack, st)
  | Some current =>
      match fuel with
      | O => None
      | S fuel' =>
          let '(newStack, st) :=
            stackFor frameCount defaultCategory newStack
              (st_frame stackTable !!! current)
              (st_category stackTable !!! current)
              (st_subcategory stackTable !!! current) st in
          convertStackLoop fuel' stackTable frameCount defaultCategory
            (st_prefix stackTable !!! current) (Some newStack) st
      end
  end.

Definition convertStack (stackTable : StackTable) (frameCount defaultCategory : Z)
    (stackIndex : option nat) (st : InvertState)
  : option (option nat * InvertState) :=
  match stackIndex with
  | None => Some (None, st)
  | Some stackIndex =>
      match ic_oldStackToNewStack st !! stackIndex with
      | Some newStack => Some (newStack, st)
      | None =>
          '(newStack, st) ←
            convertStackLoop (st_length stackTable) stackTable frameCount
              defaultCategory (Some stackIndex) None st;
          Some (newStack,
                {| ic_newStackTable := ic_newStackTable st;
                   ic_prefixAndFrameToStack := ic_prefixAndFrameToStack st;
                   ic_oldStackToNewStack :=
                     <[stackIndex := newStack]> (ic_oldStackToNewStack st) |})
      end
  end.

Definition invertCallstack (thread : Thread) (defaultCategory : Z)
  : option Thread :=
  fst <$>
    updateThreadStacks
      (convertStack (stackTable thread)
         (Z.of_nat (ft_length (frameTable thread))) defaultCategory)
      thread ic_newStackTable
      {| ic_newStackTable :=
           {| st_frame := []; st_category := []; st_subcategory := [];
              st_prefix := []; st_length := 0 |};
         ic_prefixAndFrameToStack := ∅;
         ic_oldStackToNewStack := ∅ |}.

(** *** Specification *)

(** A stack table whose columns have one entry per stack and in which the
    prefix of a stack is an earlier stack. *)
Record StackTable_tree (t : StackTable) : Prop := {
  st_tree_frame : length (st_frame t) = st_length t;
  st_tree_category : length (st_category t) = st_length t;
  st_tree_subcategory : length (st_subcategory t) = st_length t;
  st_tree_prefix : length (st_prefix t) = st_length t;
  st_tree_order : forall i p, st_prefix t !! i = Some (Some p) -> (p < i)%nat;
}.

(** The frames of the stacks of a table are rows of the frame table. *)
Definition StackFrames_wf (t : StackTable) (frameCount : Z) : Prop :=
  forall i, (i < st_length t)%nat -> Z.of_nat (st_frame t !!! i) < frameCount.

(** The frames of a stack and of the stacks above it, from the stack up to
    the root. *)
Inductive FramesToRoot (t : StackTable) : option nat -> list nat -> Prop :=
  | FramesToRoot_root : FramesToRoot t None []
  | FramesToRoot_stack (s : nat) (frames : list nat) :
      (s < st_length t)%nat ->
      FramesToRoot t (st_prefix t !!! s) frames ->
      FramesToRoot t (Some s) (st_frame t !!! s :: frames).

(** The new stack has, from the root down, the frames that the old stack has
    from itself up to its root. *)
Definition Inverted (old new : StackTable) (oldStack newStack : option nat) : Prop :=
  match oldStack with
  | None => newStack = None
  | Some s =>
      exists n frames,
        newStack = Some n /\
        FramesToRoot old (Some s) frames /\
        FramesToRoot new (Some n) (reverse frames)
  end.

(** The new stack has the same frames up to the root as the old one. *)
Definition SameFrames (old new : StackTable) (oldStack newStack : option nat) : Prop :=
  match oldStack with
  | None => newStack = None
  | Some s =>
      exists n frames,
        newStack = Some n /\
        FramesToRoot old (Some s) frames /\
        FramesToRoot new (Some n) frames
  end.

(** The stacks of the samples and of the allocations of two threads are
    related by [R], entry by entry. *)
Definition ThreadStacksRelated (R : option nat -> option nat -> Prop)
    (thread thread' : Thread) : Prop :=
  Forall2 R (s_stack (samples thread)) (s_stack (samples thread')) /\
  option_Forall2 (fun t t' => Forall2 R (js_stack t) (js_stack t'))
    (jsAllocations thread) (jsAllocations thread') /\
  option_Forall2
    (fun t t' => Forall2 R (nativeAllocationsStack t) (nativeAllocationsStack t'))
    (nativeAllocations thread) (nativeAllocations thread').

(** [t'] has the stacks of [t], with their frames and prefixes, and maybe
    more. *)
Definition ExtendsStacks (t t' : StackTable) : Prop :=
  (st_length t <= st_length t')%nat /\
  forall i, (i < st_length t)%nat ->
    st_frame t' !!! i = st_frame t !!! i /\
    st_prefix t' !!! i = st_prefix t !!! i.

(** The invariant of the stack table under construction and of the map of
    its stacks. *)
Definition NewStacksInv (frameCount : Z) (st : InvertState) : Prop :=
  StackTable_tree (ic_newStackTable st) /\
  StackFrames_wf (ic_newStackTable st) frameCount /\
  (forall key v, ic_prefixAndFrameToStack st !! key = Some v ->
     (v < st_length (ic_newStackTable st))%nat /\
     key = prefixAndFrameKey frameCount
             (st_prefix (ic_newStackTable st) !!! v)
             (st_frame (ic_newStackTable st) !!! v)) /\
  (forall i, (i < st_length (ic_newStackTable st))%nat ->
     ic_prefixAndFrameToStack st
       !! prefixAndFrameKey frameCount
            (st_prefix (ic_newStackTable st) !!! i)
            (st_frame (ic_newStackTable st) !!! i) = Some i).

(** The invariant of [invertCallstack]: the above, and every entry of
    [oldStackToNewStack] is an inverted stack. *)
Definition InvertInv (old : StackTable) (frameCount : Z) (st : InvertState) : Prop :=
  NewStacksInv frameCount st /\
  forall s newStack, ic_oldStackToNewStack st !! s = Some newStack ->
    Inverted old (ic_newStackTable st) (Some s) newStack.

(** After the conversion of some stacks, the stacks that were converted are
    stacks of the table, and each of them added at most as many stacks to
    the new table as the old table has. *)
Definition NewStacksBound (old : StackTable) (st : InvertState) : Prop :=
  (forall s, is_Some (ic_oldStackToNewStack st !! s) -> (s < st_length old)%nat) /\
  (st_length (ic_newStackTable st)
     <= size (ic_oldStackToNewStack st) * st_length old)%nat.

(** The keys [prefix * frameCount + frame] of the map of [invertCallstack]
    are doubles in the code.  A prefix is a stack of the new table, which
    has at most as many stacks as the square of the number of stacks of the
    thread, and a frame is below the number of frames; so no key exceeds the
    product below, and a double holds it exactly up to [2 ^ 53]. *)
Definition StackKeys_exact (thread : Thread) : Prop :=
  Z.of_nat (st_length (stackTable thread)) * Z.of_nat (st_length (stackTable thread))
    * Z.of_nat (ft_length (frameTable thread)) <= 2 ^ 53.

(** * Properties *)

(** ** Loops and arrays *)

Lemma foldl_invariant {A B} (P : A -> Prop) (f : A -> B -> A) (l : list B) (a : A) :
  P a -> (forall acc x, x ∈ l -> P acc -> P (f acc x)) -> P (foldl f a l).
Proof.
  revert a. induction l as [|x l IH]; intros a Ha Hstep; simpl; [done|].
  apply IH.
  - apply Hstep; [left | done].
  - intros acc y Hy. apply Hstep. by right.
Qed.

(** A loop [for (k = 0; k < n; k++)] keeps an invariant indexed by the number
    of iterations done. *)
Lemma foldl_seq_invariant {A} (P : nat -> A -> Prop) (f : A -> nat -> A) (n : nat) (a : A) :
  P 0%nat a ->
  (forall k acc, (k < n)%nat -> P k acc -> P (S k) (f acc k)) ->
  P n (foldl f a (seq 0 n)).
Proof.
  intros H0 Hstep. induction n as [|n IH]; [done|].
  rewrite seq_S, foldl_app. simpl. apply Hstep; [lia|].
  apply IH. intros k acc Hk. apply Hstep. lia.
Qed.

Lemma array_set_length_at_end {A} (n : nat) (x : A) (arr : list A) :
  n = length arr -> length (array_set n x arr) = S n.
Proof.
  intros ->. unfold array_set. case_decide; [lia|]. rewrite length_app. simpl. lia.
Qed.

Lemma array_set_length_inside {A} (i : nat) (x : A) (arr : list A) :
  (i < length arr)%nat -> length (array_set i x arr) = length arr.
Proof.
  intros Hi. unfold array_set. case_decide; [|lia]. apply length_insert.
Qed.

Lemma array_set_lookup_at_end `{!Inhabited A} (n : nat) (x : A) (arr : list A) :
  n = length arr -> array_set n x arr !!! n = x.
Proof.
  intros ->. unfold array_set. case_decide; [lia|].
  rewrite lookup_total_app_r by lia. by rewrite Nat.sub_diag.
Qed.

Lemma array_set_lookup_before_end `{!Inhabited A} (n i : nat) (x : A) (arr : list A) :
  n = length arr -> (i < n)%nat -> array_set n x arr !!! i = arr !!! i.
Proof.
  intros -> Hi. unfold array_set. case_decide; [lia|]. by rewrite lookup_total_app_l.
Qed.

Lemma array_set_lookup_eq `{!Inhabited A} (i : nat) (x : A) (arr : list A) :
  (i < length arr)%nat -> array_set i x arr !!! i = x.
Proof.
  intros Hi. unfold array_set. case_decide; [|lia].
  by apply list_lookup_total_insert_eq.
Qed.

Lemma array_set_lookup_ne `{!Inhabited A} (i j : nat) (x : A) (arr : list A) :
  (i < length arr)%nat -> i ≠ j -> array_set i x arr !!! j = arr !!! j.
Proof.
  intros Hi Hne. unfold array_set. case_decide; [|lia].
  by apply list_lookup_total_insert_ne.
Qed.

Lemma filter_ext_elem {A} (P1 P2 : A -> Prop)
    `{!forall x, Decision (P1 x), !forall x, Decision (P2 x)} (l : list A) :
  (forall x, x ∈ l -> P1 x <-> P2 x) -> filter P1 l = filter P2 l.
Proof.
  induction l as [|x l IH]; intros Hext; [done|].
  rewrite !filter_cons.
  rewrite IH by (intros y Hy; apply Hext; by right).
  pose proof (Hext x ltac:(left)) as Hx.
  repeat case_decide; tauto.
Qed.

Lemma toInt32_small (z : Z) : - 2 ^ 31 <= z < 2 ^ 31 -> toInt32 z = z.
Proof. intros Hz. unfold toInt32. rewrite Z.mod_small; lia. Qed.

Lemma toUint32_small (z : Z) : 0 <= z < 2 ^ 32 -> toUint32 z = z.
Proof. intros Hz. unfold toUint32. by rewrite Z.mod_small. Qed.

(** ** Allocation post-processors *)

(** C8, evaluated: for an allocation at address 0x10 with stack 7 (row 0)
    followed by its deallocation with stack 9 (row 1),
    [filterToDeallocationsMemory] yields one record, and the stack of that
    record is 0, the row index of the allocation, not the allocation's
    stack 7.  The stack column of the input is never read: replacing it does
    not change the result. *)
Theorem filterToDeallocationsMemory_pushes_allocation_index :
  filterToDeallocationsMemory pairedAllocations =
    Balanced {| bna_time := [1]; bna_weight := [-100]; bna_weightType := "bytes";
                bna_stack := [Some 0%nat]; bna_memoryAddress := [16];
                bna_threadId := [1]; bna_length := 1 |}
  /\ bna_stack pairedAllocations !!! 0%nat = Some 7%nat
  /\ forall (t : BalancedNativeAllocationsTable) (stack : list (option nat)),
       filterToDeallocationsMemory
         {| bna_time := bna_time t; bna_weight := bna_weight t;
            bna_weightType := bna_weightType t; bna_stack := stack;
            bna_memoryAddress := bna_memoryAddress t;
            bna_threadId := bna_threadId t; bna_length := bna_length t |}
       = filterToDeallocationsMemory t.
Proof.
  split_and!; [vm_compute; reflexivity | vm_compute; reflexivity |].
  intros t stack. destruct t. reflexivity.
Qed.

Lemma filterToAllocations_weights_positive (t : NativeAllocationsTable) (w : Z) :
  w ∈ nativeAllocationsWeight (filterToAllocations t) -> w > 0.
Proof.
  destruct t as [t|t]; simpl; revert w.
  - apply (foldl_invariant (fun acc => forall w, w ∈ una_weight acc -> w > 0)).
    + simpl. intros w Hw. by apply elem_of_nil in Hw.
    + intros acc i _ IH w. simpl. case_decide; [|by apply IH].
      simpl. rewrite elem_of_app, list_elem_of_singleton.
      intros [Hw | ->]; [by apply IH | done].
  - apply (foldl_invariant (fun acc => forall w, w ∈ bna_weight acc -> w > 0)).
    + simpl. intros w Hw. by apply elem_of_nil in Hw.
    + intros acc i _ IH w. simpl. case_decide; [|by apply IH].
      simpl. rewrite elem_of_app, list_elem_of_singleton.
      intros [Hw | ->]; [by apply IH | done].
Qed.

(** ** The call-node builder *)

Section Builder.

Variable stackTable : StackTable.
Variable frameTable : FrameTable.
Variable funcCount : Z.
Variable defaultCategory : Z.
Hypothesis Hwf : StackTable_wf stackTable.

Lemma initialBuilderState_inv :
  BuilderInv stackTable funcCount 0 (initialBuilderState stackTable).
Proof.
  constructor; simpl; try done; try lia.
  - apply length_replicate.
Qed.

(** The prefix call node of stack [k] is [-1] or an existing call node. *)
Lemma prefixCallNode_range (k : nat) (s : BuilderState) :
  (k < st_length stackTable)%nat ->
  BuilderInv stackTable funcCount k s ->
  let prefixCallNode :=
    match st_prefix stackTable !!! k with
    | None => -1
    | Some p => b_stackIndexToCallNodeIndex s !!! p
    end in
  prefixCallNode = -1 \/ 0 <= prefixCallNode < Z.of_nat (b_length s).
Proof.
  intros Hk Hinv. simpl.
  destruct (st_prefix stackTable !!! k) as [p|] eqn:Hp; [right | by left].
  apply (inv_resolved _ _ _ _ Hinv).
  apply (st_wf_order _ Hwf k p).
  rewrite <- Hp. apply list_lookup_lookup_total_lt.
  rewrite (st_wf_prefix _ Hwf). done.
Qed.

Lemma callNodeOk_extend (prefix depth : list Z) (n : nat) (p d : Z) (i : nat) :
  n = length prefix -> n = length depth ->
  (i < n)%nat ->
  callNodeOk prefix depth i ->
  callNodeOk (array_set n p prefix) (array_set n d depth) i.
Proof.
  intros Hp Hd Hi Hok. unfold callNodeOk.
  rewrite !(array_set_lookup_before_end n i) by done.
  destruct Hok as [?|[? ?]]; [by left | right].
  rewrite array_set_lookup_before_end by (done || lia). done.
Qed.

Lemma addCallNode_inv (k : nat) (s : BuilderState) (key p f c sc w : Z) :
  BuilderInv stackTable funcCount k s ->
  (k < st_length stackTable)%nat ->
  p = -1 \/ 0 <= p < Z.of_nat (b_length s) ->
  key = p * funcCount + f ->
  b_prefixCallNodeAndFuncToCallNodeMap s !! key = None ->
  BuilderInv stackTable funcCount (S k)
    (setStackIndexToCallNodeIndex k (Z.of_nat (b_length s))
       (setMapping key (Z.of_nat (b_length s)) (addCallNode p f c sc w s))).
Proof.
  intros Hinv Hk Hp -> Hnone.
  destruct Hinv as [Hl1 Hl2 Hl3 Hl4 Hl5 Hl6 Hl7 Hle Hnodes Hres Hrange Hmapn].
  pose proof (st_wf_size _ Hwf) as Hsize.
  constructor; simpl.
  - by apply array_set_length_at_end.
  - by apply array_set_length_at_end.
  - by apply array_set_length_at_end.
  - by apply array_set_length_at_end.
  - by apply array_set_length_at_end.
  - by apply array_set_length_at_end.
  - by rewrite length_insert.
  - lia.
  - intros i Hi.
    destruct (decide (i = b_length s)) as [->|Hne].
    + unfold callNodeOk. rewrite !array_set_lookup_at_end by done.
      case_decide as Hroot; [by left | right].
      split; [lia|].
      rewrite array_set_lookup_before_end by (done || lia). done.
    + apply callNodeOk_extend; [done | done | lia |]. apply Hnodes. lia.
  - intros j Hj. destruct (decide (j = k)) as [->|Hne].
    + rewrite list_lookup_total_insert_eq by lia.
      rewrite toUint32_small; lia.
    + rewrite list_lookup_total_insert_ne by lia.
      specialize (Hres j). lia.
  - intros key v. rewrite lookup_insert. case_decide.
    + intros [= <-]. lia.
    + intros Hv. apply Hrange in Hv. lia.
  - intros i Hi. destruct (decide (i = b_length s)) as [->|Hne].
    + rewrite !array_set_lookup_at_end by done. apply lookup_insert_eq.
    + rewrite !(array_set_lookup_before_end (b_length s) i) by (done || lia).
      rewrite lookup_insert_ne; [apply Hmapn; lia|].
      intros Heq. rewrite Heq in Hnone. rewrite Hmapn in Hnone by lia. done.
Qed.

Lemma resolveCallNode_found (s : BuilderState) (key p f c sc w node : Z) :
  b_prefixCallNodeAndFuncToCallNodeMap s !! key = Some node ->
  (Z.to_nat node < length (b_category s))%nat ->
  (Z.to_nat node < length (b_subcategory s))%nat ->
  exists s', resolveCallNode defaultCategory key p f c sc w s = (node, s') /\
             sameCallNodes s s'.
Proof.
  intros Hkey Hc Hsc. unfold resolveCallNode. rewrite Hkey.
  repeat case_decide; eexists; (split; [reflexivity|]);
    unfold sameCallNodes; simpl;
    rewrite ?array_set_length_inside by done; done.
Qed.

Lemma sameCallNodes_inv (k : nat) (s s' : BuilderState) (node : Z) :
  BuilderInv stackTable funcCount k s ->
  (k < st_length stackTable)%nat ->
  sameCallNodes s s' ->
  0 <= node < Z.of_nat (b_length s) ->
  BuilderInv stackTable funcCount (S k) (setStackIndexToCallNodeIndex k node s').
Proof.
  intros Hinv Hk (E1 & E2 & E3 & E4 & E5 & E6 & E7 & E8 & E9) Hnode.
  destruct Hinv as [Hl1 Hl2 Hl3 Hl4 Hl5 Hl6 Hl7 Hle Hnodes Hres Hrange Hmapn].
  pose proof (st_wf_size _ Hwf) as Hsize.
  constructor; simpl; rewrite ?E1, ?E2, ?E3, ?E4, ?E5, ?E6, ?E7; try lia; try done.
  - by rewrite length_insert.
  - intros j Hj. destruct (decide (j = k)) as [->|Hne].
    + rewrite list_lookup_total_insert_eq by lia.
      rewrite toUint32_small; lia.
    + rewrite list_lookup_total_insert_ne by lia. apply Hres. lia.
Qed.

Lemma processStack_inv (k : nat) (s : BuilderState) :
  (k < st_length stackTable)%nat ->
  BuilderInv stackTable funcCount k s ->
  BuilderInv stackTable funcCount (S k)
    (processStack stackTable frameTable funcCount defaultCategory s k).
Proof.
  intros Hk Hinv. unfold processStack.
  pose proof (prefixCallNode_range k s Hk Hinv) as Hp. simpl in Hp.
  set (prefixCallNode := match st_prefix stackTable !!! k with
                         | Some p => b_stackIndexToCallNodeIndex s !!! p
                         | None => -1 end) in *.
  set (key := prefixCallNode * funcCount + _).
  destruct (b_prefixCallNodeAndFuncToCallNodeMap s !! key) as [node|] eqn:Hkey.
  - pose proof (inv_map_range _ _ _ _ Hinv _ _ Hkey) as Hnode.
    edestruct (resolveCallNode_found s key) as (s' & -> & Hsame); [exact Hkey | ..].
    + rewrite (inv_category _ _ _ _ Hinv). lia.
    + rewrite (inv_subcategory _ _ _ _ Hinv). lia.
    + by apply (sameCallNodes_inv k s).
  - unfold resolveCallNode. rewrite Hkey. by apply addCallNode_inv.
Qed.

Lemma buildCallNodes_inv (funcTable : FuncTable) (n : nat) :
  funcCount = Z.of_nat (fn_length funcTable) ->
  (n <= st_length stackTable)%nat ->
  BuilderInv stackTable funcCount n
    (buildCallNodes stackTable frameTable funcTable defaultCategory n).
Proof.
  intros Hcount Hn. unfold buildCallNodes. rewrite <- Hcount.
  apply (foldl_seq_invariant (BuilderInv stackTable funcCount)).
  - apply initialBuilderState_inv.
  - intros k acc Hk. apply processStack_inv. lia.
Qed.

End Builder.

Lemma lookup_total_fmap_toInt32 (l : list Z) (i : nat) :
  (i < length l)%nat -> (toInt32 <$> l) !!! i = toInt32 (l !!! i).
Proof. apply list_lookup_total_fmap. Qed.

Lemma fmap_toInt32_small (l : list Z) :
  Forall (fun z => - 2 ^ 31 <= z < 2 ^ 31) l -> toInt32 <$> l = l.
Proof.
  induction 1 as [|z l Hz _ IH]; [done|].
  rewrite fmap_cons, IH, toInt32_small by done. done.
Qed.

Lemma BuilderInv_prefix_small (stackTable : StackTable) (funcCount : Z) (k : nat)
    (s : BuilderState) :
  StackTable_wf stackTable -> (k <= st_length stackTable)%nat ->
  BuilderInv stackTable funcCount k s ->
  toInt32 <$> b_prefix s = b_prefix s.
Proof.
  intros Hwf Hk Hinv. apply fmap_toInt32_small, Forall_lookup_2.
  intros i z Hz. pose proof (st_wf_size _ Hwf) as Hsize.
  assert (i < b_length s)%nat as Hi.
  { rewrite <- (inv_prefix _ _ _ _ Hinv). by eapply lookup_lt_Some. }
  pose proof (inv_length _ _ _ _ Hinv).
  apply list_lookup_total_correct in Hz.
  destruct (inv_nodes _ _ _ _ Hinv i Hi) as [[? _]|[? _]]; lia.
Qed.

(** The table that [getCallNodeInfo] returns satisfies the invariant of call
    node tables. *)
Lemma getCallNodeInfo_wf (stackTable : StackTable) (frameTable : FrameTable)
    (funcTable : FuncTable) (defaultCategory : Z) :
  StackTable_wf stackTable ->
  CallNodeTable_wf
    (callNodeTable (getCallNodeInfo stackTable frameTable funcTable defaultCategory)).
Proof.
  intros Hwf.
  pose proof (buildCallNodes_inv stackTable frameTable _ defaultCategory Hwf
                funcTable (st_length stackTable) eq_refl (le_n _)) as Hinv.
  unfold getCallNodeInfo. simpl.
  set (s := buildCallNodes _ _ _ _ _) in *.
  constructor; simpl.
  - rewrite length_fmap. apply (inv_prefix _ _ _ _ Hinv).
  - rewrite length_fmap. apply (inv_func _ _ _ _ Hinv).
  - apply (inv_depth _ _ _ _ Hinv).
  - rewrite (BuilderInv_prefix_small _ _ _ _ Hwf (le_n _) Hinv).
    apply (inv_nodes _ _ _ _ Hinv).
Qed.

(** C1: in the call node table built from a well-formed stack table, every
    call node whose prefix is not -1 has a prefix that is an earlier call
    node, one level less deep, and every call node whose prefix is -1 has
    depth 0. *)
Theorem getCallNodeInfo_prefix_and_depth (stackTable : StackTable)
    (frameTable : FrameTable) (funcTable : FuncTable) (defaultCategory : Z)
    (i : nat) :
  StackTable_wf stackTable ->
  let t := callNodeTable (getCallNodeInfo stackTable frameTable funcTable defaultCategory) in
  (i < cn_length t)%nat ->
  (cn_prefix t !!! i ≠ -1 ->
     0 <= cn_prefix t !!! i < Z.of_nat i /\
     cn_depth t !!! Z.to_nat (cn_prefix t !!! i) + 1 = cn_depth t !!! i) /\
  (cn_prefix t !!! i = -1 -> cn_depth t !!! i = 0).
Proof.
  intros Hwf t Hi. subst t.
  pose proof (getCallNodeInfo_wf stackTable frameTable funcTable defaultCategory Hwf)
    as Hcn.
  destruct (cn_wf_nodes _ Hcn i Hi) as [[Hroot Hdepth]|[Hprefix Hdepth]].
  - split; [done | by intros _].
  - split; [by intros _ | lia].
Qed.

Lemma sampleStackTable_wf : StackTable_wf sampleStackTable.
Proof.
  constructor; try reflexivity.
  intros i p Hp.
  do 5 (destruct i as [|i]; [simpl in Hp; simplify_eq; lia|]).
  done.
Qed.

Lemma getCallNodeInfo_prefix_and_depth_witness :
  let t := callNodeTable (getCallNodeInfo sampleStackTable sampleFrameTable
                            sampleFuncTable 0) in
  (cn_prefix t !!! 2%nat ≠ -1 ->
     0 <= cn_prefix t !!! 2%nat < 2 /\
     cn_depth t !!! Z.to_nat (cn_prefix t !!! 2%nat) + 1 = cn_depth t !!! 2%nat) /\
  (cn_prefix t !!! 2%nat = -1 -> cn_depth t !!! 2%nat = 0).
Proof.
  apply (getCallNodeInfo_prefix_and_depth sampleStackTable sampleFrameTable
           sampleFuncTable 0 2 sampleStackTable_wf).
  vm_compute. lia.
Defined.

(** ** Category conflicts *)

Lemma mergeCategory_default (dc : Z) (l : list (Z * Z)) :
  foldl (mergeCategory dc) (dc, 0) l = (dc, 0).
Proof.
  induction l as [|[c sc] l IH]; [done|]. simpl.
  unfold mergeCategory at 2. simpl. by repeat case_decide.
Qed.

Lemma mergeCategory_conflict (dc c0 sc0 : Z) (l : list (Z * Z)) (x : Z * Z) :
  x ∈ l -> x.1 ≠ c0 -> foldl (mergeCategory dc) (c0, sc0) l = (dc, 0).
Proof.
  revert sc0. induction l as [|[c sc] l IH]; intros sc0 Hx Hne.
  - by apply elem_of_nil in Hx.
  - simpl. unfold mergeCategory at 2. simpl.
    apply elem_of_cons in Hx as [->|Hx].
    + simpl in Hne. case_decide; [|congruence]. apply mergeCategory_default.
    + repeat case_decide; eauto using mergeCategory_default.
Qed.

Lemma mergeCategory_other (dc c0 : Z) (l : list (Z * Z)) :
  (forall x, x ∈ l -> x.1 = c0) -> foldl (mergeCategory dc) (c0, 0) l = (c0, 0).
Proof.
  induction l as [|[c sc] l IH]; intros Hall; [done|]. simpl.
  assert (c = c0) as -> by (apply (Hall (c, sc)); left).
  unfold mergeCategory at 2. simpl.
  repeat case_decide; try congruence; apply IH; intros x Hx; apply Hall; by right.
Qed.

Lemma mergeCategory_subconflict (dc c0 sc0 : Z) (l : list (Z * Z)) (x : Z * Z) :
  (forall y, y ∈ l -> y.1 = c0) -> x ∈ l -> x.2 ≠ sc0 ->
  foldl (mergeCategory dc) (c0, sc0) l = (c0, 0).
Proof.
  induction l as [|[c sc] l IH]; intros Hall Hx Hne.
  - by apply elem_of_nil in Hx.
  - simpl. assert (c = c0) as -> by (apply (Hall (c, sc)); left).
    assert (forall y, y ∈ l -> y.1 = c0) as Hall' by (intros y Hy; apply Hall; by right).
    unfold mergeCategory at 2. simpl.
    apply elem_of_cons in Hx as [->|Hx].
    + simpl in Hne. repeat case_decide; try congruence.
      by apply mergeCategory_other.
    + repeat case_decide; try congruence; [by apply mergeCategory_other | by apply IH].
Qed.

Lemma mergeCategory_agree (dc c0 sc0 : Z) (l : list (Z * Z)) :
  (forall y, y ∈ l -> y = (c0, sc0)) -> foldl (mergeCategory dc) (c0, sc0) l = (c0, sc0).
Proof.
  induction l as [|y l IH]; intros Hall; [done|]. simpl.
  rewrite (Hall y) by left. unfold mergeCategory at 2. simpl.
  repeat case_decide; try congruence. apply IH. intros z Hz. apply Hall. by right.
Qed.

Lemma elem_of_stacksOf (stacks : list Z) (k n j : nat) :
  j ∈ stacksOf stacks k n <-> (j < k)%nat /\ stacks !!! j = Z.of_nat n.
Proof.
  unfold stacksOf. rewrite list_elem_of_filter, elem_of_seq. intuition lia.
Qed.

Lemma stacksOf_insert (stacks : list Z) (k n : nat) (r : Z) :
  (k < length stacks)%nat ->
  stacksOf (<[k := r]> stacks) (S k) n =
    stacksOf stacks k n ++ (if decide (r = Z.of_nat n) then [k] else []).
Proof.
  intros Hk. unfold stacksOf. rewrite seq_S, filter_app. f_equal.
  - apply filter_ext_elem. intros j Hj.
    apply elem_of_seq in Hj. rewrite list_lookup_total_insert_ne by lia. done.
  - simpl. rewrite filter_cons, filter_nil.
    rewrite list_lookup_total_insert_eq by done. by repeat case_decide.
Qed.

Section BuilderCategories.

Variable stackTable : StackTable.
Variable frameTable : FrameTable.
Variable funcCount : Z.
Variable defaultCategory : Z.
Hypothesis Hwf : StackTable_wf stackTable.

Lemma stacksOf_fresh (k : nat) (s : BuilderState) :
  BuilderInv stackTable funcCount k s ->
  stacksOf (b_stackIndexToCallNodeIndex s) k (b_length s) = [].
Proof.
  intros Hinv. apply elem_of_nil_inv. intros j Hj.
  apply elem_of_stacksOf in Hj as [Hj Hn].
  pose proof (inv_resolved _ _ _ _ Hinv j Hj). lia.
Qed.

Lemma processStack_category_inv (k : nat) (s : BuilderState) :
  (k < st_length stackTable)%nat ->
  BuilderInv stackTable funcCount k s ->
  CategoryInv stackTable defaultCategory k s ->
  CategoryInv stackTable defaultCategory (S k)
    (processStack stackTable frameTable funcCount defaultCategory s k).
Proof.
  intros Hk Hinv Hcat. unfold processStack.
  set (prefixCallNode := match st_prefix stackTable !!! k with
                         | Some p => b_stackIndexToCallNodeIndex s !!! p
                         | None => -1 end).
  set (key := prefixCallNode * funcCount + _).
  pose proof (inv_stacks _ _ _ _ Hinv) as Hstacks.
  pose proof (inv_category _ _ _ _ Hinv) as Hlc.
  pose proof (inv_subcategory _ _ _ _ Hinv) as Hlsc.
  unfold resolveCallNode.
  destruct (b_prefixCallNodeAndFuncToCallNodeMap s !! key) as [node|] eqn:Hkey.
  - pose proof (inv_map_range _ _ _ _ Hinv _ _ Hkey) as Hnode.
    assert (forall n, (n < b_length s)%nat -> node ≠ Z.of_nat n ->
              Z.to_nat node ≠ n) as Hother.
    { intros n _ Hne. lia. }
    pose proof (st_wf_size _ Hwf) as Hsize.
    pose proof (inv_length _ _ _ _ Hinv) as Hlen.
    repeat case_decide; intros n Hn; simpl in Hn |- *;
      destruct (Hcat n Hn) as (j0 & rest & Hst & Hpair);
      rewrite stacksOf_insert, Hst by lia;
      rewrite toUint32_small by lia;
      (destruct (decide (node = Z.of_nat n)) as [->|Hne];
       [ exists j0, (rest ++ [k]); split; [done|];
         rewrite fmap_app, foldl_app, <- Hpair; simpl;
         rewrite Nat2Z.id in *;
         rewrite ?array_set_lookup_eq by lia;
         unfold mergeCategory, stackCategory; simpl;
         repeat case_decide; congruence
       | exists j0, rest; split; [by rewrite app_nil_r|];
         rewrite ?array_set_lookup_ne by (first [lia | by apply Hother]);
         done ]).
  - intros n Hn. simpl in Hn |- *.
    rewrite stacksOf_insert by lia.
    rewrite toUint32_small
      by (pose proof (st_wf_size _ Hwf); pose proof (inv_length _ _ _ _ Hinv); lia).
    destruct (decide (n = b_length s)) as [->|Hne].
    + rewrite (stacksOf_fresh k s Hinv). rewrite decide_True by done.
      exists k, []. split; [done|].
      rewrite !array_set_lookup_at_end by done. done.
    + destruct (Hcat n ltac:(lia)) as (j0 & rest & Hst & Hpair).
      rewrite Hst, decide_False by lia.
      exists j0, rest. split; [by rewrite app_nil_r|].
      rewrite !(array_set_lookup_before_end (b_length s) n) by (done || lia).
      done.
Qed.

Lemma buildCallNodes_category_inv (funcTable : FuncTable) (n : nat) :
  funcCount = Z.of_nat (fn_length funcTable) ->
  (n <= st_length stackTable)%nat ->
  CategoryInv stackTable defaultCategory n
    (buildCallNodes stackTable frameTable funcTable defaultCategory n).
Proof.
  intros Hcount Hn.
  cut (BuilderInv stackTable funcCount n
         (buildCallNodes stackTable frameTable funcTable defaultCategory n) /\
       CategoryInv stackTable defaultCategory n
         (buildCallNodes stackTable frameTable funcTable defaultCategory n)).
  { by intros [_ ?]. }
  unfold buildCallNodes. rewrite <- Hcount.
  apply (foldl_seq_invariant
           (fun k s => BuilderInv stackTable funcCount k s /\
                       CategoryInv stackTable defaultCategory k s)).
  - split; [by apply initialBuilderState_inv|]. intros i Hi. simpl in Hi. lia.
  - intros k acc Hk [Hinv Hcat]. split.
    + apply processStack_inv; [done | lia | done].
    + apply processStack_category_inv; [lia | done | done].
Qed.

End BuilderCategories.

(** C3: let stacks [i] and [j] be resolved to the same call node.  If their
    categories differ, the node ends with the default category and
    subcategory 0.  If all stacks of the node have the category of [i] and the
    subcategories of [i] and [j] differ, the node ends with that category and
    subcategory 0.  If all stacks of the node have the category and the
    subcategory of [i], the node ends with them. *)
Theorem getCallNodeInfo_category_conflicts (stackTable : StackTable)
    (frameTable : FrameTable) (funcTable : FuncTable) (defaultCategory : Z)
    (i j : nat) :
  StackTable_wf stackTable ->
  Categories_int32 stackTable defaultCategory ->
  let info := getCallNodeInfo stackTable frameTable funcTable defaultCategory in
  let t := callNodeTable info in
  let nodeOf := fun l : nat => stackIndexToCallNodeIndex info !!! l in
  let n := Z.to_nat (nodeOf i) in
  (i < st_length stackTable)%nat ->
  (j < st_length stackTable)%nat ->
  nodeOf i = nodeOf j ->
  (st_category stackTable !!! i ≠ st_category stackTable !!! j ->
     cn_category t !!! n = defaultCategory /\ cn_subcategory t !!! n = 0) /\
  ((forall l, (l < st_length stackTable)%nat -> nodeOf l = nodeOf i ->
      st_category stackTable !!! l = st_category stackTable !!! i) ->
   st_subcategory stackTable !!! i ≠ st_subcategory stackTable !!! j ->
     cn_category t !!! n = st_category stackTable !!! i /\
     cn_subcategory t !!! n = 0) /\
  ((forall l, (l < st_length stackTable)%nat -> nodeOf l = nodeOf i ->
      stackCategory stackTable l = stackCategory stackTable i) ->
     cn_category t !!! n = st_category stackTable !!! i /\
     cn_subcategory t !!! n = st_subcategory stackTable !!! i).
Proof.
  intros Hwf [Hdc Hint] info t nodeOf n Hi Hj Hsame.
  pose proof (buildCallNodes_inv stackTable frameTable _ defaultCategory Hwf
                funcTable (st_length stackTable) eq_refl (le_n _)) as Hinv.
  pose proof (buildCallNodes_category_inv stackTable frameTable _ defaultCategory
                Hwf funcTable (st_length stackTable) eq_refl (le_n _)) as Hcat.
  subst info t nodeOf n. unfold getCallNodeInfo in *. simpl in *.
  set (s := buildCallNodes _ _ _ _ _) in *.
  set (stacks := b_stackIndexToCallNodeIndex s) in *.
  pose proof (inv_resolved _ _ _ _ Hinv i Hi) as Hni. fold stacks in Hni.
  set (n := Z.to_nat (stacks !!! i)).
  assert (n < b_length s)%nat as Hn by lia.
  assert (stacks !!! i = Z.of_nat n) as Hin by lia.
  destruct (Hcat n Hn) as (j0 & rest & Hst & Hpair). fold stacks in Hst.
  assert (forall l, l ∈ j0 :: rest <->
            (l < st_length stackTable)%nat /\ stacks !!! l = stacks !!! i) as Hmem.
  { intros l. rewrite <- Hst, elem_of_stacksOf, Hin. done. }
  assert (forall x, x ∈ j0 :: rest -> x ≠ j0 ->
            stackCategory stackTable x ∈ stackCategory stackTable <$> rest) as Hrest.
  { intros x Hx Hne. apply elem_of_cons in Hx as [?|Hx]; [done|].
    by apply list_elem_of_fmap_2. }
  assert (i ∈ j0 :: rest) as Hi' by (by apply Hmem).
  assert (j ∈ j0 :: rest) as Hj' by (by apply Hmem).
  assert (j0 ∈ j0 :: rest) as Hj0 by left.
  apply Hmem in Hj0 as [Hj0 Hj0n].
  rewrite !lookup_total_fmap_toInt32
    by (rewrite ?(inv_category _ _ _ _ Hinv), ?(inv_subcategory _ _ _ _ Hinv); done).
  destruct (Hint i Hi) as [Hci Hsci].
  change (stackCategory stackTable j0)
    with (st_category stackTable !!! j0, st_subcategory stackTable !!! j0) in Hpair.
  split_and!.
  - intros Hne.
    assert (exists x, x ∈ j0 :: rest /\
              st_category stackTable !!! x ≠ st_category stackTable !!! j0)
      as (x & Hx & Hxc).
    { destruct (decide (st_category stackTable !!! i = st_category stackTable !!! j0));
        [exists j | exists i]; split; (done || congruence). }
    rewrite (mergeCategory_conflict _ _ _ _ (stackCategory stackTable x)) in Hpair.
    + injection Hpair as -> ->. by rewrite !toInt32_small by lia.
    + apply Hrest; [done | congruence].
    + done.
  - intros Hall Hne.
    assert (exists x, x ∈ j0 :: rest /\
              st_subcategory stackTable !!! x ≠ st_subcategory stackTable !!! j0)
      as (x & Hx & Hxc).
    { destruct (decide (st_subcategory stackTable !!! i = st_subcategory stackTable !!! j0));
        [exists j | exists i]; split; (done || congruence). }
    rewrite (mergeCategory_subconflict _ _ _ _ (stackCategory stackTable x)) in Hpair.
    + injection Hpair as -> ->. rewrite (Hall j0) by done.
      by rewrite !toInt32_small by lia.
    + intros y Hy. apply list_elem_of_fmap in Hy as (l & -> & Hl).
      simpl. assert (l ∈ j0 :: rest) as Hl' by (by right).
      apply Hmem in Hl' as [? ?]. rewrite (Hall l), (Hall j0); done.
    + apply Hrest; [done | congruence].
    + done.
  - intros Hall.
    rewrite mergeCategory_agree in Hpair.
    + injection Hpair as -> ->.
      pose proof (Hall j0 Hj0 Hj0n) as Heq. unfold stackCategory in Heq.
      injection Heq as -> ->. by rewrite !toInt32_small by lia.
    + intros y Hy. apply list_elem_of_fmap in Hy as (l & -> & Hl).
      assert (l ∈ j0 :: rest) as Hl' by (by right).
      apply Hmem in Hl' as [? ?].
      rewrite (Hall l) by done. rewrite <- (Hall j0) by done. done.
Qed.

(** ** Paths and indices *)

Section Paths.

Variable t : CallNodeTable.
Hypothesis Hwf : CallNodeTable_wf t.

Lemma prefix_range (n : Z) :
  0 <= n < Z.of_nat (cn_length t) ->
  -1 <= cn_prefix t !!! Z.to_nat n < n.
Proof.
  intros Hn.
  destruct (cn_wf_nodes _ Hwf (Z.to_nat n) ltac:(lia)) as [[? _]|[? _]]; lia.
Qed.

(** The loop of [getCallNodePathFromIndex] ends, with the path reversed. *)
Lemma collectFuncsToRoot_PathOf (fuel : nat) (n : Z) (acc : list Z) :
  -1 <= n < Z.of_nat (cn_length t) ->
  n + 1 <= Z.of_nat fuel ->
  exists path, PathOf t n path /\
    collectFuncsToRoot fuel t n acc = Some (acc ++ reverse path).
Proof.
  revert n acc. induction fuel as [|fuel IH]; intros n acc Hn Hfuel.
  - assert (n = -1) as -> by lia. exists []. split; [constructor|].
    simpl. by rewrite app_nil_r.
  - destruct (decide (n = -1)) as [->|Hne].
    + exists []. split; [constructor|]. simpl. by rewrite app_nil_r.
    + pose proof (prefix_range n ltac:(lia)) as Hp.
      assert (cn_prefix t !!! Z.to_nat n + 1 <= Z.of_nat fuel) as Hfuel' by lia.
      assert (-1 <= cn_prefix t !!! Z.to_nat n < Z.of_nat (cn_length t)) as Hn' by lia.
      destruct (IH (cn_prefix t !!! Z.to_nat n)
                  (acc ++ [cn_func t !!! Z.to_nat n]) Hn' Hfuel')
        as (path & Hpath & Hrun).
      exists (path ++ [cn_func t !!! Z.to_nat n]). split.
      * constructor; [lia | done].
      * simpl. rewrite decide_False by done. rewrite Hrun.
        by rewrite reverse_app, <- app_assoc.
Qed.

Lemma getCallNodePathFromIndex_PathOf (n : Z) :
  0 <= n < Z.of_nat (cn_length t) ->
  exists path, PathOf t n path /\ getCallNodePathFromIndex (Some n) t = Some path.
Proof.
  intros Hn. unfold getCallNodePathFromIndex. rewrite decide_False by lia.
  destruct (collectFuncsToRoot_PathOf (cn_length t) n [] ltac:(lia) ltac:(lia))
    as (path & Hpath & ->).
  exists path. split; [done|]. simpl. by rewrite reverse_involutive.
Qed.

Lemma Descends_snoc (a m n : Z) (funcs : list Z) :
  Descends t a funcs m ->
  0 <= n < Z.of_nat (cn_length t) ->
  cn_prefix t !!! Z.to_nat n = m ->
  Descends t a (funcs ++ [cn_func t !!! Z.to_nat n]) n.
Proof.
  intros Hd Hn Hp. induction Hd as [a|a c m funcs Hc Hpc Hd IH].
  - simpl. econstructor; [done | done | constructor].
  - simpl. econstructor; [done | done | by apply IH].
Qed.

Lemma PathOf_Descends (n : Z) (path : CallNodePath) :
  PathOf t n path -> Descends t (-1) path n.
Proof.
  induction 1 as [|n path Hn Hpath IH]; [constructor|].
  by eapply Descends_snoc.
Qed.

Hypothesis Hunique : UniqueChildren t.

(** The scan for the child of [parent] with function [func] finds the call
    node that has them. *)
Lemma _getCallNodeIndexFromParentAndFunc_child (c : Z) :
  0 <= c < Z.of_nat (cn_length t) ->
  _getCallNodeIndexFromParentAndFunc (cn_prefix t !!! Z.to_nat c)
    (cn_func t !!! Z.to_nat c) t = Some c.
Proof.
  intros Hc. unfold _getCallNodeIndexFromParentAndFunc.
  pose proof (prefix_range c Hc) as Hp.
  set (parent := cn_prefix t !!! Z.to_nat c) in *.
  set (start := Z.to_nat (parent + 1)).
  set (P := fun callNodeIndex : nat => _).
  assert (list_find P (seq start (cn_length t - start))
          = Some ((Z.to_nat c - start)%nat, Z.to_nat c)) as ->.
  { apply list_find_Some. split_and!.
    - apply lookup_seq. lia.
    - done.
    - intros j y Hy Hj [Hyp Hyf]. apply lookup_seq in Hy as [-> ?].
      assert ((start + j)%nat = Z.to_nat c); [|lia].
      apply Hunique; [lia | lia | done | done]. }
  simpl. f_equal. lia.
Qed.

Lemma resolveDownwards_Descends (a n : Z) (funcs : list Z)
    (sliceHashes : list string) (cache : gmap string Z) :
  Descends t a funcs n ->
  (resolveDownwards t funcs a sliceHashes cache).1 =
    if decide (n < 0) then None else Some n.
Proof.
  intros Hd. revert sliceHashes cache.
  induction Hd as [a|a c n funcs Hc Hpc Hd IH]; intros sliceHashes cache; [done|].
  simpl. rewrite <- Hpc, _getCallNodeIndexFromParentAndFunc_child by done.
  apply IH.
Qed.

End Paths.

Lemma findCachedParent_empty_cache (hashPath : CallNodePath -> string)
    (callNodePath : CallNodePath) (m : nat) (sliceHashes : list string) :
  (0 < m)%nat ->
  exists sliceHashes',
    findCachedParent hashPath callNodePath ∅ m sliceHashes = (0, None, sliceHashes').
Proof.
  revert sliceHashes. induction m as [|m IH]; intros sliceHashes Hm; [lia|].
  destruct m as [|m]; [by eexists|].
  simpl. rewrite lookup_empty. apply IH. lia.
Qed.

(** On a table without duplicate children, a path that leads to a call node
    is resolved to that call node. *)
Lemma getCallNodeIndexFromPath_PathOf (hashPath : CallNodePath -> string)
    (t : CallNodeTable) (n : Z) (path : CallNodePath) :
  CallNodeTable_wf t -> UniqueChildren t ->
  0 <= n -> PathOf t n path ->
  getCallNodeIndexFromPath hashPath path t = Some n.
Proof.
  intros Hwf Hunique Hn Hpath.
  assert (0 < length path)%nat as Hlen.
  { destruct Hpath; [lia|]. rewrite length_app. simpl. lia. }
  unfold getCallNodeIndexFromPath, getCallNodeIndicesFromPaths. simpl.
  unfold _getCallNodeIndexFromPathWithCache. rewrite lookup_empty.
  destruct (findCachedParent_empty_cache hashPath path (length path)
              [hashPath path] Hlen) as (hs & ->).
  rewrite decide_False by lia. simpl. rewrite drop_0.
  pose proof (resolveDownwards_Descends t Hwf Hunique (-1) n path hs ∅
                (PathOf_Descends t n path Hpath)) as Hres.
  destruct (resolveDownwards t path (-1) hs ∅) as [r cache']. simpl in Hres.
  rewrite Hres. by rewrite decide_False by lia.
Qed.

(** The functions of the call nodes under construction are rows of the
    function table. *)
Lemma buildCallNodes_func_range (stackTable : StackTable) (frameTable : FrameTable)
    (funcTable : FuncTable) (defaultCategory : Z) (n : nat) :
  StackTable_wf stackTable ->
  FrameRefs_wf stackTable frameTable funcTable ->
  (n <= st_length stackTable)%nat ->
  let s := buildCallNodes stackTable frameTable funcTable defaultCategory n in
  forall i, (i < b_length s)%nat ->
    0 <= b_func s !!! i < Z.of_nat (fn_length funcTable).
Proof.
  intros Hwf Hfr Hn.
  cut (let s := buildCallNodes stackTable frameTable funcTable defaultCategory n in
       BuilderInv stackTable (Z.of_nat (fn_length funcTable)) n s /\
       forall i, (i < b_length s)%nat ->
         0 <= b_func s !!! i < Z.of_nat (fn_length funcTable)).
  { by intros [_ ?]. }
  unfold buildCallNodes.
  apply (foldl_seq_invariant
           (fun k s => BuilderInv stackTable (Z.of_nat (fn_length funcTable)) k s /\
                       forall i, (i < b_length s)%nat ->
                         0 <= b_func s !!! i < Z.of_nat (fn_length funcTable))).
  - split; [by apply initialBuilderState_inv|]. simpl. lia.
  - intros k s Hk [Hinv Hfunc]. split.
    { apply processStack_inv; [done | lia | done]. }
    unfold processStack.
    set (key := _ * _ + _). set (prefixCallNode := match _ with Some _ => _ | None => _ end).
    destruct (b_prefixCallNodeAndFuncToCallNodeMap s !! key) as [node|] eqn:Hkey.
    + pose proof (inv_map_range _ _ _ _ Hinv _ _ Hkey) as Hnode.
      edestruct (resolveCallNode_found defaultCategory s key) as (s' & -> & Hsame);
        [exact Hkey | rewrite (inv_category _ _ _ _ Hinv); lia
         | rewrite (inv_subcategory _ _ _ _ Hinv); lia |].
      destruct Hsame as (_ & _ & _ & E4 & _ & _ & E7 & _).
      simpl. rewrite E4, E7. done.
    + unfold resolveCallNode. rewrite Hkey. simpl. intros i Hi.
      pose proof (inv_func _ _ _ _ Hinv) as Hlf.
      destruct (decide (i = b_length s)) as [->|Hne].
      * rewrite array_set_lookup_at_end by done.
        apply (fr_wf_func _ _ _ Hfr), (fr_wf_frame _ _ _ Hfr). lia.
      * rewrite array_set_lookup_before_end by (done || lia). apply Hfunc. lia.
Qed.

Lemma getCallNodeInfo_unique_children (stackTable : StackTable)
    (frameTable : FrameTable) (funcTable : FuncTable) (defaultCategory : Z) :
  StackTable_wf stackTable ->
  FrameRefs_wf stackTable frameTable funcTable ->
  UniqueChildren
    (callNodeTable (getCallNodeInfo stackTable frameTable funcTable defaultCategory)).
Proof.
  intros Hwf Hfr.
  pose proof (buildCallNodes_inv stackTable frameTable _ defaultCategory Hwf
                funcTable (st_length stackTable) eq_refl (le_n _)) as Hinv.
  pose proof (buildCallNodes_func_range stackTable frameTable funcTable
                defaultCategory (st_length stackTable) Hwf Hfr (le_n _)) as Hfunc.
  simpl in Hfunc.
  unfold getCallNodeInfo, UniqueChildren. simpl.
  set (s := buildCallNodes _ _ _ _ _) in *.
  rewrite (BuilderInv_prefix_small _ _ _ _ Hwf (le_n _) Hinv).
  assert (toInt32 <$> b_func s = b_func s) as ->.
  { apply fmap_toInt32_small, Forall_lookup_2. intros i z Hz.
    assert (i < b_length s)%nat as Hi.
    { rewrite <- (inv_func _ _ _ _ Hinv). by eapply lookup_lt_Some. }
    apply list_lookup_total_correct in Hz. subst z.
    pose proof (Hfunc i Hi). pose proof (fr_wf_size _ _ _ Hfr). lia. }
  intros i j Hi Hj Hp Hf.
  pose proof (inv_map_nodes _ _ _ _ Hinv i Hi) as Hmi.
  pose proof (inv_map_nodes _ _ _ _ Hinv j Hj) as Hmj.
  rewrite Hp, Hf, Hmj in Hmi. injection Hmi. lia.
Qed.

(** C2: for a call node table built from well-formed tables and a call node
    [n] of it, [getCallNodePathFromIndex] returns a path, and
    [getCallNodeIndexFromPath] resolves that path to [n]. *)
Theorem getCallNodeIndexFromPath_of_getCallNodePathFromIndex
    (hashPath : CallNodePath -> string)
    (stackTable : StackTable) (frameTable : FrameTable) (funcTable : FuncTable)
    (defaultCategory : Z) (n : Z) :
  StackTable_wf stackTable ->
  FrameRefs_wf stackTable frameTable funcTable ->
  let t := callNodeTable (getCallNodeInfo stackTable frameTable funcTable defaultCategory) in
  0 <= n < Z.of_nat (cn_length t) ->
  exists path,
    getCallNodePathFromIndex (Some n) t = Some path /\
    getCallNodeIndexFromPath hashPath path t = Some n.
Proof.
  intros Hwf Hfr t Hn.
  pose proof (getCallNodeInfo_wf stackTable frameTable funcTable defaultCategory Hwf)
    as Hcn.
  pose proof (getCallNodeInfo_unique_children stackTable frameTable funcTable
                defaultCategory Hwf Hfr) as Hunique.
  destruct (getCallNodePathFromIndex_PathOf _ Hcn n Hn) as (path & Hpath & Hget).
  exists path. split; [done|].
  apply getCallNodeIndexFromPath_PathOf; [done | done | lia | done].
Qed.

(** ** Tree order *)

Lemma lexico_common_prefix (p : list Z) (a b : Z) (sa sb : list Z) :
  a < b -> lexico (p ++ a :: sa) (p ++ b :: sb).
Proof.
  intros Hab. induction p as [|x p IH]; simpl.
  - by left.
  - right. by split.
Qed.

Lemma lexico_extension (p s : list Z) : s ≠ [] -> lexico p (p ++ s).
Proof.
  intros Hs. induction p as [|x p IH]; simpl.
  - by destruct s.
  - right. by split.
Qed.

Section TreeOrder.

Variable t : CallNodeTable.
Hypothesis Hwf : CallNodeTable_wf t.

Lemma ancestorChain_unfold (fuel : nat) (n : Z) :
  n ≠ -1 ->
  ancestorChain (S fuel) t n =
    ancestorChain fuel t (cn_prefix t !!! Z.to_nat n) ++ [n].
Proof. intros Hn. simpl. by rewrite decide_False. Qed.

Lemma ancestorChain_fuel (fuel1 fuel2 : nat) (n : Z) :
  -1 <= n < Z.of_nat (cn_length t) ->
  n + 1 <= Z.of_nat fuel1 -> n + 1 <= Z.of_nat fuel2 ->
  ancestorChain fuel1 t n = ancestorChain fuel2 t n.
Proof.
  revert fuel2 n. induction fuel1 as [|fuel1 IH]; intros fuel2 n Hn H1 H2.
  - assert (n = -1) as -> by lia. by destruct fuel2.
  - destruct (decide (n = -1)) as [->|Hne]; [by destruct fuel2|].
    destruct fuel2 as [|fuel2]; [lia|].
    rewrite !ancestorChain_unfold by done.
    pose proof (prefix_range t Hwf n ltac:(lia)) as Hp.
    f_equal. apply IH; lia.
Qed.

Lemma treeKey_root : treeKey t (-1) = [].
Proof. unfold treeKey. by destruct (cn_length t). Qed.

Lemma treeKey_unfold (n : Z) :
  0 <= n < Z.of_nat (cn_length t) ->
  treeKey t n = treeKey t (cn_prefix t !!! Z.to_nat n) ++ [n].
Proof.
  intros Hn. unfold treeKey.
  destruct (cn_length t) as [|len] eqn:Hlen; [lia|].
  rewrite ancestorChain_unfold by lia. f_equal.
  pose proof (prefix_range t Hwf n ltac:(lia)) as Hp.
  apply ancestorChain_fuel; lia.
Qed.

Lemma treeKey_inj (a b : Z) :
  0 <= a < Z.of_nat (cn_length t) -> 0 <= b < Z.of_nat (cn_length t) ->
  treeKey t a = treeKey t b -> a = b.
Proof.
  intros Ha Hb. rewrite (treeKey_unfold a), (treeKey_unfold b) by done.
  intros Heq. by apply app_inj_tail in Heq as [_ ?].
Qed.

(** The depth of a call node is between 0 and its index. *)
Lemma depth_range (n : Z) :
  0 <= n < Z.of_nat (cn_length t) ->
  0 <= cn_depth t !!! Z.to_nat n <= n.
Proof.
  intros Hn. remember (Z.to_nat n) as k eqn:Hk.
  revert n Hn Hk. induction k as [k IH] using lt_wf_ind. intros n Hn ->.
  destruct (cn_wf_nodes _ Hwf (Z.to_nat n) ltac:(lia)) as [[_ Hd]|[Hp Hd]].
  - lia.
  - rewrite <- Hd.
    assert (Z.to_nat (cn_prefix t !!! Z.to_nat n) < Z.to_nat n)%nat as Hlt by lia.
    assert (0 <= cn_prefix t !!! Z.to_nat n < Z.of_nat (cn_length t)) as Hin by lia.
    pose proof (IH _ Hlt _ Hin eq_refl).
    lia.
Qed.

(** A call node that is not a root has a parent one level higher. *)
Lemma parent_depth (n : Z) :
  0 <= n < Z.of_nat (cn_length t) ->
  0 < cn_depth t !!! Z.to_nat n ->
  0 <= cn_prefix t !!! Z.to_nat n < n /\
  cn_depth t !!! Z.to_nat (cn_prefix t !!! Z.to_nat n) = cn_depth t !!! Z.to_nat n - 1.
Proof.
  intros Hn Hd.
  destruct (cn_wf_nodes _ Hwf (Z.to_nat n) ltac:(lia)) as [[_ Hd']|[Hp Hd']]; lia.
Qed.

Lemma root_depth (n : Z) :
  0 <= n < Z.of_nat (cn_length t) ->
  cn_depth t !!! Z.to_nat n = 0 ->
  cn_prefix t !!! Z.to_nat n = -1.
Proof.
  intros Hn Hd.
  destruct (cn_wf_nodes _ Hwf (Z.to_nat n) ltac:(lia)) as [[Hp _]|[Hp Hd']]; [done|].
  assert (0 <= cn_prefix t !!! Z.to_nat n < Z.of_nat (cn_length t)) as Hin by lia.
  pose proof (depth_range _ Hin). lia.
Qed.

(** Walking [k] levels up from [n] removes the last [k] call nodes of its
    key. *)
Lemma walkTowardsRoot_key (k : nat) (n : Z) :
  0 <= n < Z.of_nat (cn_length t) ->
  Z.of_nat k <= cn_depth t !!! Z.to_nat n ->
  let m := walkTowardsRoot t k n in
  0 <= m < Z.of_nat (cn_length t) /\
  cn_depth t !!! Z.to_nat m = cn_depth t !!! Z.to_nat n - Z.of_nat k /\
  exists s, length s = k /\ treeKey t n = treeKey t m ++ s.
Proof.
  intros Hn. induction k as [|k IH]; intros Hk; simpl.
  - split; [done|]. split; [lia|]. exists []. by rewrite app_nil_r.
  - destruct IH as (Hm & Hd & s & Hs & Hkey); [lia|].
    fold (walkTowardsRoot t k n) in *.
    set (m := walkTowardsRoot t k n) in *.
    destruct (parent_depth m Hm ltac:(lia)) as [Hp Hdp].
    split; [lia|]. split; [lia|].
    exists (m :: s). split; [simpl; lia|].
    rewrite Hkey, (treeKey_unfold m Hm), <- app_assoc. done.
Qed.

(** Two distinct call nodes of the same depth have keys that part at the
    pair which [walkToCommonParent] returns. *)
Lemma walkToCommonParent_key (fuel : nat) (a b : Z) :
  0 <= a < Z.of_nat (cn_length t) -> 0 <= b < Z.of_nat (cn_length t) ->
  a ≠ b ->
  cn_depth t !!! Z.to_nat a = cn_depth t !!! Z.to_nat b ->
  cn_depth t !!! Z.to_nat a + 1 <= Z.of_nat fuel ->
  exists a' b' p sa sb,
    walkToCommonParent fuel t a b = Some (a', b') /\ a' ≠ b' /\
    treeKey t a = p ++ a' :: sa /\ treeKey t b = p ++ b' :: sb.
Proof.
  revert a b. induction fuel as [|fuel IH]; intros a b Ha Hb Hne Hd Hfuel.
  - pose proof (depth_range a Ha). lia.
  - simpl. case_decide as Hparent.
    + exists a, b, (treeKey t (cn_prefix t !!! Z.to_nat a)), [], [].
      split; [done|]. split; [done|].
      rewrite (treeKey_unfold a Ha). rewrite (treeKey_unfold b Hb), Hparent. done.
    + assert (0 < cn_depth t !!! Z.to_nat a) as Hpos.
      { pose proof (depth_range a Ha).
        destruct (decide (cn_depth t !!! Z.to_nat a = 0)) as [Hz|]; [|lia].
        rewrite (root_depth a Ha Hz) in Hparent.
        rewrite (root_depth b Hb) in Hparent by lia. done. }
      destruct (parent_depth a Ha Hpos) as [Hpa Hda].
      destruct (parent_depth b Hb ltac:(lia)) as [Hpb Hdb].
      destruct (IH (cn_prefix t !!! Z.to_nat a) (cn_prefix t !!! Z.to_nat b))
        as (a' & b' & p & sa & sb & -> & Hne' & Hka & Hkb); [lia | lia | done | lia | lia |].
      exists a', b', p, (sa ++ [a]), (sb ++ [b]).
      split; [done|]. split; [done|].
      rewrite (treeKey_unfold a Ha), (treeKey_unfold b Hb), Hka, Hkb.
      by rewrite <- !app_assoc.
Qed.

End TreeOrder.

Section Comparator.

Variable t : CallNodeTable.
Hypothesis Hwf : CallNodeTable_wf t.

(** [compareCallNodes] returns, and its result orders the two call nodes by
    their keys. *)
Lemma compareCallNodes_ordersAs (a b : Z) :
  0 <= a < Z.of_nat (cn_length t) -> 0 <= b < Z.of_nat (cn_length t) ->
  exists r, compareCallNodes t a b = Some r /\ ordersAs t a b r.
Proof.
  intros Ha Hb. unfold compareCallNodes.
  set (dA := cn_depth t !!! Z.to_nat a). set (dB := cn_depth t !!! Z.to_nat b).
  pose proof (depth_range t Hwf a Ha) as HdA. fold dA in HdA.
  pose proof (depth_range t Hwf b Hb) as HdB. fold dB in HdB.
  destruct (walkTowardsRoot_key t Hwf (Z.to_nat (dA - dB)) a Ha ltac:(fold dA; lia))
    as (Ha1 & Hda1 & sa & Hsa & Hka).
  destruct (walkTowardsRoot_key t Hwf (Z.to_nat (dB - dA)) b Hb ltac:(fold dB; lia))
    as (Hb1 & Hdb1 & sb & Hsb & Hkb).
  fold dA in Hda1. fold dB in Hdb1.
  set (a1 := walkTowardsRoot t (Z.to_nat (dA - dB)) a) in *.
  set (b1 := walkTowardsRoot t (Z.to_nat (dB - dA)) b) in *.
  case_decide as Heq.
  - exists (dA - dB). split; [done|]. unfold ordersAs.
    destruct (Z.lt_trichotomy dA dB) as [Hlt|[Hdeq|Hgt]].
    + left. split; [lia|]. rewrite Hka, Hkb, Heq.
      assert (sa = []) as -> by (apply nil_length_inv; lia).
      rewrite app_nil_r. apply lexico_extension. intros ->. simpl in Hsb. lia.
    + right; left. split; [lia|].
      assert (sa = []) as -> by (apply nil_length_inv; lia).
      assert (sb = []) as -> by (apply nil_length_inv; lia).
      apply (treeKey_inj t Hwf); [done | done |].
      by rewrite Hka, Hkb, Heq.
    + right; right. split; [lia|]. rewrite Hka, Hkb, Heq.
      assert (sb = []) as -> by (apply nil_length_inv; lia).
      rewrite app_nil_r. apply lexico_extension. intros ->. simpl in Hsa. lia.
  - destruct (walkToCommonParent_key t Hwf (cn_length t) a1 b1 Ha1 Hb1 Heq)
      as (a' & b' & p & ta & tb & -> & Hne & Hka1 & Hkb1).
    { lia. }
    { pose proof (depth_range t Hwf a1 Ha1). lia. }
    simpl. exists (a' - b'). split; [done|]. unfold ordersAs.
    rewrite Hka, Hkb, Hka1, Hkb1, <- !app_assoc. simpl.
    destruct (Z.lt_trichotomy a' b') as [Hlt|[?|Hgt]]; [|done|].
    + left. split; [lia|]. by apply lexico_common_prefix.
    + right; right. split; [lia|]. by apply lexico_common_prefix.
Qed.

Lemma ordersAs_refl (a r : Z) : ordersAs t a a r -> r = 0.
Proof.
  intros [[_ Hlex]|[[? _]|[_ Hlex]]]; [|done|];
    by apply (irreflexivity lexico) in Hlex.
Qed.

Lemma ordersAs_flip (a b r r' : Z) :
  ordersAs t a b r -> ordersAs t b a r' -> Z.sgn r = - Z.sgn r'.
Proof.
  assert (forall x y : list Z, lexico x y -> lexico y x -> False) as Hasym.
  { intros x y Hxy Hyx. apply (irreflexivity lexico x). by trans y. }
  assert (forall x : list Z, lexico x x -> False) as Hirr.
  { intros x. apply (irreflexivity lexico). }
  intros [[? H1]|[[? ->]|[? H1]]] [[? H2]|[[? ?]|[? H2]]]; subst;
    try lia; exfalso; eauto.
Qed.

Lemma ordersAs_trans (a b c r1 r2 r3 : Z) :
  ordersAs t a b r1 -> ordersAs t b c r2 -> ordersAs t a c r3 ->
  r1 <= 0 -> r2 <= 0 ->
  r3 <= 0 /\ (r1 < 0 \/ r2 < 0 -> r3 < 0).
Proof.
  assert (forall x y z : list Z, lexico x y -> lexico y z -> lexico z x -> False)
    as Hcyc.
  { intros x y z Hxy Hyz Hzx. apply (irreflexivity lexico x). trans y; [done|].
    by trans z. }
  assert (forall x y : list Z, lexico x y -> lexico y x -> False) as Hasym.
  { intros x y Hxy Hyx. apply (irreflexivity lexico x). by trans y. }
  assert (forall x : list Z, lexico x x -> False) as Hirr.
  { intros x. apply (irreflexivity lexico). }
  intros [[? H1]|[[? ->]|[? H1]]] [[? H2]|[[? ->]|[? H2]]]
         [[? H3]|[[? ?]|[? H3]]] ? ?; subst; try lia; exfalso; eauto.
Qed.

Lemma samplesOrderAs_refl (a : option Z) (r : Z) :
  samplesOrderAs t a a r -> r = 0.
Proof. destruct a; simpl; [apply ordersAs_refl | done]. Qed.

Lemma samplesOrderAs_flip (a b : option Z) (r r' : Z) :
  samplesOrderAs t a b r -> samplesOrderAs t b a r' -> Z.sgn r = - Z.sgn r'.
Proof.
  destruct a, b; simpl; [apply ordersAs_flip | ..]; by intros -> ->.
Qed.

Lemma samplesOrderAs_trans (a b c : option Z) (r1 r2 r3 : Z) :
  samplesOrderAs t a b r1 -> samplesOrderAs t b c r2 -> samplesOrderAs t a c r3 ->
  r1 <= 0 -> r2 <= 0 ->
  r3 <= 0 /\ (r1 < 0 \/ r2 < 0 -> r3 < 0).
Proof.
  destruct a, b, c; simpl; intros H1 H2 H3 ? ?;
    first [ by eapply ordersAs_trans | subst; lia ].
Qed.

(** The comparator returns for every pair of samples. *)
Lemma getTreeOrderComparator_samplesOrderAs (sampleCallNodes : list (option Z))
    (x y : nat) :
  SampleCallNodes_wf t sampleCallNodes ->
  (x < length sampleCallNodes)%nat -> (y < length sampleCallNodes)%nat ->
  exists r, getTreeOrderComparator t sampleCallNodes x y = Some r /\
            samplesOrderAs t (sampleCallNodes !!! x) (sampleCallNodes !!! y) r.
Proof.
  intros Hsamples Hx Hy. unfold getTreeOrderComparator.
  pose proof (list_lookup_lookup_total_lt sampleCallNodes x Hx) as Hlx.
  pose proof (list_lookup_lookup_total_lt sampleCallNodes y Hy) as Hly.
  destruct (sampleCallNodes !!! x) as [nx|], (sampleCallNodes !!! y) as [ny|];
    simpl; eauto.
  apply compareCallNodes_ordersAs; by eapply Hsamples.
Qed.

End Comparator.

(** C7: over a well-formed call node table and samples whose call nodes are
    in it, the comparator returns for every pair of samples; a sample compares
    equal to itself; swapping the samples flips the sign; if [a] is not after
    [b] and [b] is not after [c] then [a] is not after [c], strictly before
    it when one of the two is strict, and equal to it when both are equal; a
    sample without a call node is after every sample with one; two samples
    without call nodes compare equal. *)
Theorem getTreeOrderComparator_strict_weak_order (t : CallNodeTable)
    (sampleCallNodes : list (option Z)) (a b c : nat) :
  CallNodeTable_wf t ->
  SampleCallNodes_wf t sampleCallNodes ->
  (a < length sampleCallNodes)%nat ->
  (b < length sampleCallNodes)%nat ->
  (c < length sampleCallNodes)%nat ->
  let cmp := getTreeOrderComparator t sampleCallNodes in
  cmp a a = Some 0 /\
  (exists rab rba, cmp a b = Some rab /\ cmp b a = Some rba /\
                   Z.sgn rab = - Z.sgn rba) /\
  (exists rab rbc rac,
     cmp a b = Some rab /\ cmp b c = Some rbc /\ cmp a c = Some rac /\
     (rab <= 0 -> rbc <= 0 -> rac <= 0 /\ (rab < 0 \/ rbc < 0 -> rac < 0)) /\
     (rab = 0 -> rbc = 0 -> rac = 0)) /\
  (sampleCallNodes !!! a = None -> sampleCallNodes !!! b ≠ None ->
     cmp a b = Some 1 /\ cmp b a = Some (-1)) /\
  (sampleCallNodes !!! a = None -> sampleCallNodes !!! b = None ->
     cmp a b = Some 0).
Proof.
  intros Hwf Hsamples Ha Hb Hc cmp. subst cmp.
  pose proof (getTreeOrderComparator_samplesOrderAs t Hwf sampleCallNodes) as Hcmp.
  destruct (Hcmp a a Hsamples Ha Ha) as (raa & Eaa & Haa).
  destruct (Hcmp a b Hsamples Ha Hb) as (rab & Eab & Hab).
  destruct (Hcmp b a Hsamples Hb Ha) as (rba & Eba & Hba).
  destruct (Hcmp b c Hsamples Hb Hc) as (rbc & Ebc & Hbc).
  destruct (Hcmp c b Hsamples Hc Hb) as (rcb & Ecb & Hcb).
  destruct (Hcmp a c Hsamples Ha Hc) as (rac & Eac & Hac).
  destruct (Hcmp c a Hsamples Hc Ha) as (rca & Eca & Hca).
  rewrite Eaa, Eab, Eba.
  split_and!.
  - f_equal. by eapply samplesOrderAs_refl.
  - exists rab, rba. split_and!; [done | done |]. by eapply samplesOrderAs_flip.
  - exists rab, rbc, rac. split_and!; [done | done | done | |].
    + intros. by eapply samplesOrderAs_trans.
    + intros -> ->.
      pose proof (samplesOrderAs_flip t _ _ _ _ Hab Hba) as Fab.
      pose proof (samplesOrderAs_flip t _ _ _ _ Hbc Hcb) as Fbc.
      pose proof (samplesOrderAs_flip t _ _ _ _ Hac Hca) as Fac.
      assert (rba = 0) as -> by (destruct rba; simpl in Fab; lia).
      assert (rcb = 0) as -> by (destruct rcb; simpl in Fbc; lia).
      pose proof (samplesOrderAs_trans t _ _ _ _ _ _ Hab Hbc Hac) as [T1 _]; [lia..|].
      pose proof (samplesOrderAs_trans t _ _ _ _ _ _ Hcb Hba Hca) as [T2 _]; [lia..|].
      destruct rac, rca; simpl in Fac; lia.
  - intros Hna Hnb. rewrite Hna in *.
    destruct (sampleCallNodes !!! b); [|done]. simpl in *. by subst.
  - intros Hna Hnb. rewrite Hna, Hnb in *. simpl in *. by subst.
Qed.

(** ** The theorems at the sample tables *)

Lemma sampleFrameRefs_wf :
  FrameRefs_wf sampleStackTable sampleFrameTable sampleFuncTable.
Proof.
  constructor.
  - intros j Hj. do 5 (destruct j as [|j]; [vm_compute; lia|]). simpl in Hj. lia.
  - intros f Hf. do 3 (destruct f as [|f]; [vm_compute; split; congruence|]).
    simpl in Hf. lia.
  - vm_compute. reflexivity.
Qed.

Lemma sampleCategories_int32 : Categories_int32 sampleStackTable 0.
Proof.
  split; [lia|]. intros j Hj.
  do 5 (destruct j as [|j]; [vm_compute; repeat split; congruence|]).
  simpl in Hj. lia.
Qed.

Lemma sampleCallNodeTable_wf : CallNodeTable_wf sampleCallNodeTable.
Proof.
  constructor; try reflexivity.
  intros i Hi. unfold callNodeOk.
  destruct i as [|[|[|i]]]; [left | left | right | simpl in Hi; lia];
    vm_compute; repeat split; congruence.
Qed.

Lemma sampleCallNodes_wf :
  SampleCallNodes_wf sampleCallNodeTable [Some 0; Some 2; None].
Proof.
  intros sample n Hn.
  destruct sample as [|[|[|sample]]]; simpl in Hn; simplify_eq; vm_compute;
    split; congruence.
Qed.

Lemma getCallNodeIndexFromPath_of_getCallNodePathFromIndex_witness :
  exists path,
    getCallNodePathFromIndex (Some 2)
      (callNodeTable (getCallNodeInfo sampleStackTable sampleFrameTable
                        sampleFuncTable 0)) = Some path /\
    getCallNodeIndexFromPath sampleHashPath path
      (callNodeTable (getCallNodeInfo sampleStackTable sampleFrameTable
                        sampleFuncTable 0)) = Some 2.
Proof.
  apply (getCallNodeIndexFromPath_of_getCallNodePathFromIndex sampleHashPath
           sampleStackTable sampleFrameTable sampleFuncTable 0 2
           sampleStackTable_wf sampleFrameRefs_wf).
  vm_compute. split; congruence.
Defined.

Lemma getCallNodeInfo_category_conflicts_witness :
  cn_category (callNodeTable (getCallNodeInfo sampleStackTable sampleFrameTable
                                sampleFuncTable 0)) !!! 0%nat = 0 /\
  cn_subcategory (callNodeTable (getCallNodeInfo sampleStackTable sampleFrameTable
                                   sampleFuncTable 0)) !!! 0%nat = 0.
Proof.
  refine (proj1 (getCallNodeInfo_category_conflicts sampleStackTable
                   sampleFrameTable sampleFuncTable 0 0 3
                   sampleStackTable_wf sampleCategories_int32 _ _ _) _).
  - vm_compute. lia.
  - vm_compute. lia.
  - vm_compute. reflexivity.
  - vm_compute. congruence.
Defined.

Lemma getTreeOrderComparator_strict_weak_order_witness :
  getTreeOrderComparator sampleCallNodeTable [Some 0; Some 2; None] 0 0 = Some 0.
Proof.
  refine (proj1 (getTreeOrderComparator_strict_weak_order sampleCallNodeTable
                   [Some 0; Some 2; None] 0 1 2
                   sampleCallNodeTable_wf sampleCallNodes_wf _ _ _)).
  - simpl. lia.
  - simpl. lia.
  - simpl. lia.
Defined.

(** ** The range filter *)

(** The binary search stops between [low] and [high], at an element that is
    not below [x] and just after one that is. *)
Lemma bisectionLeftLoop_spec (fuel : nat) (array : list Z) (x : Z) (low high : nat) :
  (low <= high)%nat -> (high - low <= fuel)%nat ->
  let r := bisectionLeftLoop fuel array x low high in
  (low <= r <= high)%nat /\
  ((r < high)%nat -> x <= array !!! r) /\
  ((low < r)%nat -> array !!! (r - 1)%nat < x).
Proof.
  revert low high.
  induction fuel as [|fuel IH]; intros low high Hle Hfuel; cbn [bisectionLeftLoop].
  - repeat split; lia.
  - case_decide as Hlt; [|repeat split; lia].
    set (mid := ((low + high) / 2)%nat).
    assert (low <= mid < high)%nat as Hmid.
    { subst mid.
      split; [apply Nat.div_le_lower_bound | apply Nat.Div0.div_lt_upper_bound]; lia. }
    clearbody mid.
    case_decide as Hx.
    + destruct (IH (mid + 1)%nat high ltac:(lia) ltac:(lia)) as (Hr & Hhi & Hlo).
      set (r := bisectionLeftLoop fuel array x (mid + 1) high) in *.
      split; [lia|]. split; [done|]. intros _.
      destruct (decide (r = mid + 1)%nat) as [->|Hne].
      * by replace (mid + 1 - 1)%nat with mid by lia.
      * apply Hlo. lia.
    + destruct (IH low mid ltac:(lia) ltac:(lia)) as (Hr & Hhi & Hlo).
      set (r := bisectionLeftLoop fuel array x low mid) in *.
      split; [lia|]. split; [|done]. intros _.
      destruct (decide (r = mid)) as [->|Hne]; [lia|].
      apply Hhi. lia.
Qed.

(** On sorted times the selected index range holds exactly the samples of
    the half-open interval. *)
Lemma getSampleIndexRangeForSelection_spec (time : list Z) (rangeStart rangeEnd : Z) :
  TimeSorted time ->
  let '(b, e) := getSampleIndexRangeForSelection time rangeStart rangeEnd in
  (b <= e <= length time)%nat /\
  forall i, (i < length time)%nat ->
    (b <= i < e)%nat <-> rangeStart <= time !!! i < rangeEnd.
Proof.
  intros Hsorted. unfold getSampleIndexRangeForSelection, bisectionLeft.
  destruct (bisectionLeftLoop_spec (length time) time rangeStart 0 (length time)
              ltac:(lia) ltac:(lia)) as (Hb & Hbhi & Hblo).
  set (b := bisectionLeftLoop (length time) time rangeStart 0 (length time)) in *.
  destruct (bisectionLeftLoop_spec (length time) time rangeEnd b (length time)
              ltac:(lia) ltac:(lia)) as (He & Hehi & Helo).
  set (e := bisectionLeftLoop (length time) time rangeEnd b (length time)) in *.
  split; [lia|]. intros i Hi.
  assert ((i < b)%nat -> time !!! i < rangeStart) as Hbefore.
  { intros Hib. pose proof (Hsorted i (b - 1)%nat ltac:(lia) ltac:(lia)).
    specialize (Hblo ltac:(lia)). lia. }
  assert ((b <= i)%nat -> rangeStart <= time !!! i) as Hfrom.
  { intros Hbi. pose proof (Hsorted b i ltac:(lia) ltac:(lia)).
    specialize (Hbhi ltac:(lia)). lia. }
  assert ((b <= i < e)%nat -> time !!! i < rangeEnd) as Hinside.
  { intros Hie. pose proof (Hsorted i (e - 1)%nat ltac:(lia) ltac:(lia)).
    specialize (Helo ltac:(lia)). lia. }
  assert ((e <= i)%nat -> rangeEnd <= time !!! i) as Hafter.
  { intros Hei. pose proof (Hsorted e i ltac:(lia) ltac:(lia)).
    specialize (Hehi ltac:(lia)). lia. }
  split.
  - intros Hbie. split; [apply Hfrom; lia | by apply Hinside].
  - intros [Hs He']. destruct (decide (i < b)%nat); [specialize (Hbefore ltac:(lia)); lia|].
    destruct (decide (e <= i)%nat); [specialize (Hafter ltac:(lia)); lia|]. lia.
Qed.

(** C6: on a samples table with sorted times, [filterThreadSamplesToRange]
    keeps the samples of an index range [b, e) that holds exactly the samples
    whose time is in [rangeStart, rangeEnd): a sample at [rangeStart] is kept
    (when the range is not empty), a sample at [rangeEnd] is dropped; every
    column of the new table is the slice [b, e) of the old column; and times
    0, 5, 10, 15 filtered to [5, 15) leave 5 and 10. *)
Theorem filterThreadSamplesToRange_half_open (thread : Thread)
    (rangeStart rangeEnd : Z) :
  TimeSorted (s_time (samples thread)) ->
  let old := samples thread in
  let new := samples (filterThreadSamplesToRange thread rangeStart rangeEnd) in
  (exists b e : nat,
     (b <= e <= length (s_time old))%nat /\
     (forall i, (i < length (s_time old))%nat ->
        (b <= i < e)%nat <-> rangeStart <= s_time old !!! i < rangeEnd) /\
     (forall i, (i < length (s_time old))%nat -> rangeStart < rangeEnd ->
        s_time old !!! i = rangeStart -> (b <= i < e)%nat) /\
     (forall i, (i < length (s_time old))%nat ->
        s_time old !!! i = rangeEnd -> ~ (b <= i < e)%nat) /\
     s_length new = (e - b)%nat /\
     s_time new = slice b e (s_time old) /\
     s_stack new = slice b e (s_stack old) /\
     s_weight new = slice b e <$> s_weight old /\
     s_eventDelay new = slice b e <$> s_eventDelay old /\
     s_responsiveness new =
       match s_eventDelay old with
       | Some _ => None
       | None => slice b e <$> s_responsiveness old
       end /\
     s_threadCPUDelta new = slice b e <$> s_threadCPUDelta old /\
     s_weightType new = s_weightType old) /\
  s_time (samples (filterThreadSamplesToRange sampleThread 5 15)) = [5; 10] /\
  s_stack (samples (filterThreadSamplesToRange sampleThread 5 15)) =
    [Some 1%nat; Some 0%nat].
Proof.
  intros Hsorted old new. split; [|split; vm_compute; reflexivity].
  pose proof (getSampleIndexRangeForSelection_spec (s_time old) rangeStart rangeEnd
                Hsorted) as Hspec.
  subst new. unfold filterThreadSamplesToRange. fold old.
  destruct (getSampleIndexRangeForSelection (s_time old) rangeStart rangeEnd)
    as [b e].
  destruct Hspec as [Hbe Hiff].
  exists b, e. simpl. split_and!; try done; try lia.
  - intros i Hi Hrange Ht. apply Hiff; [done | lia].
  - intros i Hi Ht Hin. apply Hiff in Hin; [lia | done].
Qed.

Lemma sampleSamples_sorted : TimeSorted (s_time (samples sampleThread)).
Proof.
  intros i j Hij Hj. simpl in Hj.
  destruct j as [|[|[|[|j]]]]; [| | | |lia];
    destruct i as [|[|[|[|i]]]]; try lia; vm_compute; congruence.
Qed.

Lemma filterThreadSamplesToRange_half_open_witness :
  s_time (samples (filterThreadSamplesToRange sampleThread 5 15)) = [5; 10].
Proof.
  exact (proj1 (proj2 (filterThreadSamplesToRange_half_open sampleThread 5 15
                         sampleSamples_sorted))).
Defined.

(** ** The timing aggregator *)

Lemma lookup_total_Some {A} (l : list (option A)) (i : nat) (x : A) :
  l !!! i = Some x -> l !! i = Some (Some x).
Proof.
  rewrite list_lookup_total_alt. destruct (l !! i) as [y|]; simpl; [by intros ->|].
  done.
Qed.

Lemma sumZ_snoc (l : list Z) (x : Z) : sumZ (l ++ [x]) = sumZ l + x.
Proof. unfold sumZ. induction l as [|y l IH]; simpl; lia. Qed.

Lemma sumZ_fmap_seq_S (f : nat -> Z) (k : nat) :
  sumZ (f <$> seq 0 (S k)) = sumZ (f <$> seq 0 k) + f k.
Proof. by rewrite seq_S, fmap_app, <- sumZ_snoc. Qed.

Lemma map_fold_sum_insert (m : gmap string Z) (k : string) (x : Z) :
  map_fold (fun _ v acc => v + acc) 0 (<[k := x]> m) =
    map_fold (fun _ v acc => v + acc) 0 m - default 0 (m !! k) + x.
Proof.
  assert (forall (m' : gmap string Z) y, m' !! k = None ->
            map_fold (fun _ v acc => v + acc) 0 (<[k := y]> m') =
              y + map_fold (fun _ v acc => v + acc) 0 m') as Hfresh.
  { intros m' y Hk.
    apply (map_fold_insert_L (fun (_ : string) v acc => v + acc)); [|done].
    intros; lia. }
  destruct (m !! k) as [old|] eqn:Hk; simpl.
  - rewrite <- (insert_delete_eq m k x).
    rewrite <- (insert_delete_id m k old Hk) at 2.
    rewrite !Hfresh by apply lookup_delete_eq. lia.
  - rewrite Hfresh by done. lia.
Qed.

Lemma sumZ_alter_category (f : CategoryBreakdown -> CategoryBreakdown) (d : Z)
    (l : list CategoryBreakdown) (k : nat) :
  (forall c, entireCategoryValue (f c) = entireCategoryValue c + d) ->
  (k < length l)%nat ->
  sumZ (entireCategoryValue <$> alter f k l) = sumZ (entireCategoryValue <$> l) + d.
Proof.
  intros Hf. revert k. induction l as [|c l IH]; intros k Hk; [simpl in Hk; lia|].
  destruct k as [|k]; simpl in Hk.
  - change (alter f 0%nat (c :: l)) with (f c :: l).
    rewrite !fmap_cons. unfold sumZ. simpl. rewrite Hf. lia.
  - change (alter f (S k) (c :: l)) with (c :: alter f k l).
    rewrite !fmap_cons. unfold sumZ in *. simpl. rewrite IH by lia. lia.
Qed.

Lemma sumZ_emptyCategoryBreakdown (categories : list Category) :
  sumZ (entireCategoryValue <$> emptyCategoryBreakdown categories) = 0.
Proof.
  unfold emptyCategoryBreakdown. induction categories as [|c l IH]; [done|].
  rewrite !fmap_cons. unfold sumZ in *. simpl. by rewrite IH.
Qed.

Section TimingsProofs.

Variable callNodeInfo : CallNodeInfo.
Variable isInvertedTree : bool.
Variable thread : Thread.
Variable unfilteredThread : Thread.
Variable sampleIndexOffset : nat.
Variable categories : list Category.
Variable samples_ : SamplesTable.
Variable unfilteredSamples : SamplesTable.

Hypothesis HwfT : StackTable_wf (stackTable thread).
Hypothesis HwfU : StackTable_wf (stackTable unfilteredThread).
Hypothesis HsT : Samples_wf (stackTable thread) samples_.
Hypothesis HsU : Samples_wf (stackTable unfilteredThread) unfilteredSamples.

Local Abbreviation accumulate :=
  (accumulateDataToTimings thread unfilteredThread sampleIndexOffset categories
     unfilteredSamples).
Local Abbreviation accumulateWhen :=
  (accumulateIf thread unfilteredThread sampleIndexOffset categories
     unfilteredSamples).
Local Abbreviation accumulated :=
  (Accumulated thread unfilteredThread sampleIndexOffset categories
     samples_ unfilteredSamples).
Local Abbreviation effect :=
  (TimingsEffect isInvertedTree thread unfilteredThread sampleIndexOffset
     categories samples_ unfilteredSamples).
Local Abbreviation walk :=
  (walkStack callNodeInfo isInvertedTree thread unfilteredThread
     sampleIndexOffset categories unfilteredSamples).
Local Abbreviation process :=
  (processSample callNodeInfo isInvertedTree thread unfilteredThread
     sampleIndexOffset categories samples_ unfilteredSamples).

(** The walk over the ancestors of an unfiltered stack ends. *)
Lemma findJsAncestorImplementation_ends (fuel : nat) (current : option nat) :
  (forall c, current = Some c ->
     (c < st_length (stackTable unfilteredThread))%nat /\ (c + 1 <= fuel)%nat) ->
  exists implementation,
    findJsAncestorImplementation thread unfilteredThread fuel current
      = Some implementation.
Proof.
  revert current. induction fuel as [|fuel IH]; intros [c|] Hc;
    try (by eexists).
  - destruct (Hc c eq_refl). lia.
  - destruct (Hc c eq_refl) as [Hlen Hfuel]. simpl.
    destruct (fn_isJS _ !!! _); [by eexists|].
    apply IH. intros p Hp.
    apply lookup_total_Some, (st_wf_order _ HwfU) in Hp. lia.
Qed.

Lemma getImplementationForStack_ends (sampleIndex : nat) :
  exists implementation,
    getImplementationForStack thread unfilteredThread sampleIndexOffset categories
      unfilteredSamples sampleIndex = Some implementation.
Proof.
  unfold getImplementationForStack.
  destruct (s_stack unfilteredSamples !!! _) as [stackIndex|] eqn:Hstack;
    [|by eexists].
  apply lookup_total_Some, HsU in Hstack.
  destruct (fn_isJS _ !!! _); [by eexists|].
  unfold getImplementationForNativeStack. case_decide; [by eexists|].
  apply findJsAncestorImplementation_ends. intros c [= <-]. lia.
Qed.

(** [accumulateDataToTimings] returns, and adds the duration to the value. *)
Lemma accumulateDataToTimings_value (timings : Timing) (sampleIndex stackIndex : nat)
    (duration : Z) :
  exists timings',
    accumulate timings sampleIndex stackIndex duration = Some timings' /\
    value timings' = value timings + duration.
Proof.
  unfold accumulateDataToTimings.
  destruct (getImplementationForStack_ends sampleIndex) as [implementation ->].
  simpl. by eexists.
Qed.

Lemma accumulateIf_effect (c : bool) (timings : Timing)
    (sampleIndex stackIndex : nat) (duration : Z) :
  (sampleIndex < s_length samples_)%nat ->
  duration = sampleWeight samples_ sampleIndex ->
  exists timings',
    accumulateWhen c timings sampleIndex stackIndex duration = Some timings' /\
    accumulated timings timings' /\
    value timings' = value timings + (if c then duration else 0) /\
    (c = false -> timings' = timings).
Proof.
  intros Hsample ->. destruct c; simpl.
  - destruct (accumulateDataToTimings_value timings sampleIndex stackIndex
                (sampleWeight samples_ sampleIndex))
      as (timings' & Hacc & Hvalue).
    exists timings'. split_and!; [done | | done | done].
    eapply Accumulated_step; [apply Accumulated_refl | done | exact Hacc].
  - exists timings. split_and!; [done | constructor | lia | done].
Qed.

Lemma Accumulated_trans (t1 t2 t3 : Timing) :
  accumulated t1 t2 -> accumulated t2 t3 -> accumulated t1 t3.
Proof.
  intros H12 H23. induction H23 as [|t2 t3 t4 i s _ IH Hi Hstep]; [done|].
  eapply Accumulated_step; [by apply IH | done | exact Hstep].
Qed.

Lemma sameBreakdowns_refl (t : Timing) : sameBreakdowns t t.
Proof. by split. Qed.

Lemma sameBreakdowns_trans (t1 t2 t3 : Timing) :
  sameBreakdowns t1 t2 -> sameBreakdowns t2 t3 -> sameBreakdowns t1 t3.
Proof. intros [? ?] [? ?]. split; congruence. Qed.

Lemma TimingsEffect_refl (st : TimingsState) : effect st st.
Proof.
  unfold TimingsEffect. split_and!; try constructor.
  destruct isInvertedTree; [apply sameBreakdowns_refl | constructor].
Qed.

Lemma TimingsEffect_trans (st1 st2 st3 : TimingsState) :
  effect st1 st2 -> effect st2 st3 -> effect st1 st3.
Proof.
  unfold TimingsEffect. intros (A1 & A2 & A3 & A4) (B1 & B2 & B3 & B4).
  split_and!; try (by eapply Accumulated_trans).
  destruct isInvertedTree;
    [by eapply sameBreakdowns_trans | by eapply Accumulated_trans].
Qed.

(** The walk over the stack of one sample ends; it leaves the root time
    alone, and when the tree is not inverted the two self times too. *)
Lemma walkStack_effect (fuel : nat) (needleNodeIndex needleFuncIndex : Z)
    (sampleIndex thisStackIndex : nat) (weight : Z) (current : option nat)
    (funcFound pathFound : bool) (st : TimingsState) :
  (sampleIndex < s_length samples_)%nat ->
  weight = sampleWeight samples_ sampleIndex ->
  (forall c, current = Some c ->
     (c < st_length (stackTable thread))%nat /\ (c + 1 <= fuel)%nat) ->
  exists st',
    walk fuel needleNodeIndex needleFuncIndex sampleIndex thisStackIndex weight
      current funcFound pathFound st = Some st' /\
    ts_rootTime st' = ts_rootTime st /\
    effect st st' /\
    (isInvertedTree = false ->
       selfTime (pathTimings st') = selfTime (pathTimings st) /\
       selfTime (funcTimings st') = selfTime (funcTimings st)).
Proof.
  intros Hsample Hweight. revert current funcFound pathFound st.
  induction fuel as [|fuel IH]; intros [c|] funcFound pathFound st Hc;
    try (exists st; split_and!; [done | done | apply TimingsEffect_refl | done]).
  - destruct (Hc c eq_refl). lia.
  - destruct (Hc c eq_refl) as [Hlen Hfuel]. cbn [walkStack].
    set (isNeedle := bool_decide (_ = needleNodeIndex)).
    set (sameFunc := bool_decide (_ = needleFuncIndex)).
    set (next := st_prefix (stackTable thread) !!! c).
    destruct (accumulateIf_effect (isNeedle && negb isInvertedTree)
                (totalTime (pathTimings st)) sampleIndex thisStackIndex weight Hsample Hweight)
      as (pathTotal & -> & Apath & _ & _).
    cbn [mbind option_bind].
    destruct (accumulateIf_effect (negb funcFound && sameFunc && negb isInvertedTree)
                (totalTime (funcTimings st)) sampleIndex thisStackIndex weight Hsample Hweight)
      as (funcTotal & -> & Afunc & _ & _).
    cbn [mbind option_bind].
    set (st1 := {| pathTimings := withTotalTime pathTotal (pathTimings st);
                   funcTimings := withTotalTime funcTotal (funcTimings st);
                   ts_rootTime := ts_rootTime st |}).
    assert (effect st st1) as Hst1.
    { unfold TimingsEffect. simpl. split_and!; [done | done | constructor |].
      destruct isInvertedTree; [apply sameBreakdowns_refl | constructor]. }
    destruct (negb isInvertedTree && (funcFound || negb funcFound && sameFunc)
              && (pathFound || isNeedle)) eqn:Hdone.
    { exists st1. split_and!; [done | done | done | done]. }
    destruct (isInvertedTree && bool_decide (next = None)) eqn:Hroot.
    + apply andb_prop in Hroot as [Hinv _].
      destruct (accumulateIf_effect sameFunc (selfTime (funcTimings st1))
                  sampleIndex c weight Hsample Hweight) as (funcSelf & -> & Afs & _ & _).
      cbn [mbind option_bind].
      destruct (accumulateIf_effect (pathFound || isNeedle)
                  (totalTime (pathTimings st1)) sampleIndex c weight Hsample Hweight)
        as (pathTotal' & -> & Apt & _ & _).
      cbn [mbind option_bind].
      destruct (accumulateIf_effect (funcFound || negb funcFound && sameFunc)
                  (totalTime (funcTimings st1)) sampleIndex c weight Hsample Hweight)
        as (funcTotal' & -> & Aft & _ & _).
      cbn [mbind option_bind].
      eexists. split_and!; [done | done | | by rewrite Hinv].
      unfold TimingsEffect. simpl. rewrite Hinv.
      split_and!;
        [by eapply Accumulated_trans | by eapply Accumulated_trans | done |].
      destruct isNeedle; [by split | apply sameBreakdowns_refl].
    + destruct (IH next (funcFound || negb funcFound && sameFunc)
                  (pathFound || isNeedle) st1) as (st' & -> & Hroot' & Heff & Hself).
      { intros p Hp. apply lookup_total_Some, (st_wf_order _ HwfT) in Hp. lia. }
      exists st'. split_and!; [done | done | by eapply TimingsEffect_trans | done].
Qed.

(** A property that [accumulateDataToTimings] keeps is kept by any number of
    its calls. *)
Lemma Accumulated_preserves (P : Timing -> Prop) (t t' : Timing) :
  (forall t1 t2 i s d, (i < s_length samples_)%nat -> P t1 ->
     accumulate t1 i s d = Some t2 -> P t2) ->
  accumulated t t' -> P t -> P t'.
Proof.
  intros Hstep Hacc Ht.
  induction Hacc as [|t t' t'' i s _ IH Hi Hcall]; [done|].
  eapply Hstep; [exact Hi | by apply IH | exact Hcall].
Qed.

(** What one call of [accumulateDataToTimings] does: the duration is added
    to the value and to the sum of the implementation breakdown, which is
    allocated; the category breakdown is allocated too when the sample has a
    stack in the unfiltered samples. *)
Lemma accumulateDataToTimings_breakdowns (timings timings' : Timing)
    (sampleIndex stackIndex : nat) (duration : Z) :
  accumulate timings sampleIndex stackIndex duration = Some timings' ->
  value timings' = value timings + duration /\
  implementationTotal timings' = implementationTotal timings + duration /\
  is_Some (breakdownByImplementation timings') /\
  (is_Some (s_stack unfilteredSamples !!! (sampleIndex + sampleIndexOffset)%nat) ->
   is_Some (breakdownByCategory timings')).
Proof.
  unfold accumulateDataToTimings.
  destruct (getImplementationForStack _ _ _ _ _ _) as [implementation|]; [|done].
  simpl. intros [= <-]. simpl. split_and!; [done | | by eexists |].
  - unfold implementationTotal, addToImplementationBreakdown. simpl.
    rewrite map_fold_sum_insert.
    destruct (breakdownByImplementation timings) as [m|]; simpl; [lia|].
    rewrite lookup_empty, map_fold_empty. simpl. lia.
  - intros [u ->]. by eexists.
Qed.

Lemma accumulateDataToTimings_implementationAccounted (t1 t2 : Timing)
    (i s : nat) (d : Z) :
  implementationAccounted t1 -> accumulate t1 i s d = Some t2 ->
  implementationAccounted t2.
Proof.
  unfold implementationAccounted. intros Ht1 Hcall.
  apply accumulateDataToTimings_breakdowns in Hcall as (Hv & Hi & _). lia.
Qed.

Lemma accumulateDataToTimings_categoryAccounted (t1 t2 : Timing)
    (i s : nat) (d : Z) :
  CategoriesResolved unfilteredThread sampleIndexOffset categories samples_
    unfilteredSamples ->
  (i < s_length samples_)%nat ->
  categoryAccounted categories t1 -> accumulate t1 i s d = Some t2 ->
  categoryAccounted categories t2.
Proof.
  intros Hresolved Hi [Hlen Hvalue]. unfold accumulateDataToTimings.
  destruct (getImplementationForStack _ _ _ _ _ _) as [implementation|]; [|done].
  simpl. destruct (Hresolved i Hi) as (u & -> & Hcat).
  intros [= <-]. unfold categoryAccounted, categoryTotal, addToCategoryBreakdown.
  simpl.
  set (b := default (emptyCategoryBreakdown categories) (breakdownByCategory t1)).
  assert (length b = length categories) as Hb.
  { subst b. destruct (breakdownByCategory t1) as [l|]; simpl; [by apply Hlen|].
    unfold emptyCategoryBreakdown. by rewrite length_fmap. }
  assert (categoryTotal t1 = sumZ (entireCategoryValue <$> b)) as Htotal.
  { subst b. unfold categoryTotal.
    destruct (breakdownByCategory t1) as [l|]; simpl; [done|].
    by rewrite sumZ_emptyCategoryBreakdown. }
  split.
  - intros l [= <-]. by rewrite length_alter.
  - rewrite (sumZ_alter_category _ d) by (done || lia). lia.
Qed.

(** The processing of one sample ends; it adds [|weight|] to the root time
    when the sample has a stack, and, when the tree is not inverted, the
    weight to the value of the path's self time when the sample's stack is
    resolved to the needle. *)
Lemma processSample_effect (needleNodeIndex needleFuncIndex : Z)
    (st : TimingsState) (i : nat) :
  (i < s_length samples_)%nat ->
  exists st',
    process needleNodeIndex needleFuncIndex st i = Some st' /\
    effect st st' /\
    ts_rootTime st' + rootTimeOf samples_ i =
      ts_rootTime st + rootTimeOf samples_ (S i) /\
    (isInvertedTree = false ->
       value (selfTime (pathTimings st'))
         + selfTimeOf callNodeInfo samples_ needleNodeIndex i =
       value (selfTime (pathTimings st))
         + selfTimeOf callNodeInfo samples_ needleNodeIndex (S i)).
Proof.
  intros Hi. unfold processSample, rootTimeOf, selfTimeOf.
  rewrite !sumZ_fmap_seq_S.
  destruct (s_stack samples_ !!! i) as [thisStackIndex|] eqn:Hstack.
  - pose proof (HsT i thisStackIndex (lookup_total_Some _ _ _ Hstack)) as Hrange.
    fold (sampleWeight samples_ i).
    set (leaf := bool_decide (_ = needleNodeIndex)).
    set (sameFunc := bool_decide (_ = needleFuncIndex)).
    destruct (accumulateIf_effect (negb isInvertedTree && leaf)
                (selfTime (pathTimings st)) i thisStackIndex
                (sampleWeight samples_ i) Hi eq_refl)
      as (pathSelf & -> & Aps & Vps & Eps).
    cbn [mbind option_bind].
    destruct (accumulateIf_effect (negb isInvertedTree && sameFunc)
                (selfTime (funcTimings st)) i thisStackIndex
                (sampleWeight samples_ i) Hi eq_refl)
      as (funcSelf & -> & Afs & _ & _).
    cbn [mbind option_bind].
    set (st1 := {| pathTimings := withSelfTime pathSelf (pathTimings st);
                   funcTimings := withSelfTime funcSelf (funcTimings st);
                   ts_rootTime := ts_rootTime st + Z.abs (sampleWeight samples_ i) |}).
    destruct (walkStack_effect (st_length (stackTable thread)) needleNodeIndex
                needleFuncIndex i thisStackIndex (sampleWeight samples_ i)
                (Some thisStackIndex) false false st1 Hi eq_refl)
      as (st' & -> & Hroot & Heff & Hself).
    { intros c [= <-]. lia. }
    exists st'. split_and!; [done | | |].
    + eapply TimingsEffect_trans; [|exact Heff].
      unfold TimingsEffect. simpl. split_and!; [constructor | constructor | done |].
      destruct isInvertedTree eqn:Hinv; [|done].
      rewrite Eps by done. apply sameBreakdowns_refl.
    + rewrite Hroot. simpl. lia.
    + intros Hinv. destruct (Hself Hinv) as [-> _]. simpl. rewrite Vps, Hinv. simpl.
      unfold leaf. case_bool_decide; case_decide; (done || lia).
  - exists st. split_and!; [done | apply TimingsEffect_refl | lia | intros _; lia].
Qed.

(** The loop over the samples ends after any number [k] of samples. *)
Lemma processSamples_effect (needleNodeIndex needleFuncIndex : Z) (k : nat) :
  (k <= s_length samples_)%nat ->
  exists st,
    foldl (fun acc sampleIndex =>
             st ← acc; process needleNodeIndex needleFuncIndex st sampleIndex)
      (Some initialTimingsState) (seq 0 k) = Some st /\
    effect initialTimingsState st /\
    ts_rootTime st = rootTimeOf samples_ k /\
    (isInvertedTree = false ->
       value (selfTime (pathTimings st))
         = selfTimeOf callNodeInfo samples_ needleNodeIndex k).
Proof.
  intros Hk.
  apply (foldl_seq_invariant
           (fun k acc => exists st,
              acc = Some st /\ effect initialTimingsState st /\
              ts_rootTime st = rootTimeOf samples_ k /\
              (isInvertedTree = false ->
                 value (selfTime (pathTimings st))
                   = selfTimeOf callNodeInfo samples_ needleNodeIndex k))).
  - exists initialTimingsState.
    split_and!; [done | apply TimingsEffect_refl | done | done].
  - intros i acc Hi (st & -> & Heff & Hroot & Hself). cbn [mbind option_bind].
    destruct (processSample_effect needleNodeIndex needleFuncIndex st i ltac:(lia))
      as (st' & -> & Heff' & Hroot' & Hself').
    exists st'. split_and!; [done | by eapply TimingsEffect_trans | lia |].
    intros Hinv. specialize (Hself Hinv). specialize (Hself' Hinv). lia.
Qed.

End TimingsProofs.

Lemma sumZ_alter (l : list Z) (k : nat) (d : Z) :
  (k < length l)%nat -> sumZ (alter (fun v => v + d) k l) = sumZ l + d.
Proof.
  revert k. induction l as [|x l IH]; intros k Hk; [simpl in Hk; lia|].
  destruct k as [|k]; simpl in Hk.
  - change (alter (fun v => v + d) 0%nat (x :: l)) with ((x + d) :: l).
    unfold sumZ. simpl. lia.
  - change (alter (fun v => v + d) (S k) (x :: l))
      with (x :: alter (fun v => v + d) k l).
    unfold sumZ in *. simpl. rewrite IH by lia. lia.
Qed.

Lemma sumZ_replicate_0 (n : nat) : sumZ (replicate n 0) = 0.
Proof. induction n as [|n IH]; [done|]. unfold sumZ in *. simpl. by rewrite IH. Qed.

Lemma emptyCategoryBreakdown_shaped (categories : list Category) :
  BreakdownShaped categories (emptyCategoryBreakdown categories).
Proof.
  unfold BreakdownShaped, emptyCategoryBreakdown.
  apply Forall2_fmap_r, Forall_Forall2_diag, Forall_forall.
  intros category _. simpl. apply length_replicate.
Qed.

Section TimingsBreakdowns.

Variable callNodeInfo : CallNodeInfo.
Variable isInvertedTree : bool.
Variable thread : Thread.
Variable unfilteredThread : Thread.
Variable sampleIndexOffset : nat.
Variable categories : list Category.
Variable samples_ : SamplesTable.
Variable unfilteredSamples : SamplesTable.

Hypothesis Hin :
  TimingsInput_wf callNodeInfo thread unfilteredThread sampleIndexOffset
    categories samples_ unfilteredSamples.

Local Abbreviation accumulate :=
  (accumulateDataToTimings thread unfilteredThread sampleIndexOffset categories
     unfilteredSamples).
Local Abbreviation accumulatesData :=
  (AccumulatesData thread unfilteredThread sampleIndexOffset categories
     unfilteredSamples).
Local Abbreviation accumulated :=
  (Accumulated thread unfilteredThread sampleIndexOffset categories
     samples_ unfilteredSamples).

(** The category breakdown that step 5 works on has the shape of the
    category list. *)
Lemma categoryBreakdown_shaped (timings : Timing) :
  TimingShaped categories timings ->
  BreakdownShaped categories
    (default (emptyCategoryBreakdown categories) (breakdownByCategory timings)).
Proof.
  intros Hshaped. destruct (breakdownByCategory timings) as [l|] eqn:Hl; simpl.
  - by apply Hshaped.
  - apply emptyCategoryBreakdown_shaped.
Qed.

Lemma addToCategoryBreakdown_added (categoryIndex subcategoryIndex : Z)
    (duration : Z) (category : Category) (before : option (list CategoryBreakdown)) :
  (forall l, before = Some l -> BreakdownShaped categories l) ->
  0 <= categoryIndex ->
  categories !! Z.to_nat categoryIndex = Some category ->
  0 <= subcategoryIndex < Z.of_nat (length (cat_subcategories category)) ->
  CategoryAdded categories (Z.to_nat categoryIndex) (Z.to_nat subcategoryIndex)
    duration before
    (addToCategoryBreakdown categories categoryIndex subcategoryIndex duration before).
Proof.
  intros Hshaped Hc Hcategory Hs.
  unfold CategoryAdded, addToCategoryBreakdown.
  set (b := default (emptyCategoryBreakdown categories) before).
  assert (BreakdownShaped categories b) as Hb.
  { subst b. destruct before as [l|]; simpl; [by apply Hshaped|].
    apply emptyCategoryBreakdown_shaped. }
  destruct (Forall2_lookup_l _ _ _ _ _ Hb Hcategory) as (row & Hrow & Hlen).
  assert (Z.to_nat subcategoryIndex < length (subcategoryBreakdown row))%nat as Hcell.
  { rewrite Hlen. lia. }
  destruct (lookup_lt_is_Some_2 _ _ Hcell) as [w Hw].
  eexists. split; [reflexivity|]. split_and!.
  - apply Forall2_alter_r; [done|]. intros x y _ _ Hxy. simpl.
    by rewrite length_alter.
  - exists (entireCategoryValue row), w. unfold categoryValueAt, subcategoryValueAt.
    rewrite !list_lookup_alter_eq, Hrow. simpl.
    rewrite list_lookup_alter_eq, Hw. done.
  - intros c Hne. by apply list_lookup_alter_ne.
  - intros s Hne. unfold subcategoryValueAt.
    rewrite list_lookup_alter_eq, Hrow. simpl.
    by apply list_lookup_alter_ne.
Qed.

(** The reads of [accumulateDataToTimings] for a sample of the table are
    inside the arrays. *)
Lemma unfilteredStack_category (sampleIndex u : nat) :
  (sampleIndex < s_length samples_)%nat ->
  s_stack unfilteredSamples !!! (sampleIndex + sampleIndexOffset)%nat = Some u ->
  exists category,
    0 <= st_category (stackTable unfilteredThread) !!! u /\
    categories !! Z.to_nat (st_category (stackTable unfilteredThread) !!! u)
      = Some category /\
    0 <= st_subcategory (stackTable unfilteredThread) !!! u
      < Z.of_nat (length (cat_subcategories category)).
Proof.
  intros Hi Hu. apply (ti_categories _ _ _ _ _ _ _ Hin sampleIndex u Hi).
  by apply lookup_total_Some.
Qed.

(** One call of [accumulateDataToTimings] for a sample of the table returns,
    and adds the duration to the value, to the entry of the sample's
    implementation and, when the sample has a stack in the unfiltered
    samples, to the values of the category and the subcategory of that
    stack. *)
Lemma accumulateDataToTimings_accumulates (timings : Timing)
    (sampleIndex stackIndex : nat) (duration : Z) :
  (sampleIndex < s_length samples_)%nat ->
  TimingShaped categories timings ->
  exists timings',
    accumulate timings sampleIndex stackIndex duration = Some timings' /\
    accumulatesData sampleIndex duration timings timings'.
Proof.
  intros Hi Hshaped. unfold accumulateDataToTimings.
  destruct (getImplementationForStack_ends thread unfilteredThread sampleIndexOffset
              categories unfilteredSamples
              (ti_unfilteredStackTable _ _ _ _ _ _ _ Hin)
              (ti_unfilteredSamples _ _ _ _ _ _ _ Hin) sampleIndex)
    as [implementation Himpl].
  rewrite Himpl. simpl. eexists. split; [reflexivity|].
  unfold AccumulatesData. simpl. split_and!; [done | |].
  - exists implementation. split; [done|].
    unfold ImplementationAdded, addToImplementationBreakdown.
    eexists. split; [reflexivity|]. split.
    + by rewrite lookup_insert_eq.
    + intros other Hne. by rewrite lookup_insert_ne.
  - destruct (s_stack unfilteredSamples !!! _) as [u|] eqn:Hu; [|done].
    destruct (unfilteredStack_category sampleIndex u Hi Hu)
      as (category & Hc & Hcategory & Hs).
    by eapply addToCategoryBreakdown_added.
Qed.

Lemma accumulateDataToTimings_shaped (t1 t2 : Timing) (i s : nat) (d : Z) :
  (i < s_length samples_)%nat ->
  TimingShaped categories t1 -> accumulate t1 i s d = Some t2 ->
  TimingShaped categories t2.
Proof.
  intros Hi Hshaped Hcall.
  destruct (accumulateDataToTimings_accumulates t1 i s d Hi Hshaped)
    as (t2' & Hcall' & _ & _ & Hcat).
  rewrite Hcall in Hcall'. injection Hcall' as <-.
  intros l Hl.
  destruct (s_stack unfilteredSamples !!! _) as [u|].
  - destruct Hcat as (l' & Hl' & Hshape & _). congruence.
  - rewrite Hcat in Hl. by apply Hshaped.
Qed.

(** The value of each category stays the sum of the values of its
    subcategories. *)
Lemma accumulateDataToTimings_subcategories (t1 t2 : Timing) (i s : nat) (d : Z) :
  (i < s_length samples_)%nat ->
  TimingShaped categories t1 ->
  (forall l row, breakdownByCategory t1 = Some l -> row ∈ l ->
     entireCategoryValue row = sumZ (subcategoryBreakdown row)) ->
  accumulate t1 i s d = Some t2 ->
  forall l row, breakdownByCategory t2 = Some l -> row ∈ l ->
    entireCategoryValue row = sumZ (subcategoryBreakdown row).
Proof.
  intros Hi Hshaped Hsums. unfold accumulateDataToTimings.
  destruct (getImplementationForStack _ _ _ _ _ _) as [implementation|]; [|done].
  simpl. intros [= <-]. simpl.
  destruct (s_stack unfilteredSamples !!! _) as [u|] eqn:Hu; [|done].
  destruct (unfilteredStack_category i u Hi Hu) as (category & Hc & Hcategory & Hs).
  pose proof (categoryBreakdown_shaped t1 Hshaped) as Hb.
  unfold addToCategoryBreakdown.
  set (b := default (emptyCategoryBreakdown categories) (breakdownByCategory t1)) in *.
  assert (forall row, row ∈ b ->
            entireCategoryValue row = sumZ (subcategoryBreakdown row)) as Hbsums.
  { subst b. destruct (breakdownByCategory t1) as [l0|] eqn:Hl0; simpl.
    - intros row Hrow. by eapply Hsums.
    - intros row Hrow. unfold emptyCategoryBreakdown in Hrow.
      apply list_elem_of_fmap in Hrow as (c & -> & _). simpl.
      by rewrite sumZ_replicate_0. }
  intros l row [= <-] Hrow.
  apply list_elem_of_lookup in Hrow as [c Hrow].
  rewrite list_lookup_alter in Hrow. case_decide as Heq.
  - subst c. destruct (b !! Z.to_nat _) as [row0|] eqn:Hrow0; [|done].
    simpl in Hrow. injection Hrow as <-. simpl.
    pose proof (Forall2_lookup_lr _ _ _ _ _ _ Hb Hcategory Hrow0) as Hlen.
    simpl in Hlen.
    rewrite sumZ_alter by lia.
    rewrite (Hbsums row0); [done|]. by eapply list_elem_of_lookup_2.
  - apply Hbsums. by eapply list_elem_of_lookup_2.
Qed.

Lemma accumulateDataToTimings_accounted (t1 t2 : Timing) (i s : nat) (d : Z) :
  (i < s_length samples_)%nat ->
  BreakdownsAccounted categories t1 -> accumulate t1 i s d = Some t2 ->
  BreakdownsAccounted categories t2.
Proof.
  intros Hi (Himpl & Hshaped & Hsums) Hcall. split_and!.
  - by eapply (accumulateDataToTimings_implementationAccounted thread unfilteredThread
                 sampleIndexOffset categories unfilteredSamples).
  - by eapply accumulateDataToTimings_shaped.
  - by eapply accumulateDataToTimings_subcategories.
Qed.

Lemma emptyTiming_accounted : BreakdownsAccounted categories emptyTiming.
Proof. split_and!; [reflexivity | done | done]. Qed.

Lemma Accumulated_accounted (t : Timing) :
  accumulated emptyTiming t -> BreakdownsAccounted categories t.
Proof.
  intros Hacc.
  eapply (Accumulated_preserves thread unfilteredThread sampleIndexOffset
            categories samples_ unfilteredSamples (BreakdownsAccounted categories));
    [|exact Hacc|apply emptyTiming_accounted].
  intros t1 t2 i s d Hi. by apply accumulateDataToTimings_accounted.
Qed.

End TimingsBreakdowns.

(** C4: for a tree that is not inverted, tables that fit together and a
    needle that is a call node of the table, [getTimingsForCallNodeIndex]
    returns timings whose root time is the sum of [|weight|] over the samples
    that have a stack (the weight is 1 when the table has no weights), and
    whose path self time is the sum of the weights of the samples whose
    stack is resolved to the needle; for three samples of weight 1 with
    stacks A, B, A the self time of A is 2 and the root time is 3. *)
Theorem getTimingsForCallNodeIndex_self_and_root_time (callNodeInfo : CallNodeInfo)
    (thread unfilteredThread : Thread) (sampleIndexOffset : nat)
    (categories : list Category) (samples_ unfilteredSamples : SamplesTable)
    (needleNodeIndex : Z) :
  TimingsInput_wf callNodeInfo thread unfilteredThread sampleIndexOffset
    categories samples_ unfilteredSamples ->
  0 <= needleNodeIndex < Z.of_nat (length (cn_func (callNodeTable callNodeInfo))) ->
  (exists timings,
     getTimingsForCallNodeIndex callNodeInfo false thread unfilteredThread
       sampleIndexOffset categories samples_ unfilteredSamples
       (Some needleNodeIndex) = Some timings /\
     rootTime timings = rootTimeOf samples_ (s_length samples_) /\
     value (selfTime (forPath timings)) =
       selfTimeOf callNodeInfo samples_ needleNodeIndex (s_length samples_)) /\
  (fun timings => (value (selfTime (forPath timings)), rootTime timings)) <$>
    getTimingsForCallNodeIndex sampleCallNodeInfo false abaThread abaThread 0
      sampleCategories abaSamples abaSamples (Some 0) = Some (2, 3).
Proof.
  intros Hin _. split; [|vm_compute; reflexivity].
  unfold getTimingsForCallNodeIndex.
  destruct (processSamples_effect callNodeInfo false thread unfilteredThread
              sampleIndexOffset categories samples_ unfilteredSamples
              (ti_stackTable _ _ _ _ _ _ _ Hin)
              (ti_unfilteredStackTable _ _ _ _ _ _ _ Hin)
              (ti_samples _ _ _ _ _ _ _ Hin)
              (ti_unfilteredSamples _ _ _ _ _ _ _ Hin) needleNodeIndex
              (cn_func (callNodeTable callNodeInfo) !!! Z.to_nat needleNodeIndex)
              (s_length samples_) (le_n _))
    as (st & -> & _ & Hroot & Hself).
  exists (timingsOfState st). split_and!; [done | done | by apply Hself].
Qed.

(** C5, evaluated: in the inverted tree of the three samples A, B, A, the
    self time of the path of A has the value 2 while its two breakdowns are
    still [null]. *)
Lemma inverted_path_self_time_has_no_breakdowns :
  (fun timings => selfTime (forPath timings)) <$>
    getTimingsForCallNodeIndex sampleCallNodeInfo true abaThread abaThread 0
      sampleCategories abaSamples abaSamples (Some 0)
  = Some {| value := 2; breakdownByImplementation := None;
            breakdownByCategory := None |}.
Proof. vm_compute. reflexivity. Qed.

(** C5, amended: for tables that fit together, every call of
    [accumulateDataToTimings] for a sample of the table returns and adds the
    duration to the value, to the entry of the sample's implementation in
    the implementation breakdown and, when the sample has a stack in the
    unfiltered samples, to the value of that stack's category and to the
    value of its subcategory in the category breakdown, changing nothing
    else.  In the timings that [getTimingsForCallNodeIndex] returns, the
    path's total time and the function's self and total time are changed by
    such calls only; their value is the sum of their implementation
    breakdown, the value of every category is the sum of the values of its
    subcategories, and the value is the sum over the categories when every
    sample has a stack in the unfiltered samples.  So is the path's self time
    when the tree is not inverted; when it is, the path's self time has no
    breakdowns. *)
Theorem getTimingsForCallNodeIndex_breakdowns (callNodeInfo : CallNodeInfo)
    (isInvertedTree : bool) (thread unfilteredThread : Thread)
    (sampleIndexOffset : nat) (categories : list Category)
    (samples_ unfilteredSamples : SamplesTable) (needleNodeIndex : Z) :
  TimingsInput_wf callNodeInfo thread unfilteredThread sampleIndexOffset
    categories samples_ unfilteredSamples ->
  0 <= needleNodeIndex < Z.of_nat (length (cn_func (callNodeTable callNodeInfo))) ->
  (forall timings sampleIndex stackIndex duration,
     (sampleIndex < s_length samples_)%nat ->
     TimingShaped categories timings ->
     exists timings',
       accumulateDataToTimings thread unfilteredThread sampleIndexOffset categories
         unfilteredSamples timings sampleIndex stackIndex duration = Some timings' /\
       AccumulatesData thread unfilteredThread sampleIndexOffset categories
         unfilteredSamples sampleIndex duration timings timings') /\
  exists timings,
    getTimingsForCallNodeIndex callNodeInfo isInvertedTree thread unfilteredThread
      sampleIndexOffset categories samples_ unfilteredSamples
      (Some needleNodeIndex) = Some timings /\
    let accounted := fun t =>
      Accumulated thread unfilteredThread sampleIndexOffset categories
        samples_ unfilteredSamples emptyTiming t /\
      BreakdownsAccounted categories t /\
      (CategoriesResolved unfilteredThread sampleIndexOffset categories samples_
         unfilteredSamples -> categoryAccounted categories t) in
    accounted (totalTime (forPath timings)) /\
    accounted (selfTime (forFunc timings)) /\
    accounted (totalTime (forFunc timings)) /\
    if isInvertedTree
    then breakdownByImplementation (selfTime (forPath timings)) = None /\
         breakdownByCategory (selfTime (forPath timings)) = None
    else accounted (selfTime (forPath timings)).
Proof.
  intros Hin _. split.
  { intros timings sampleIndex stackIndex duration.
    by apply (accumulateDataToTimings_accumulates callNodeInfo). }
  unfold getTimingsForCallNodeIndex.
  destruct (processSamples_effect callNodeInfo isInvertedTree thread unfilteredThread
              sampleIndexOffset categories samples_ unfilteredSamples
              (ti_stackTable _ _ _ _ _ _ _ Hin)
              (ti_unfilteredStackTable _ _ _ _ _ _ _ Hin)
              (ti_samples _ _ _ _ _ _ _ Hin)
              (ti_unfilteredSamples _ _ _ _ _ _ _ Hin) needleNodeIndex
              (cn_func (callNodeTable callNodeInfo) !!! Z.to_nat needleNodeIndex)
              (s_length samples_) (le_n _))
    as (st & -> & (Apt & Aft & Afs & Aps) & _ & _).
  exists (timingsOfState st). simpl in *.
  assert (forall t, Accumulated thread unfilteredThread sampleIndexOffset categories
                      samples_ unfilteredSamples emptyTiming t ->
            Accumulated thread unfilteredThread sampleIndexOffset categories
              samples_ unfilteredSamples emptyTiming t /\
            BreakdownsAccounted categories t /\
            (CategoriesResolved unfilteredThread sampleIndexOffset categories samples_
               unfilteredSamples -> categoryAccounted categories t)) as Hacc.
  { intros t Hacc. split_and!; [done | |].
    - by apply (Accumulated_accounted callNodeInfo thread unfilteredThread
                  sampleIndexOffset categories samples_ unfilteredSamples).
    - intros Hresolved.
      eapply (Accumulated_preserves thread unfilteredThread sampleIndexOffset
                categories samples_ unfilteredSamples (categoryAccounted categories));
        [|exact Hacc|by split].
      intros t1 t2 i s d Hi.
      by apply (accumulateDataToTimings_categoryAccounted thread unfilteredThread
                  sampleIndexOffset categories samples_). }
  split; [done|]. cbv zeta beta.
  split; [by apply Hacc|]. split; [by apply Hacc|]. split; [by apply Hacc|].
  destruct isInvertedTree; [by destruct Aps | by apply Hacc].
Qed.

Lemma abaSamples_wf : Samples_wf (stackTable abaThread) abaSamples.
Proof.
  intros i s Hs.
  destruct i as [|[|[|i]]]; simpl in Hs; simplify_eq; vm_compute; lia.
Qed.

Lemma abaTimingsInput_wf :
  TimingsInput_wf sampleCallNodeInfo abaThread abaThread 0 sampleCategories
    abaSamples abaSamples.
Proof.
  constructor.
  - apply sampleStackTable_wf.
  - apply sampleStackTable_wf.
  - apply abaSamples_wf.
  - apply abaSamples_wf.
  - reflexivity.
  - by intros weights [= <-].
  - by vm_compute.
  - simpl. lia.
  - reflexivity.
  - intros s Hs. simpl in Hs.
    destruct s as [|[|[|[|[|s]]]]]; [by vm_compute.. | lia].
  - apply sampleFrameRefs_wf.
  - reflexivity.
  - reflexivity.
  - intros frame index Hframe. by destruct frame as [|[|[|frame]]].
  - intros i u Hi Hu. simpl in Hi.
    destruct i as [|[|[|i]]]; [| | | lia]; simpl in Hu; injection Hu as <-;
      (eexists; split; [|split; [reflexivity|]]; by vm_compute).
Qed.

Lemma getTimingsForCallNodeIndex_self_and_root_time_witness :
  exists timings,
    getTimingsForCallNodeIndex sampleCallNodeInfo false abaThread abaThread 0
      sampleCategories abaSamples abaSamples (Some 0) = Some timings /\
    rootTime timings = rootTimeOf abaSamples (s_length abaSamples) /\
    value (selfTime (forPath timings)) =
      selfTimeOf sampleCallNodeInfo abaSamples 0 (s_length abaSamples).
Proof.
  refine (proj1 (getTimingsForCallNodeIndex_self_and_root_time sampleCallNodeInfo
                   abaThread abaThread 0 sampleCategories abaSamples abaSamples 0
                   abaTimingsInput_wf _)).
  by vm_compute.
Defined.

Lemma getTimingsForCallNodeIndex_breakdowns_witness :
  exists timings,
    getTimingsForCallNodeIndex sampleCallNodeInfo true abaThread abaThread 0
      sampleCategories abaSamples abaSamples (Some 0) = Some timings /\
    BreakdownsAccounted sampleCategories (totalTime (forPath timings)) /\
    BreakdownsAccounted sampleCategories (selfTime (forFunc timings)) /\
    BreakdownsAccounted sampleCategories (totalTime (forFunc timings)) /\
    breakdownByImplementation (selfTime (forPath timings)) = None /\
    breakdownByCategory (selfTime (forPath timings)) = None.
Proof.
  assert (0 <= 0 < Z.of_nat (length (cn_func (callNodeTable sampleCallNodeInfo))))
    as Hneedle by (by vm_compute).
  destruct (getTimingsForCallNodeIndex_breakdowns sampleCallNodeInfo true
              abaThread abaThread 0 sampleCategories abaSamples abaSamples 0
              abaTimingsInput_wf Hneedle)
    as (_ & timings & Htimings & (_ & Hpt & _) & (_ & Hfs & _) & (_ & Hft & _) & Hps).
  exists timings. destruct Hps as [Hi Hc]. by split_and!.
Defined.

(** ** Event delays *)






(** ** Every stack has a call node *)

(** X1: [getCallNodeInfo] on a well-formed stack table resolves every stack
    to a call node of the table it returns, every call node of that table is
    the call node of some stack, there are no more call nodes than stacks
    and the six columns have one entry per call node. *)
Theorem getCallNodeInfo_resolves_every_stack (stackTable : StackTable)
    (frameTable : FrameTable) (funcTable : FuncTable) (defaultCategory : Z) :
  StackTable_wf stackTable ->
  let info := getCallNodeInfo stackTable frameTable funcTable defaultCategory in
  let t := callNodeTable info in
  length (stackIndexToCallNodeIndex info) = st_length stackTable /\
  (cn_length t <= st_length stackTable)%nat /\
  (forall j, (j < st_length stackTable)%nat ->
     0 <= stackIndexToCallNodeIndex info !!! j < Z.of_nat (cn_length t)) /\
  (forall n, (n < cn_length t)%nat ->
     exists j, (j < st_length stackTable)%nat /\
               stackIndexToCallNodeIndex info !!! j = Z.of_nat n) /\
  length (cn_prefix t) = cn_length t /\
  length (cn_func t) = cn_length t /\
  length (cn_category t) = cn_length t /\
  length (cn_subcategory t) = cn_length t /\
  length (cn_innerWindowID t) = cn_length t /\
  length (cn_depth t) = cn_length t.
Proof.
  intros Hwf info t.
  pose proof (buildCallNodes_inv stackTable frameTable _ defaultCategory Hwf
                funcTable (st_length stackTable) eq_refl (le_n _)) as Hinv.
  pose proof (buildCallNodes_category_inv stackTable frameTable _ defaultCategory
                Hwf funcTable (st_length stackTable) eq_refl (le_n _)) as Hcat.
  subst info t. unfold getCallNodeInfo. simpl.
  set (s := buildCallNodes _ _ _ _ _) in *.
  rewrite !length_fmap.
  destruct Hinv as [Hl1 Hl2 Hl3 Hl4 Hl5 Hl6 Hl7 Hle Hnodes Hres Hrange Hmapn].
  split_and!; try done.
  intros n Hn. destruct (Hcat n Hn) as (j0 & rest & Hstacks & _).
  assert (j0 ∈ stacksOf (b_stackIndexToCallNodeIndex s) (st_length stackTable) n) as Hj0.
  { rewrite Hstacks. left. }
  apply elem_of_stacksOf in Hj0. by exists j0.
Qed.

Lemma getCallNodeInfo_resolves_every_stack_witness :
  0 <= stackIndexToCallNodeIndex
         (getCallNodeInfo sampleStackTable sampleFrameTable sampleFuncTable 0)
         !!! 4%nat < 3.
Proof.
  refine (proj1 (proj2 (proj2
    (getCallNodeInfo_resolves_every_stack sampleStackTable sampleFrameTable
       sampleFuncTable 0 sampleStackTable_wf))) 4%nat _).
  simpl. lia.
Defined.

(** ** The call nodes of the samples *)

Lemma getSampleIndexToCallNodeIndex_lookup (stacks : list (option nat))
    (stackIndexToCallNodeIndex : list Z) (i : nat) :
  (i < length stacks)%nat ->
  getSampleIndexToCallNodeIndex stacks stackIndexToCallNodeIndex !!! i =
    match stacks !!! i with
    | None => None
    | Some stack => Some (stackIndexToCallNodeIndex !!! stack)
    end.
Proof.
  intros Hi. unfold getSampleIndexToCallNodeIndex.
  set (f := fun stack : option nat => _).
  change (match stacks !!! i with
          | Some stack => Some (stackIndexToCallNodeIndex !!! stack)
          | None => None
          end) with (f (stacks !!! i)).
  by apply list_lookup_total_fmap.
Qed.

Lemma getSampleIndexToCallNodeIndex_wf (stackTable : StackTable)
    (frameTable : FrameTable) (funcTable : FuncTable) (defaultCategory : Z)
    (samples : SamplesTable) :
  StackTable_wf stackTable ->
  Samples_wf stackTable samples ->
  let info := getCallNodeInfo stackTable frameTable funcTable defaultCategory in
  SampleCallNodes_wf (callNodeTable info)
    (getSampleIndexToCallNodeIndex (s_stack samples) (stackIndexToCallNodeIndex info)).
Proof.
  intros Hwf Hsamples info sample n Hn.
  pose proof (buildCallNodes_inv stackTable frameTable _ defaultCategory Hwf
                funcTable (st_length stackTable) eq_refl (le_n _)) as Hinv.
  unfold getSampleIndexToCallNodeIndex in Hn.
  rewrite list_lookup_fmap in Hn.
  destruct (s_stack samples !! sample) as [[stack|]|] eqn:Hstack; simplify_eq/=.
  apply (inv_resolved _ _ _ _ Hinv). by eapply Hsamples.
Qed.

(** X2: for the call-node info built from a well-formed stack table and
    samples whose stacks are rows of it, [getSampleIndexToCallNodeIndex]
    returns one entry per sample, [null] exactly for the samples without a
    stack and otherwise the call node of the sample's stack, which is a row
    of the call-node table; the tree-order comparator over that array
    returns a number for every two samples, and 0 for two samples with the
    same stack. *)
Theorem getSampleIndexToCallNodeIndex_call_nodes (stackTable : StackTable)
    (frameTable : FrameTable) (funcTable : FuncTable) (defaultCategory : Z)
    (samples : SamplesTable) (a b : nat) :
  StackTable_wf stackTable ->
  Samples_wf stackTable samples ->
  (a < length (s_stack samples))%nat ->
  (b < length (s_stack samples))%nat ->
  let info := getCallNodeInfo stackTable frameTable funcTable defaultCategory in
  let t := callNodeTable info in
  let sampleCallNodes :=
    getSampleIndexToCallNodeIndex (s_stack samples) (stackIndexToCallNodeIndex info) in
  length sampleCallNodes = length (s_stack samples) /\
  (sampleCallNodes !!! a = None <-> s_stack samples !!! a = None) /\
  (forall stack, s_stack samples !!! a = Some stack ->
     sampleCallNodes !!! a = Some (stackIndexToCallNodeIndex info !!! stack) /\
     0 <= stackIndexToCallNodeIndex info !!! stack < Z.of_nat (cn_length t)) /\
  (exists r, getTreeOrderComparator t sampleCallNodes a b = Some r) /\
  (s_stack samples !!! a = s_stack samples !!! b ->
     getTreeOrderComparator t sampleCallNodes a b = Some 0).
Proof.
  intros Hwf Hsamples Ha Hb info t sampleCallNodes.
  pose proof (getCallNodeInfo_wf stackTable frameTable funcTable defaultCategory Hwf)
    as Hcn.
  pose proof (getSampleIndexToCallNodeIndex_wf stackTable frameTable funcTable
                defaultCategory samples Hwf Hsamples) as Hnodes.
  fold info in Hcn. fold t in Hcn.
  change (SampleCallNodes_wf t sampleCallNodes) in Hnodes.
  assert (length sampleCallNodes = length (s_stack samples)) as Hlen.
  { subst sampleCallNodes. unfold getSampleIndexToCallNodeIndex.
    by rewrite length_fmap. }
  pose proof (getSampleIndexToCallNodeIndex_lookup (s_stack samples)
                (stackIndexToCallNodeIndex info) a Ha) as Hla.
  pose proof (getSampleIndexToCallNodeIndex_lookup (s_stack samples)
                (stackIndexToCallNodeIndex info) b Hb) as Hlb.
  fold sampleCallNodes in Hla, Hlb.
  assert (a < length sampleCallNodes)%nat as Ha' by lia.
  assert (b < length sampleCallNodes)%nat as Hb' by lia.
  destruct (getTreeOrderComparator_samplesOrderAs t Hcn sampleCallNodes a b
              Hnodes Ha' Hb') as (r & Hr & Hord).
  split_and!.
  - done.
  - rewrite Hla. by destruct (s_stack samples !!! a).
  - intros stack Hstack. rewrite Hla, Hstack. split; [done|].
    apply (Hnodes a). apply lookup_total_Some. rewrite Hla. by rewrite Hstack.
  - by exists r.
  - intros Hsame. rewrite Hr. f_equal.
    assert (sampleCallNodes !!! b = sampleCallNodes !!! a) as Heq.
    { by rewrite Hla, Hlb, Hsame. }
    rewrite Heq in Hord. by eapply samplesOrderAs_refl.
Qed.

Lemma sampleSamples_wf : Samples_wf sampleStackTable sampleSamples.
Proof.
  intros i s Hs. destruct i as [|[|[|[|i]]]]; simplify_eq/=; lia.
Qed.

Lemma getSampleIndexToCallNodeIndex_call_nodes_witness :
  length (getSampleIndexToCallNodeIndex (s_stack sampleSamples)
            (stackIndexToCallNodeIndex sampleCallNodeInfo)) = 4%nat.
Proof.
  exact (proj1 (getSampleIndexToCallNodeIndex_call_nodes sampleStackTable
                  sampleFrameTable sampleFuncTable 0 sampleSamples 0 3
                  sampleStackTable_wf sampleSamples_wf
                  ltac:(simpl; lia) ltac:(simpl; lia))).
Defined.

(** ** The leaf of a path *)

Lemma getLeafFuncIndex_snoc (path : CallNodePath) (func : Z) :
  getLeafFuncIndex (path ++ [func]) = Return func.
Proof.
  unfold getLeafFuncIndex. rewrite length_app. simpl length.
  rewrite decide_False by lia. f_equal.
  apply list_lookup_total_middle. lia.
Qed.

Lemma PathOf_functional (t : CallNodeTable) (n : Z) (path path' : CallNodePath) :
  PathOf t n path -> PathOf t n path' -> path = path'.
Proof.
  intros Hpath. revert path'.
  induction Hpath as [|n path Hn Hpath IH]; intros path' Hpath'.
  - inversion Hpath' as [|n' p' Hn' Hp']; [done | lia].
  - inversion Hpath' as [|n' p' Hn' Hp']; [lia|]. subst.
    f_equal. by apply IH.
Qed.

(** X3: [getLeafFuncIndex] throws for the empty path and for no other path,
    returns the last element of a path that is not empty, and on the path
    that [getCallNodePathFromIndex] returns for a call node of a well-formed
    table it returns that call node's function. *)
Theorem getLeafFuncIndex_of_call_node_path (t : CallNodeTable) (n : Z) :
  CallNodeTable_wf t ->
  0 <= n < Z.of_nat (cn_length t) ->
  getLeafFuncIndex [] =
    Throw "getLeafFuncIndex assumes that the path isn't empty." /\
  (forall path message, getLeafFuncIndex path = Throw message -> path = []) /\
  (forall path func, getLeafFuncIndex (path ++ [func]) = Return func) /\
  exists path,
    getCallNodePathFromIndex (Some n) t = Some path /\
    getLeafFuncIndex path = Return (cn_func t !!! Z.to_nat n).
Proof.
  intros Hwf Hn. split_and!.
  - done.
  - intros path message. unfold getLeafFuncIndex. case_decide as Hlen; [|done].
    intros _. by apply length_zero_iff_nil.
  - apply getLeafFuncIndex_snoc.
  - destruct (getCallNodePathFromIndex_PathOf t Hwf n Hn) as (path & Hpath & Hget).
    exists path. split; [done|].
    inversion Hpath as [|n' p' Hn' Hp']; [lia|]. subst.
    apply getLeafFuncIndex_snoc.
Qed.

Lemma getLeafFuncIndex_of_call_node_path_witness :
  exists path,
    getCallNodePathFromIndex (Some 2) sampleCallNodeTable = Some path /\
    getLeafFuncIndex path = Return (cn_func sampleCallNodeTable !!! Z.to_nat 2).
Proof.
  apply (getLeafFuncIndex_of_call_node_path sampleCallNodeTable 2
           sampleCallNodeTable_wf).
  simpl. lia.
Defined.

(** ** The timings of a path *)

Lemma getCallNodeIndexFromPath_empty (hashPath : CallNodePath -> string)
    (t : CallNodeTable) :
  getCallNodeIndexFromPath hashPath [] t = None.
Proof.
  unfold getCallNodeIndexFromPath, getCallNodeIndicesFromPaths. simpl.
  unfold _getCallNodeIndexFromPathWithCache. by rewrite lookup_empty.
Qed.

(** X4: on a well-formed call-node table without duplicate children,
    [getTimingsForPath] on the path of a call node is
    [getTimingsForCallNodeIndex] on that call node; on the empty path, on
    every table, all its timings and the root time are zero. *)
Theorem getTimingsForPath_of_call_node_path (hashPath : CallNodePath -> string)
    (callNodeInfo : CallNodeInfo) (isInvertedTree : bool)
    (thread unfilteredThread : Thread) (sampleIndexOffset : nat)
    (categories : list Category) (samples unfilteredSamples : SamplesTable)
    (n : Z) (path : CallNodePath) :
  CallNodeTable_wf (callNodeTable callNodeInfo) ->
  UniqueChildren (callNodeTable callNodeInfo) ->
  0 <= n < Z.of_nat (cn_length (callNodeTable callNodeInfo)) ->
  getCallNodePathFromIndex (Some n) (callNodeTable callNodeInfo) = Some path ->
  getTimingsForPath hashPath path callNodeInfo isInvertedTree thread
    unfilteredThread sampleIndexOffset categories samples unfilteredSamples =
  getTimingsForCallNodeIndex callNodeInfo isInvertedTree thread unfilteredThread
    sampleIndexOffset categories samples unfilteredSamples (Some n) /\
  getTimingsForPath hashPath [] callNodeInfo isInvertedTree thread
    unfilteredThread sampleIndexOffset categories samples unfilteredSamples =
  Some {| forPath := emptyItemTimings; forFunc := emptyItemTimings; rootTime := 0 |}.
Proof.
  intros Hwf Hunique Hn Hget. unfold getTimingsForPath. split.
  - destruct (getCallNodePathFromIndex_PathOf _ Hwf n Hn) as (path' & Hpath & Hget').
    assert (path' = path) as -> by congruence.
    rewrite (getCallNodeIndexFromPath_PathOf hashPath _ n path) by (done || lia).
    done.
  - by rewrite getCallNodeIndexFromPath_empty.
Qed.

Lemma sampleCallNodeTable_unique : UniqueChildren sampleCallNodeTable.
Proof.
  intros i j Hi Hj. simpl in Hi, Hj.
  destruct i as [|[|[|i]]]; [| | |lia];
    (destruct j as [|[|[|j]]]; [| | |lia]); simpl; intros; (done || lia).
Qed.

Lemma getTimingsForPath_of_call_node_path_witness :
  getTimingsForPath sampleHashPath [0; 1]
    {| callNodeTable := sampleCallNodeTable; stackIndexToCallNodeIndex := [0; 1; 2; 0; 2] |}
    false sampleThread sampleThread 0 sampleCategories sampleSamples sampleSamples =
  getTimingsForCallNodeIndex
    {| callNodeTable := sampleCallNodeTable; stackIndexToCallNodeIndex := [0; 1; 2; 0; 2] |}
    false sampleThread sampleThread 0 sampleCategories sampleSamples sampleSamples
    (Some 2).
Proof.
  refine (proj1 (getTimingsForPath_of_call_node_path sampleHashPath
                   {| callNodeTable := sampleCallNodeTable;
                      stackIndexToCallNodeIndex := [0; 1; 2; 0; 2] |}
                   false sampleThread sampleThread 0 sampleCategories
                   sampleSamples sampleSamples 2 [0; 1]
                   sampleCallNodeTable_wf sampleCallNodeTable_unique _ _)).
  - simpl. lia.
  - reflexivity.
Defined.

(** ** Counters *)

Lemma sumZ_take_S (l : list Z) (k : nat) :
  (k < length l)%nat -> sumZ (take (S k) l) = sumZ (take k l) + l !!! k.
Proof.
  intros Hk. destruct (lookup_lt_is_Some_2 l k Hk) as [x Hx].
  rewrite (take_S_r l k x Hx), sumZ_snoc.
  by rewrite (list_lookup_total_correct l k x Hx).
Qed.

Lemma accumulateCounterLoop_inv (samples : CounterSamplesTable) (n : nat) :
  (n <= length (cs_count samples))%nat ->
  CounterInv samples n (accumulateCounterLoop samples n).
Proof.
  intros Hn. unfold accumulateCounterLoop.
  apply (foldl_seq_invariant (CounterInv samples)).
  - unfold CounterInv. simpl. split_and!; try done; try lia; by left.
  - intros k st Hk (Hlen & Hacc & Hsums & Hzero & Hbounds & Hmin & Hmax).
    assert (k = length (ca_accumulatedCounts st)) as Hlen' by done.
    assert (ca_accumulated st + cs_count samples !!! k =
            sumZ (take (S k) (cs_count samples))) as Hnew.
    { rewrite sumZ_take_S by lia. by rewrite Hacc. }
    unfold CounterInv, accumulateCounterStep. simpl.
    set (accumulated := ca_accumulated st + cs_count samples !!! k) in *.
    split_and!.
    + by apply array_set_length_at_end.
    + done.
    + intros i Hi. destruct (decide (i = k)) as [->|Hne].
      * by rewrite array_set_lookup_at_end.
      * rewrite array_set_lookup_before_end by (done || lia). apply Hsums. lia.
    + lia.
    + lia.
    + intros i Hi. destruct (decide (i = k)) as [->|Hne].
      * rewrite array_set_lookup_at_end by done. lia.
      * rewrite array_set_lookup_before_end by (done || lia).
        specialize (Hbounds i). lia.
    + destruct (Z.min_spec accumulated (ca_minCount st)) as [[? ->]|[? ->]].
      * right. exists k. split; [lia|]. by rewrite array_set_lookup_at_end.
      * destruct Hmin as [?|(i & Hi & Heq)]; [by left | right].
        exists i. split; [lia|].
        by rewrite array_set_lookup_before_end by (done || lia).
    + destruct (Z.max_spec accumulated (ca_maxCount st)) as [[? ->]|[? ->]].
      * destruct Hmax as [?|(i & Hi & Heq)]; [by left | right].
        exists i. split; [lia|].
        by rewrite array_set_lookup_before_end by (done || lia).
      * right. exists k. split; [lia|]. by rewrite array_set_lookup_at_end.
Qed.

(** X5: for a counter whose [count] column has an entry for each of its
    samples and whose running sums stay within [2 ^ 52] (so that the
    additions of the code, which are on doubles, are exact),
    [accumulateCounterSamples] returns, at the counter's position, the
    running sums of the counts, one per sample; [minCount] and [maxCount]
    bound every running sum and 0, each of them is 0 or one of the running
    sums, and [countRange] is their difference, which is not negative and
    at most [2 ^ 53]. *)
Theorem accumulateCounterSamples_running_sums
    (samplesArray : list CounterSamplesTable) (k : nat)
    (samples : CounterSamplesTable) :
  samplesArray !! k = Some samples ->
  (cs_length samples <= length (cs_count samples))%nat ->
  CountsExact samples ->
  length (accumulateCounterSamples samplesArray) = length samplesArray /\
  exists r,
    accumulateCounterSamples samplesArray !! k = Some r /\
    length (accumulatedCounts r) = cs_length samples /\
    (forall i, (i < cs_length samples)%nat ->
       accumulatedCounts r !!! i = sumZ (take (S i) (cs_count samples)) /\
       minCount r <= accumulatedCounts r !!! i <= maxCount r) /\
    minCount r <= 0 <= maxCount r /\
    (minCount r = 0 \/
     exists i, (i < cs_length samples)%nat /\ accumulatedCounts r !!! i = minCount r) /\
    (maxCount r = 0 \/
     exists i, (i < cs_length samples)%nat /\ accumulatedCounts r !!! i = maxCount r) /\
    countRange r = maxCount r - minCount r /\
    0 <= countRange r <= 2 ^ 53.
Proof.
  intros Hk Hcount Hexact. unfold accumulateCounterSamples. split.
  { by rewrite length_fmap. }
  rewrite list_lookup_fmap, Hk. simpl. eexists. split; [reflexivity|]. simpl.
  destruct (accumulateCounterLoop_inv samples (cs_length samples) Hcount)
    as (Hlen & Hacc & Hsums & Hzero & Hbounds & Hmin & Hmax).
  assert (- 2 ^ 52 <= ca_minCount (accumulateCounterLoop samples (cs_length samples)))
    as Hlow.
  { destruct Hmin as [->|(i & Hi & <-)]; [lia|].
    rewrite Hsums by done.
    assert (S i <= cs_length samples)%nat as HSi by lia.
    pose proof (Hexact (S i) HSi). lia. }
  assert (ca_maxCount (accumulateCounterLoop samples (cs_length samples)) <= 2 ^ 52)
    as Hhigh.
  { destruct Hmax as [->|(i & Hi & <-)]; [lia|].
    rewrite Hsums by done.
    assert (S i <= cs_length samples)%nat as HSi by lia.
    pose proof (Hexact (S i) HSi). lia. }
  split_and!; try done; try lia.
  intros i Hi. split; [by apply Hsums | by apply Hbounds].
Qed.

Lemma sampleCounterSamples_exact : CountsExact sampleCounterSamples.
Proof.
  intros k Hk. simpl in Hk.
  destruct k as [|[|[|[|k]]]]; [vm_compute; discriminate.. | lia].
Qed.

Lemma accumulateCounterSamples_running_sums_witness :
  exists r,
    accumulateCounterSamples [sampleCounterSamples] !! 0%nat = Some r /\
    accumulatedCounts r = [5; -3; 1] /\ minCount r = -3 /\ maxCount r = 5 /\
    countRange r = 8.
Proof.
  destruct (accumulateCounterSamples_running_sums [sampleCounterSamples] 0
              sampleCounterSamples eq_refl ltac:(simpl; lia)
              sampleCounterSamples_exact)
    as (_ & r & Hr & _).
  exists r. split; [done|].
  injection Hr as <-. by vm_compute.
Defined.

(** ** The depth of the call tree *)

Lemma foldl_max_spec (l : list Z) (m0 : Z) :
  let m := foldl (fun max depth => Z.max max depth) m0 l in
  m0 <= m /\ (forall x, x ∈ l -> x <= m) /\ (m = m0 \/ m ∈ l).
Proof.
  revert m0. induction l as [|x l IH]; intros m0; simpl.
  - split_and!; [lia | by intros x ?%elem_of_nil | by left].
  - destruct (IH (Z.max m0 x)) as (Hge & Hall & Hin).
    split_and!.
    + lia.
    + intros y Hy. apply elem_of_cons in Hy as [Heq|Hy]; [lia | by apply Hall].
    + destruct Hin as [Heq|Hin]; [|right; by right].
      destruct (Z.max_spec m0 x) as [[? Hm]|[? Hm]]; rewrite Hm in Heq |- *.
      * right. rewrite Heq. by left.
      * by left.
Qed.

(** X6: [computeCallNodeMaxDepth] is 0 for a thread without samples and for
    an empty call-node table; otherwise, on a well-formed table, it is one
    more than the depth of some call node, more than the depth of every call
    node and at most the number of call nodes. *)
Theorem computeCallNodeMaxDepth_bounds (thread : Thread) (callNodeInfo : CallNodeInfo) :
  CallNodeTable_wf (callNodeTable callNodeInfo) ->
  let t := callNodeTable callNodeInfo in
  let r := computeCallNodeMaxDepth thread callNodeInfo in
  (s_length (samples thread) = 0%nat -> r = 0) /\
  (cn_length t = 0%nat -> r = 0) /\
  (s_length (samples thread) ≠ 0%nat -> cn_length t ≠ 0%nat ->
     1 <= r <= Z.of_nat (cn_length t) /\
     (forall n, (n < cn_length t)%nat -> cn_depth t !!! n < r) /\
     exists n, (n < cn_length t)%nat /\ cn_depth t !!! n = r - 1).
Proof.
  intros Hwf t r. subst r. unfold computeCallNodeMaxDepth. fold t.
  pose proof (cn_wf_depth _ Hwf) as Hlen. fold t in Hlen.
  split_and!.
  - intros Hs. rewrite decide_True; [done | by left].
  - intros Hn. rewrite decide_True; [done | right; lia].
  - intros Hs Hn. rewrite decide_False by lia.
    destruct (foldl_max_spec (cn_depth t) 0) as (Hge & Hall & Hin).
    set (m := foldl _ 0 (cn_depth t)) in *.
    assert (forall n, (n < cn_length t)%nat -> cn_depth t !!! n <= m) as Hall'.
    { intros n Hlt. apply Hall, list_elem_of_lookup_total_2. lia. }
    assert (exists n, (n < cn_length t)%nat /\ cn_depth t !!! n = m) as (n & Hlt & Heq).
    { destruct Hin as [Hzero|Hin].
      - exists 0%nat. split; [lia|].
        assert (0 <= 0 < Z.of_nat (cn_length t)) as Hroot by lia.
        pose proof (depth_range t Hwf 0 Hroot) as Hd.
        change (Z.to_nat 0) with 0%nat in Hd. lia.
      - apply list_elem_of_lookup_total_1 in Hin as (n & Hlt & Heq).
        exists n. split; [lia | done]. }
    split_and!.
    + lia.
    + assert (0 <= Z.of_nat n < Z.of_nat (cn_length t)) as Hrange by lia.
      pose proof (depth_range t Hwf (Z.of_nat n) Hrange) as Hd.
      rewrite Nat2Z.id in Hd. lia.
    + intros n' Hn'. specialize (Hall' n' Hn'). lia.
    + exists n. split; [done | lia].
Qed.

Lemma computeCallNodeMaxDepth_bounds_witness :
  cn_depth sampleCallNodeTable !!! 2%nat <
    computeCallNodeMaxDepth sampleThread
      {| callNodeTable := sampleCallNodeTable;
         stackIndexToCallNodeIndex := [0; 1; 2; 0; 2] |}.
Proof.
  refine (proj1 (proj2 (proj2 (proj2
    (computeCallNodeMaxDepth_bounds sampleThread
       {| callNodeTable := sampleCallNodeTable;
          stackIndexToCallNodeIndex := [0; 1; 2; 0; 2] |}
       sampleCallNodeTable_wf)) _ _)) 2%nat _); simpl; lia.
Defined.

(** ** The call node of a stack *)

Section StackNodes.

Variable stackTable : StackTable.
Variable frameTable : FrameTable.
Variable funcTable : FuncTable.
Variable defaultCategory : Z.
Hypothesis Hwf : StackTable_wf stackTable.
Hypothesis Hfr : FrameRefs_wf stackTable frameTable funcTable.

Local Abbreviation funcCount := (Z.of_nat (fn_length funcTable)).

Lemma funcOfStack_range (j : nat) :
  (j < st_length stackTable)%nat ->
  0 <= funcOfStack stackTable frameTable j < funcCount.
Proof.
  intros Hj. apply (fr_wf_func _ _ _ Hfr), (fr_wf_frame _ _ _ Hfr), Hj.
Qed.

Lemma stack_prefix_earlier (j p : nat) :
  (j < st_length stackTable)%nat ->
  st_prefix stackTable !!! j = Some p -> (p < j)%nat.
Proof.
  intros Hj Hp. apply (st_wf_order _ Hwf j p).
  rewrite <- Hp. apply list_lookup_lookup_total_lt.
  by rewrite (st_wf_prefix _ Hwf).
Qed.

(** Writing the entry of stack [k] does not change what the earlier stacks
    read as the call node of their prefix. *)
Lemma prefixCallNodeOf_insert (stacks : list Z) (k j : nat) (v : Z) :
  (j <= k)%nat -> (j < st_length stackTable)%nat ->
  prefixCallNodeOf stackTable (<[k := v]> stacks) j =
    prefixCallNodeOf stackTable stacks j.
Proof.
  intros Hjk Hj. unfold prefixCallNodeOf.
  destruct (st_prefix stackTable !!! j) as [p|] eqn:Hp; [|done].
  pose proof (stack_prefix_earlier j p Hj Hp).
  apply list_lookup_total_insert_ne. lia.
Qed.

(** [prefix * funcCount + func] determines the prefix and the function. *)
Lemma key_injective (p p' f f' : Z) :
  0 <= f < funcCount -> 0 <= f' < funcCount ->
  p * funcCount + f = p' * funcCount + f' -> p = p' /\ f = f'.
Proof.
  intros Hf Hf' Hkey.
  assert (p = p') as ->.
  { destruct (Z.lt_trichotomy p p') as [Hlt|[Heq|Hgt]]; [|done|].
    - assert (p + 1 <= p') as Hle by lia.
      pose proof (Z.mul_le_mono_nonneg_r (p + 1) p' (Z.of_nat (fn_length funcTable))
                    ltac:(lia) Hle). lia.
    - assert (p' + 1 <= p) as Hle by lia.
      pose proof (Z.mul_le_mono_nonneg_r (p' + 1) p (Z.of_nat (fn_length funcTable))
                    ltac:(lia) Hle). lia. }
  split; [done | lia].
Qed.

Lemma processStack_stack_nodes_inv (k : nat) (s : BuilderState) :
  (k < st_length stackTable)%nat ->
  BuilderInv stackTable funcCount k s ->
  StackNodesInv stackTable frameTable funcCount k s ->
  StackNodesInv stackTable frameTable funcCount (S k)
    (processStack stackTable frameTable funcCount defaultCategory s k).
Proof.
  intros Hk Hinv (Hfunc & Hkeys & Hstacks).
  pose proof (prefixCallNode_range stackTable funcCount Hwf k s Hk Hinv) as Hp.
  simpl in Hp. fold (prefixCallNodeOf stackTable (b_stackIndexToCallNodeIndex s) k) in Hp.
  pose proof (funcOfStack_range k Hk) as Hf.
  pose proof (st_wf_size _ Hwf) as Hsize.
  pose proof (inv_length _ _ _ _ Hinv) as Hle.
  pose proof (inv_stacks _ _ _ _ Hinv) as Hls.
  unfold processStack.
  fold (prefixCallNodeOf stackTable (b_stackIndexToCallNodeIndex s) k).
  fold (funcOfStack stackTable frameTable k).
  set (prefixCallNode := prefixCallNodeOf stackTable (b_stackIndexToCallNodeIndex s) k) in *.
  set (funcIndex := funcOfStack stackTable frameTable k) in *.
  set (key := prefixCallNode * funcCount + funcIndex).
  destruct (b_prefixCallNodeAndFuncToCallNodeMap s !! key) as [node|] eqn:Hkey.
  - pose proof (inv_map_range _ _ _ _ Hinv _ _ Hkey) as Hnode.
    edestruct (resolveCallNode_found defaultCategory s key) as (s' & -> & Hsame);
      [exact Hkey | rewrite (inv_category _ _ _ _ Hinv); lia
       | rewrite (inv_subcategory _ _ _ _ Hinv); lia |].
    destruct Hsame as (E1 & E2 & E3 & E4 & _ & _ & E7 & _).
    unfold StackNodesInv. simpl. rewrite E1, E2, E3, E4, E7.
    split_and!; [done | done |].
    intros j Hj. destruct (decide (j = k)) as [->|Hne].
    + rewrite list_lookup_total_insert_eq by lia.
      rewrite prefixCallNodeOf_insert by lia.
      rewrite toUint32_small by lia.
      pose proof (Hkeys key node Hkey) as Hkn.
      pose proof (Hfunc (Z.to_nat node) ltac:(lia)) as Hfn.
      destruct (key_injective prefixCallNode (b_prefix s !!! Z.to_nat node)
                  funcIndex (b_func s !!! Z.to_nat node) Hf Hfn Hkn) as [Hp' Hf'].
      by rewrite <- Hp', <- Hf'.
    + rewrite list_lookup_total_insert_ne by lia.
      rewrite prefixCallNodeOf_insert by lia.
      apply Hstacks. lia.
  - unfold resolveCallNode. rewrite Hkey.
    pose proof (inv_func _ _ _ _ Hinv) as Hlf.
    pose proof (inv_prefix _ _ _ _ Hinv) as Hlp.
    unfold StackNodesInv. simpl. split_and!.
    + intros i Hi. destruct (decide (i = b_length s)) as [->|Hne].
      * by rewrite array_set_lookup_at_end.
      * rewrite array_set_lookup_before_end by (done || lia). apply Hfunc. lia.
    + intros key' v. rewrite lookup_insert. case_decide as Heq.
      * intros [= <-]. rewrite Nat2Z.id.
        rewrite !array_set_lookup_at_end by done. by subst key'.
      * intros Hv. pose proof (inv_map_range _ _ _ _ Hinv _ _ Hv) as Hrange.
        rewrite !(array_set_lookup_before_end (b_length s)) by (done || lia).
        by apply Hkeys.
    + intros j Hj. destruct (decide (j = k)) as [->|Hne].
      * rewrite list_lookup_total_insert_eq by lia.
        rewrite prefixCallNodeOf_insert by lia.
        rewrite toUint32_small by lia. rewrite Nat2Z.id.
        by rewrite !array_set_lookup_at_end by done.
      * rewrite list_lookup_total_insert_ne by lia.
        rewrite prefixCallNodeOf_insert by lia.
        pose proof (inv_resolved _ _ _ _ Hinv j ltac:(lia)) as Hres.
        rewrite !(array_set_lookup_before_end (b_length s)) by (done || lia).
        apply Hstacks. lia.
Qed.

Lemma buildCallNodes_stack_nodes_inv (n : nat) :
  (n <= st_length stackTable)%nat ->
  let s := buildCallNodes stackTable frameTable funcTable defaultCategory n in
  BuilderInv stackTable funcCount n s /\
  StackNodesInv stackTable frameTable funcCount n s.
Proof.
  intros Hn. unfold buildCallNodes.
  apply (foldl_seq_invariant
           (fun k s => BuilderInv stackTable funcCount k s /\
                       StackNodesInv stackTable frameTable funcCount k s)).
  - split; [by apply initialBuilderState_inv|].
    unfold StackNodesInv. simpl. split_and!; intros; (lia || done).
  - intros k s Hk [Hinv Hnodes]. split.
    + apply processStack_inv; [done | lia | done].
    + apply processStack_stack_nodes_inv; [lia | done | done].
Qed.

Local Abbreviation info :=
  (getCallNodeInfo stackTable frameTable funcTable defaultCategory).

(** In the returned table, the call node of a stack has the stack's function
    and, as its prefix, the call node of the stack's prefix. *)
Lemma getCallNodeInfo_stack_node (j : nat) :
  (j < st_length stackTable)%nat ->
  let n := stackIndexToCallNodeIndex info !!! j in
  0 <= n < Z.of_nat (cn_length (callNodeTable info)) /\
  cn_func (callNodeTable info) !!! Z.to_nat n = funcOfStack stackTable frameTable j /\
  cn_prefix (callNodeTable info) !!! Z.to_nat n =
    prefixCallNodeOf stackTable (stackIndexToCallNodeIndex info) j.
Proof.
  intros Hj.
  destruct (buildCallNodes_stack_nodes_inv (st_length stackTable) (le_n _))
    as [Hinv (Hfunc & Hkeys & Hstacks)].
  unfold getCallNodeInfo. simpl.
  set (s := buildCallNodes _ _ _ _ _) in *.
  rewrite (BuilderInv_prefix_small _ _ _ _ Hwf (le_n _) Hinv).
  assert (toInt32 <$> b_func s = b_func s) as ->.
  { apply fmap_toInt32_small, Forall_lookup_2. intros i z Hz.
    assert (i < b_length s)%nat as Hi.
    { rewrite <- (inv_func _ _ _ _ Hinv). by eapply lookup_lt_Some. }
    apply list_lookup_total_correct in Hz. subst z.
    pose proof (Hfunc i Hi). pose proof (fr_wf_size _ _ _ Hfr). lia. }
  split; [by apply (inv_resolved _ _ _ _ Hinv) | by apply Hstacks].
Qed.

(** The walk of [convertStackToCallNodePath] ends, with the path, reversed,
    of the stack's call node. *)
Lemma collectStackFuncs_PathOf (fuel : nat) (j : nat) (acc : list Z) :
  (j < st_length stackTable)%nat -> (j + 1 <= fuel)%nat ->
  exists path,
    PathOf (callNodeTable info) (stackIndexToCallNodeIndex info !!! j) path /\
    collectStackFuncs fuel stackTable frameTable (Some j) acc =
      Some (acc ++ reverse path).
Proof.
  revert j acc. induction fuel as [|fuel IH]; intros j acc Hj Hfuel; [lia|].
  destruct (getCallNodeInfo_stack_node j Hj) as (Hn & Hfunc & Hprefix).
  cbn [collectStackFuncs].
  fold (funcOfStack stackTable frameTable j).
  unfold prefixCallNodeOf in Hprefix.
  destruct (st_prefix stackTable !!! j) as [p|] eqn:Hp.
  - pose proof (stack_prefix_earlier j p Hj Hp) as Hlt.
    destruct (IH p (acc ++ [funcOfStack stackTable frameTable j])
                ltac:(lia) ltac:(lia)) as (path & Hpath & Hrun).
    exists (path ++ [funcOfStack stackTable frameTable j]). split.
    + rewrite <- Hfunc. constructor; [done|]. by rewrite Hprefix.
    + rewrite Hrun. by rewrite reverse_app, <- app_assoc.
  - exists [funcOfStack stackTable frameTable j]. split.
    + rewrite <- Hfunc. apply (PathOf_child _ _ []); [done|].
      rewrite Hprefix. constructor.
    + destruct fuel; done.
Qed.

End StackNodes.

(** X7: in the call-node info built from well-formed tables whose number of
    stacks times number of functions is at most [2 ^ 53] (so that the keys of
    the builder's map, which are doubles, are exact), the call node of a
    stack has the function of the stack's frame and, as its prefix, the call
    node of the stack's prefix ([-1] for a root stack); two stacks have the
    same call node exactly when they have the same function and their
    prefixes have the same call node. *)
Theorem getCallNodeInfo_call_node_of_stack (stackTable : StackTable)
    (frameTable : FrameTable) (funcTable : FuncTable) (defaultCategory : Z)
    (i j : nat) :
  StackTable_wf stackTable ->
  FrameRefs_wf stackTable frameTable funcTable ->
  CallNodeKeys_exact stackTable funcTable ->
  (i < st_length stackTable)%nat ->
  (j < st_length stackTable)%nat ->
  let info := getCallNodeInfo stackTable frameTable funcTable defaultCategory in
  let t := callNodeTable info in
  let nodeOf := fun l : nat => stackIndexToCallNodeIndex info !!! l in
  let prefixNodeOf := fun l : nat =>
    match st_prefix stackTable !!! l with
    | None => -1
    | Some p => nodeOf p
    end in
  cn_func t !!! Z.to_nat (nodeOf i) = ft_func frameTable !!! (st_frame stackTable !!! i) /\
  cn_prefix t !!! Z.to_nat (nodeOf i) = prefixNodeOf i /\
  (nodeOf i = nodeOf j <->
     ft_func frameTable !!! (st_frame stackTable !!! i) =
       ft_func frameTable !!! (st_frame stackTable !!! j) /\
     prefixNodeOf i = prefixNodeOf j).
Proof.
  intros Hwf Hfr _ Hi Hj info t nodeOf prefixNodeOf.
  destruct (getCallNodeInfo_stack_node stackTable frameTable funcTable
              defaultCategory Hwf Hfr i Hi) as (Hni & Hfi & Hpi).
  destruct (getCallNodeInfo_stack_node stackTable frameTable funcTable
              defaultCategory Hwf Hfr j Hj) as (Hnj & Hfj & Hpj).
  pose proof (getCallNodeInfo_unique_children stackTable frameTable funcTable
                defaultCategory Hwf Hfr) as Hunique.
  fold info in Hni, Hfi, Hpi, Hnj, Hfj, Hpj, Hunique.
  fold t in Hni, Hfi, Hpi, Hnj, Hfj, Hpj, Hunique.
  change (stackIndexToCallNodeIndex info !!! i) with (nodeOf i) in *.
  change (stackIndexToCallNodeIndex info !!! j) with (nodeOf j) in *.
  change (prefixCallNodeOf stackTable (stackIndexToCallNodeIndex info) i)
    with (prefixNodeOf i) in *.
  change (prefixCallNodeOf stackTable (stackIndexToCallNodeIndex info) j)
    with (prefixNodeOf j) in *.
  unfold funcOfStack in *.
  split_and!; [done | done |]. split.
  - intros Heq. rewrite <- Hfi, <- Hfj, <- Hpi, <- Hpj. by rewrite Heq.
  - intros [Hf Hp].
    assert (Z.to_nat (nodeOf i) = Z.to_nat (nodeOf j)) as Heq; [|lia].
    apply Hunique; [lia | lia | |].
    + by rewrite Hpi, Hpj.
    + by rewrite Hfi, Hfj.
Qed.

Lemma sampleCallNodeKeys_exact : CallNodeKeys_exact sampleStackTable sampleFuncTable.
Proof. by vm_compute. Qed.

Lemma getCallNodeInfo_call_node_of_stack_witness :
  stackIndexToCallNodeIndex sampleCallNodeInfo !!! 2%nat =
    stackIndexToCallNodeIndex sampleCallNodeInfo !!! 4%nat.
Proof.
  apply (getCallNodeInfo_call_node_of_stack sampleStackTable sampleFrameTable
           sampleFuncTable 0 2 4 sampleStackTable_wf sampleFrameRefs_wf
           sampleCallNodeKeys_exact ltac:(simpl; lia) ltac:(simpl; lia)).
  split; reflexivity.
Defined.

(** X8: for a thread with well-formed tables whose number of stacks times
    number of functions is at most [2 ^ 53] (so that the keys of the map of
    [getCallNodeInfo], which are doubles, are exact) and a stack of it,
    [convertStackToCallNodePath] ends and returns the path that
    [getCallNodePathFromIndex] returns for the stack's call node, and
    [getCallNodeIndexFromPath] resolves that path back to the stack's call
    node. *)
Theorem convertStackToCallNodePath_is_call_node_path
    (hashPath : CallNodePath -> string) (thread : Thread)
    (defaultCategory : Z) (stack : nat) :
  StackTable_wf (stackTable thread) ->
  FrameRefs_wf (stackTable thread) (frameTable thread) (funcTable thread) ->
  CallNodeKeys_exact (stackTable thread) (funcTable thread) ->
  (stack < st_length (stackTable thread))%nat ->
  let info := getCallNodeInfo (stackTable thread) (frameTable thread)
                (funcTable thread) defaultCategory in
  let n := stackIndexToCallNodeIndex info !!! stack in
  exists path,
    convertStackToCallNodePath thread stack = Some path /\
    getCallNodePathFromIndex (Some n) (callNodeTable info) = Some path /\
    getCallNodeIndexFromPath hashPath path (callNodeTable info) = Some n.
Proof.
  intros Hwf Hfr _ Hstack info n.
  pose proof (getCallNodeInfo_wf (stackTable thread) (frameTable thread)
                (funcTable thread) defaultCategory Hwf) as Hcn.
  pose proof (getCallNodeInfo_unique_children (stackTable thread)
                (frameTable thread) (funcTable thread) defaultCategory Hwf Hfr)
    as Hunique.
  destruct (getCallNodeInfo_stack_node (stackTable thread) (frameTable thread)
              (funcTable thread) defaultCategory Hwf Hfr stack Hstack)
    as (Hn & _).
  destruct (collectStackFuncs_PathOf (stackTable thread) (frameTable thread)
              (funcTable thread) defaultCategory Hwf Hfr
              (st_length (stackTable thread)) stack [] Hstack ltac:(lia))
    as (path & Hpath & Hrun).
  fold info in Hcn, Hunique, Hn, Hpath. fold n in Hn, Hpath.
  destruct (getCallNodePathFromIndex_PathOf _ Hcn n Hn) as (path' & Hpath' & Hget).
  assert (path' = path) as -> by (by eapply PathOf_functional).
  exists path. split_and!.
  - unfold convertStackToCallNodePath. rewrite Hrun. simpl.
    by rewrite reverse_involutive.
  - done.
  - apply getCallNodeIndexFromPath_PathOf; [done | done | lia | done].
Qed.

Lemma convertStackToCallNodePath_is_call_node_path_witness :
  exists path,
    convertStackToCallNodePath sampleThread 4 = Some path /\
    getCallNodePathFromIndex
      (Some (stackIndexToCallNodeIndex sampleCallNodeInfo !!! 4%nat))
      (callNodeTable sampleCallNodeInfo) = Some path /\
    getCallNodeIndexFromPath sampleHashPath path
      (callNodeTable sampleCallNodeInfo) =
      Some (stackIndexToCallNodeIndex sampleCallNodeInfo !!! 4%nat).
Proof.
  apply (convertStackToCallNodePath_is_call_node_path sampleHashPath
           sampleThread 0 4 sampleStackTable_wf sampleFrameRefs_wf
           sampleCallNodeKeys_exact).
  simpl. lia.
Defined.

(** ** The rows that the allocation filters keep *)

Lemma fmap_lookup_total_seq `{!Inhabited A} (l : list A) :
  (fun i => l !!! i) <$> seq 0 (length l) = l.
Proof.
  apply list_eq. intros i. rewrite list_lookup_fmap.
  destruct (decide (i < length l)%nat) as [Hi|Hi].
  - rewrite lookup_seq_lt by done. simpl.
    by rewrite list_lookup_lookup_total_lt.
  - rewrite lookup_seq_ge by lia. simpl.
    symmetry. apply lookup_ge_None. lia.
Qed.

Lemma filter_all {A} (P : A -> Prop) `{!forall x, Decision (P x)} (l : list A) :
  (forall x, x ∈ l -> P x) -> filter P l = l.
Proof.
  induction l as [|x l IH]; intros Hall; [done|].
  rewrite filter_cons_True by (apply Hall; left).
  rewrite IH; [done|]. intros y Hy. apply Hall. by right.
Qed.

Lemma filter_none {A} (P : A -> Prop) `{!forall x, Decision (P x)} (l : list A) :
  (forall x, x ∈ l -> ~ P x) -> filter P l = [].
Proof.
  induction l as [|x l IH]; intros Hall; [done|].
  rewrite filter_cons_False by (apply Hall; left).
  apply IH. intros y Hy. apply Hall. by right.
Qed.

Lemma pushBalancedRow_select (src : BalancedNativeAllocationsTable)
    (stackOf : nat -> option nat) (rows : list nat) (i : nat) :
  pushBalancedRow src i (stackOf i) (selectBalancedRows src stackOf rows) =
    selectBalancedRows src stackOf (rows ++ [i]).
Proof.
  unfold pushBalancedRow, selectBalancedRows. simpl.
  rewrite !fmap_app, length_app. simpl. f_equal. lia.
Qed.

Lemma pushUnbalancedRow_select (src : UnbalancedNativeAllocationsTable)
    (rows : list nat) (i : nat) :
  pushUnbalancedRow src i (selectUnbalancedRows src rows) =
    selectUnbalancedRows src (rows ++ [i]).
Proof.
  unfold pushUnbalancedRow, selectUnbalancedRows. simpl.
  rewrite !fmap_app, length_app. simpl. f_equal. lia.
Qed.

(** A loop that pushes, in order, the rows that satisfy [P] builds the table
    of these rows. *)
Lemma pushBalancedRows_foldl (src : BalancedNativeAllocationsTable)
    (P : nat -> Prop) `{!forall i, Decision (P i)} (stackOf : nat -> option nat)
    (f : BalancedNativeAllocationsTable -> nat -> BalancedNativeAllocationsTable)
    (l rows : list nat) :
  (forall acc i, f acc i =
     if decide (P i) then pushBalancedRow src i (stackOf i) acc else acc) ->
  foldl f (selectBalancedRows src stackOf rows) l =
    selectBalancedRows src stackOf (rows ++ filter P l).
Proof.
  intros Hf. revert rows. induction l as [|x l IH]; intros rows; simpl.
  - by rewrite app_nil_r.
  - rewrite Hf, filter_cons. case_decide.
    + rewrite pushBalancedRow_select, IH. by rewrite <- app_assoc.
    + apply IH.
Qed.

Lemma pushUnbalancedRows_foldl (src : UnbalancedNativeAllocationsTable)
    (P : nat -> Prop) `{!forall i, Decision (P i)}
    (f : UnbalancedNativeAllocationsTable -> nat -> UnbalancedNativeAllocationsTable)
    (l rows : list nat) :
  (forall acc i, f acc i = if decide (P i) then pushUnbalancedRow src i acc else acc) ->
  foldl f (selectUnbalancedRows src rows) l =
    selectUnbalancedRows src (rows ++ filter P l).
Proof.
  intros Hf. revert rows. induction l as [|x l IH]; intros rows; simpl.
  - by rewrite app_nil_r.
  - rewrite Hf, filter_cons. case_decide.
    + rewrite pushUnbalancedRow_select, IH. by rewrite <- app_assoc.
    + apply IH.
Qed.

Lemma selectRows_wf (src : NativeAllocationsTable) (rows : list nat) :
  NativeAllocationsTable_wf (selectRows src rows).
Proof.
  destruct src as [t|t]; constructor; simpl; by rewrite length_fmap.
Qed.

Lemma filterToAllocations_select (t : NativeAllocationsTable) :
  filterToAllocations t =
    selectRows t (filter (fun i => nativeAllocationsWeight t !!! i > 0)
                    (seq 0 (nativeAllocationsLength t))).
Proof.
  destruct t as [t|t]; simpl; f_equal.
  - apply (pushUnbalancedRows_foldl t (fun i => una_weight t !!! i > 0) _ _ []).
    done.
  - apply (pushBalancedRows_foldl t (fun i => bna_weight t !!! i > 0)
             (fun i => bna_stack t !!! i) _ _ []).
    done.
Qed.

Lemma filterToDeallocationsSites_select (t : NativeAllocationsTable) :
  filterToDeallocationsSites t =
    selectRows t (filter (fun i => nativeAllocationsWeight t !!! i < 0)
                    (seq 0 (nativeAllocationsLength t))).
Proof.
  destruct t as [t|t]; simpl; f_equal.
  - apply (pushUnbalancedRows_foldl t (fun i => una_weight t !!! i < 0) _ _ []).
    done.
  - apply (pushBalancedRows_foldl t (fun i => bna_weight t !!! i < 0)
             (fun i => bna_stack t !!! i) _ _ []).
    done.
Qed.

(** X9: on an allocation table of either shape whose columns have one entry
    per row, [filterToAllocations] returns the rows of strictly positive
    weight and [filterToDeallocationsSites] the rows of strictly negative
    weight, in the order of the table and with all their columns, and the
    columns of both results have one entry per row. *)
Theorem filterToAllocations_rows (t : NativeAllocationsTable) :
  NativeAllocationsTable_wf t ->
  filterToAllocations t =
    selectRows t (filter (fun i => nativeAllocationsWeight t !!! i > 0)
                    (seq 0 (nativeAllocationsLength t))) /\
  filterToDeallocationsSites t =
    selectRows t (filter (fun i => nativeAllocationsWeight t !!! i < 0)
                    (seq 0 (nativeAllocationsLength t))) /\
  NativeAllocationsTable_wf (filterToAllocations t) /\
  NativeAllocationsTable_wf (filterToDeallocationsSites t).
Proof.
  intros _.
  rewrite filterToAllocations_select, filterToDeallocationsSites_select.
  split_and!; try done; apply selectRows_wf.
Qed.

Lemma leakyAllocations_wf : BalancedTable_wf leakyAllocations.
Proof. by constructor. Qed.

Lemma filterToAllocations_rows_witness :
  filterToAllocations (Balanced leakyAllocations) =
    selectRows (Balanced leakyAllocations) [0; 1]%nat.
Proof.
  exact (proj1 (filterToAllocations_rows (Balanced leakyAllocations)
                  leakyAllocations_wf)).
Defined.

(** Selecting all the rows of a table whose weights are bytes gives the
    table back. *)
Lemma selectRows_all (t : NativeAllocationsTable) (rows : list nat) :
  selectRows (selectRows t rows) (seq 0 (length rows)) = selectRows t rows.
Proof.
  destruct t as [t|t]; simpl; f_equal.
  - unfold selectUnbalancedRows at 1. simpl.
    rewrite <- !(length_fmap (fun i => una_time t !!! i) rows) at 1.
    rewrite fmap_lookup_total_seq.
    rewrite (length_fmap (fun i => una_time t !!! i) rows).
    rewrite <- !(length_fmap (fun i => una_weight t !!! i) rows) at 1.
    rewrite fmap_lookup_total_seq.
    rewrite (length_fmap (fun i => una_weight t !!! i) rows).
    rewrite <- !(length_fmap (fun i => una_stack t !!! i) rows) at 1.
    rewrite fmap_lookup_total_seq.
    by rewrite length_seq, !length_fmap.
  - unfold selectBalancedRows at 1. simpl.
    rewrite <- !(length_fmap (fun i => bna_time t !!! i) rows) at 1.
    rewrite fmap_lookup_total_seq.
    rewrite (length_fmap (fun i => bna_time t !!! i) rows).
    rewrite <- !(length_fmap (fun i => bna_weight t !!! i) rows) at 1.
    rewrite fmap_lookup_total_seq.
    rewrite (length_fmap (fun i => bna_weight t !!! i) rows).
    rewrite <- !(length_fmap (fun i => bna_stack t !!! i) rows) at 1.
    rewrite fmap_lookup_total_seq.
    rewrite (length_fmap (fun i => bna_stack t !!! i) rows).
    rewrite <- !(length_fmap (fun i => bna_memoryAddress t !!! i) rows) at 1.
    rewrite fmap_lookup_total_seq.
    rewrite (length_fmap (fun i => bna_memoryAddress t !!! i) rows).
    rewrite <- !(length_fmap (fun i => bna_threadId t !!! i) rows) at 1.
    rewrite fmap_lookup_total_seq.
    by rewrite length_seq, !length_fmap.
Qed.

Lemma nativeAllocationsWeight_selectRows (t : NativeAllocationsTable)
    (rows : list nat) (i : nat) :
  (i < length rows)%nat ->
  nativeAllocationsWeight (selectRows t rows) !!! i =
    nativeAllocationsWeight t !!! (rows !!! i).
Proof.
  intros Hi.
  destruct t as [t|t]; simpl;
    by apply (list_lookup_total_fmap (fun i : nat => _ !!! i)).
Qed.

Lemma nativeAllocationsLength_selectRows (t : NativeAllocationsTable)
    (rows : list nat) :
  nativeAllocationsLength (selectRows t rows) = length rows.
Proof. by destruct t. Qed.

(** Filtering selected rows by their weight: all of them pass when the
    weights of the rows do, none when none of the weights does. *)
Lemma selectRows_filter_all (t : NativeAllocationsTable) (rows : list nat)
    (P : Z -> Prop) `{!forall w, Decision (P w)} :
  (forall i, i ∈ rows -> P (nativeAllocationsWeight t !!! i)) ->
  filter (fun i => P (nativeAllocationsWeight (selectRows t rows) !!! i))
    (seq 0 (nativeAllocationsLength (selectRows t rows))) = seq 0 (length rows).
Proof.
  intros Hall. rewrite nativeAllocationsLength_selectRows.
  apply filter_all. intros i Hi. apply elem_of_seq in Hi.
  rewrite nativeAllocationsWeight_selectRows by lia.
  apply Hall, list_elem_of_lookup_total_2. lia.
Qed.

Lemma selectRows_filter_none (t : NativeAllocationsTable) (rows : list nat)
    (P : Z -> Prop) `{!forall w, Decision (P w)} :
  (forall i, i ∈ rows -> ~ P (nativeAllocationsWeight t !!! i)) ->
  filter (fun i => P (nativeAllocationsWeight (selectRows t rows) !!! i))
    (seq 0 (nativeAllocationsLength (selectRows t rows))) = [].
Proof.
  intros Hall. rewrite nativeAllocationsLength_selectRows.
  apply filter_none. intros i Hi. apply elem_of_seq in Hi.
  rewrite nativeAllocationsWeight_selectRows by lia.
  apply Hall, list_elem_of_lookup_total_2. lia.
Qed.

Lemma selectRows_nil (t : NativeAllocationsTable) (rows : list nat) :
  selectRows (selectRows t rows) [] = selectRows t [].
Proof. by destruct t. Qed.

(** X10: on an allocation table of either shape whose columns have one
    entry per row, [filterToAllocations] and [filterToDeallocationsSites]
    are idempotent, and each of them applied to the result of the other
    returns the table without rows. *)
Theorem filterToAllocations_idempotent (t : NativeAllocationsTable) :
  NativeAllocationsTable_wf t ->
  filterToAllocations (filterToAllocations t) = filterToAllocations t /\
  filterToDeallocationsSites (filterToDeallocationsSites t) =
    filterToDeallocationsSites t /\
  filterToDeallocationsSites (filterToAllocations t) = selectRows t [] /\
  filterToAllocations (filterToDeallocationsSites t) = selectRows t [] /\
  nativeAllocationsLength (selectRows t []) = 0%nat.
Proof.
  intros _.
  rewrite (filterToAllocations_select t), (filterToDeallocationsSites_select t).
  set (allocations := filter (fun i => nativeAllocationsWeight t !!! i > 0) _).
  set (deallocations := filter (fun i => nativeAllocationsWeight t !!! i < 0) _).
  assert (forall i, i ∈ allocations -> nativeAllocationsWeight t !!! i > 0) as Ha.
  { intros i Hi. by apply list_elem_of_filter in Hi as [? _]. }
  assert (forall i, i ∈ deallocations -> nativeAllocationsWeight t !!! i < 0) as Hd.
  { intros i Hi. by apply list_elem_of_filter in Hi as [? _]. }
  rewrite !filterToAllocations_select, !filterToDeallocationsSites_select.
  pose proof (selectRows_filter_all t allocations (fun w => w > 0) Ha) as Haa.
  pose proof (selectRows_filter_all t deallocations (fun w => w < 0) Hd) as Hdd.
  assert (forall i, i ∈ allocations -> ~ nativeAllocationsWeight t !!! i < 0) as Ha'.
  { intros i Hi. specialize (Ha i Hi). lia. }
  assert (forall i, i ∈ deallocations -> ~ nativeAllocationsWeight t !!! i > 0) as Hd'.
  { intros i Hi. specialize (Hd i Hi). lia. }
  pose proof (selectRows_filter_none t allocations (fun w => w < 0) Ha') as Had.
  pose proof (selectRows_filter_none t deallocations (fun w => w > 0) Hd') as Hda.
  cbv beta in Haa, Hdd, Had, Hda.
  rewrite Haa, Hdd, Had, Hda.
  split_and!.
  - apply selectRows_all.
  - apply selectRows_all.
  - apply selectRows_nil.
  - apply selectRows_nil.
  - apply nativeAllocationsLength_selectRows.
Qed.

Lemma filterToAllocations_idempotent_witness :
  filterToAllocations (filterToAllocations (Balanced leakyAllocations)) =
    filterToAllocations (Balanced leakyAllocations).
Proof.
  exact (proj1 (filterToAllocations_idempotent (Balanced leakyAllocations)
                  leakyAllocations_wf)).
Defined.

(** ** Allocations and the deallocations that free them *)

Lemma lastRowAt_Some (memoryAddress : list Z) (a : Z) (k i : nat) :
  lastRowAt memoryAddress a k = Some i <->
  (i < k)%nat /\ memoryAddress !!! i = a /\
  forall j, (i < j < k)%nat -> memoryAddress !!! j ≠ a.
Proof.
  induction k as [|k IH]; simpl.
  - split; [done | intros [? _]; lia].
  - case_decide as Ha.
    + split.
      * intros [= <-]. split_and!; [lia | done | intros; lia].
      * intros (Hi & Hia & Hlast).
        destruct (decide (i = k)) as [->|Hne]; [done|].
        exfalso. apply (Hlast k); [lia | done].
    + rewrite IH. split.
      * intros (Hi & Hia & Hlast). split_and!; [lia | done |].
        intros j Hj. destruct (decide (j = k)) as [->|Hne]; [done|].
        apply Hlast. lia.
      * intros (Hi & Hia & Hlast).
        assert (i ≠ k) by (intros ->; done).
        split_and!; [lia | done |]. intros j Hj. apply Hlast. lia.
Qed.

Lemma liveAllocation_S (t : BalancedNativeAllocationsTable) (a : Z) (k : nat) :
  liveAllocation t a (S k) =
    if decide (bna_memoryAddress t !!! k = a)
    then (if decide (bna_weight t !!! k >= 0) then Some k else None)
    else liveAllocation t a k.
Proof. unfold liveAllocation. simpl. by case_decide. Qed.

Lemma liveAllocation_Some (t : BalancedNativeAllocationsTable) (a : Z) (k i : nat) :
  liveAllocation t a k = Some i <->
  (i < k)%nat /\ bna_memoryAddress t !!! i = a /\ bna_weight t !!! i >= 0 /\
  forall j, (i < j < k)%nat -> bna_memoryAddress t !!! j ≠ a.
Proof.
  unfold liveAllocation. split.
  - intros Hlive.
    destruct (lastRowAt (bna_memoryAddress t) a k) as [i'|] eqn:Hlast; [|done].
    simpl in Hlive. case_decide; [|done]. injection Hlive as ->.
    apply lastRowAt_Some in Hlast as (? & ? & ?). done.
  - intros (Hi & Ha & Hw & Hlast).
    assert (lastRowAt (bna_memoryAddress t) a k = Some i) as ->.
    { by apply lastRowAt_Some. }
    simpl. by rewrite decide_True.
Qed.

(** The deallocation of row [j] finds the allocation of row [i] live at its
    address exactly when it frees it. *)
Lemma liveAllocation_Frees (t : BalancedNativeAllocationsTable) (i j : nat) :
  (j < bna_length t)%nat -> bna_weight t !!! j < 0 ->
  liveAllocation t (bna_memoryAddress t !!! j) j = Some i <-> Frees t i j.
Proof.
  intros Hj Hw. rewrite liveAllocation_Some. unfold Frees. split.
  - intros (Hi & Ha & Hwi & Hlast). split_and!; try done; try lia.
    intros m Hm. rewrite Ha. by apply Hlast.
  - intros (Hi & Hwi & _ & Ha & Hlast). split_and!; try done; try lia.
    intros m Hm. rewrite <- Ha. by apply Hlast.
Qed.

Lemma deallocationsMemoryStep_inv (t : BalancedNativeAllocationsTable) (k : nat)
    (st : DeallocState) :
  DeallocInv t k st -> DeallocInv t (S k) (deallocationsMemoryStep t st k).
Proof.
  intros (Hmap & Hlen & Hstacks). symmetry in Hlen.
  unfold deallocationsMemoryStep, DeallocInv.
  set (a := bna_memoryAddress t !!! k).
  assert (forall j x, (j < S k)%nat ->
            (x = if decide (bna_weight t !!! k >= 0) then None
                 else liveAllocation t a k) ->
            array_set k x (dm_stackOfOriginalAllocation st) !!! j =
              if decide (bna_weight t !!! j >= 0) then None
              else liveAllocation t (bna_memoryAddress t !!! j) j) as Hset.
  { intros j x Hj ->. destruct (decide (j = k)) as [->|Hne].
    - by rewrite array_set_lookup_at_end.
    - rewrite array_set_lookup_before_end by (done || lia). apply Hstacks. lia. }
  case_decide as Hw.
  - simpl. split_and!.
    + intros a'. rewrite liveAllocation_S. fold a.
      rewrite lookup_insert. case_decide as Ha.
      * by rewrite decide_True.
      * apply Hmap.
    + by apply array_set_length_at_end.
    + intros j Hj. by apply Hset.
  - pose proof (Hmap a) as Hlive.
    destruct (dm_memoryAddressToAllocation st !! a) as [previous|] eqn:Hprev;
      simpl; split_and!.
    + intros a'. rewrite liveAllocation_S. fold a.
      rewrite lookup_delete. case_decide as Ha.
      * by rewrite decide_False.
      * apply Hmap.
    + by apply array_set_length_at_end.
    + intros j Hj. by apply Hset.
    + intros a'. rewrite liveAllocation_S. fold a.
      case_decide as Ha.
      * rewrite decide_False by done. by subst a'.
      * apply Hmap.
    + by apply array_set_length_at_end.
    + intros j Hj. by apply Hset.
Qed.

Lemma deallocationsMemoryScan_inv (t : BalancedNativeAllocationsTable) :
  DeallocInv t (bna_length t) (deallocationsMemoryScan t).
Proof.
  unfold deallocationsMemoryScan.
  apply (foldl_seq_invariant (DeallocInv t)).
  - unfold DeallocInv. simpl. split_and!; [done | done | intros; lia].
  - intros k st _. apply deallocationsMemoryStep_inv.
Qed.

Lemma retainedAllocationsStep_inv (t : BalancedNativeAllocationsTable) (k : nat)
    (st : RetainedState) :
  RetainedInv t k st -> RetainedInv t (S k) (retainedAllocationsStep t st k).
Proof.
  intros (Hmap & Hlen & Hretained). symmetry in Hlen.
  unfold retainedAllocationsStep, RetainedInv.
  set (a := bna_memoryAddress t !!! k).
  case_decide as Hw.
  - simpl. split_and!.
    + intros a'. rewrite liveAllocation_S. fold a.
      rewrite lookup_insert. case_decide as Ha.
      * by rewrite decide_True.
      * apply Hmap.
    + by apply array_set_length_at_end.
    + intros i Hi. destruct (decide (i = k)) as [->|Hne].
      * rewrite array_set_lookup_at_end by done.
        split; [|done]. intros _. split; [done | intros; lia].
      * rewrite array_set_lookup_before_end by (done || lia).
        rewrite Hretained by lia. split; intros [Hwi Hfree]; (split; [done|]).
        -- intros j Hj Hwj. destruct (decide (j = k)) as [->|Hnk]; [lia|].
           apply Hfree; [lia | done].
        -- intros j Hj Hwj. apply Hfree; [lia | done].
  - pose proof (Hmap a) as Hlive.
    assert (length (array_set k false (rt_retainedAllocation st)) = S k) as Hlen'.
    { by apply array_set_length_at_end. }
    destruct (rt_memoryAddressToAllocation st !! a) as [previous|] eqn:Hprev;
      simpl; split_and!.
    + intros a'. rewrite liveAllocation_S. fold a.
      rewrite lookup_delete. case_decide as Ha.
      * by rewrite decide_False.
      * apply Hmap.
    + symmetry in Hlive. apply liveAllocation_Some in Hlive as (Hp & _).
      rewrite array_set_length_inside; [done | lia].
    + symmetry in Hlive. pose proof Hlive as Hlive'.
      apply liveAllocation_Some in Hlive' as (Hp & _).
      intros i Hi. destruct (decide (i = previous)) as [->|Hnp].
      * rewrite array_set_lookup_eq by lia. split; [done|].
        intros [_ Hfree]. exfalso. apply (Hfree k); [lia | lia | done].
      * rewrite array_set_lookup_ne by lia.
        destruct (decide (i = k)) as [->|Hne].
        -- rewrite array_set_lookup_at_end by done. split; [done|]. lia.
        -- rewrite array_set_lookup_before_end by (done || lia).
           rewrite Hretained by lia.
           split; intros [Hwi Hfree]; (split; [done|]).
           ++ intros j Hj Hwj. destruct (decide (j = k)) as [->|Hnk].
              ** fold a. rewrite Hlive. congruence.
              ** apply Hfree; [lia | done].
           ++ intros j Hj Hwj. apply Hfree; [lia | done].
    + intros a'. rewrite liveAllocation_S. fold a.
      case_decide as Ha.
      * rewrite decide_False by done. by subst a'.
      * apply Hmap.
    + done.
    + intros i Hi. destruct (decide (i = k)) as [->|Hne].
      * rewrite array_set_lookup_at_end by done. split; [done|]. lia.
      * rewrite array_set_lookup_before_end by (done || lia).
        rewrite Hretained by lia.
        split; intros [Hwi Hfree]; (split; [done|]).
        -- intros j Hj Hwj. destruct (decide (j = k)) as [->|Hnk].
           ++ fold a. rewrite <- Hlive. done.
           ++ apply Hfree; [lia | done].
        -- intros j Hj Hwj. apply Hfree; [lia | done].
Qed.

Lemma retainedAllocationsScan_inv (t : BalancedNativeAllocationsTable) :
  RetainedInv t (bna_length t) (retainedAllocationsScan t).
Proof.
  unfold retainedAllocationsScan.
  apply (foldl_seq_invariant (RetainedInv t)).
  - unfold RetainedInv. simpl. split_and!; [done | done | intros; lia].
  - intros k st _. apply retainedAllocationsStep_inv.
Qed.

(** X11: on a balanced allocation table whose columns have one entry per
    row, [filterToRetainedAllocations] returns, in the order of the table and
    with all their columns, the rows that are allocations (weight at least
    0) and that no later deallocation frees, where a deallocation frees the
    allocation that is the last row before it at the same memory address. *)
Theorem filterToRetainedAllocations_rows (t : BalancedNativeAllocationsTable) :
  BalancedTable_wf t ->
  exists rows,
    filterToRetainedAllocations t =
      Balanced (selectBalancedRows t (fun i => bna_stack t !!! i) rows) /\
    rows `sublist_of` seq 0 (bna_length t) /\
    forall i, i ∈ rows <->
      (i < bna_length t)%nat /\ bna_weight t !!! i >= 0 /\
      ~ exists j, Frees t i j.
Proof.
  intros _.
  destruct (retainedAllocationsScan_inv t) as (_ & Hlen & Hretained).
  unfold filterToRetainedAllocations.
  set (retained := rt_retainedAllocation (retainedAllocationsScan t)) in *.
  exists (filter (fun i => retained !!! i = true) (seq 0 (bna_length t))).
  split_and!.
  - f_equal.
    apply (pushBalancedRows_foldl t (fun i => retained !!! i = true)
             (fun i => bna_stack t !!! i) _ _ []).
    intros acc i. destruct (retained !!! i); by case_decide.
  - apply sublist_filter.
  - intros i. rewrite list_elem_of_filter, elem_of_seq. split.
    + intros [Hr Hi]. apply Hretained in Hr as [Hw Hfree]; [|lia].
      split_and!; [lia | done |].
      intros (j & Hfrees). pose proof Hfrees as ((Hij & Hj) & _ & Hwj & _).
      apply (Hfree j); [lia | done |].
      by apply liveAllocation_Frees.
    + intros (Hi & Hw & Hfree). split; [|lia].
      apply Hretained; [done|]. split; [done|].
      intros j Hj Hwj Hlive. apply Hfree. exists j.
      apply liveAllocation_Frees; [lia | done | done].
Qed.

Lemma filterToRetainedAllocations_rows_witness :
  exists rows,
    filterToRetainedAllocations leakyAllocations =
      Balanced (selectBalancedRows leakyAllocations
                  (fun i => bna_stack leakyAllocations !!! i) rows) /\
    rows `sublist_of` seq 0 (bna_length leakyAllocations) /\
    forall i, i ∈ rows <->
      (i < bna_length leakyAllocations)%nat /\
      bna_weight leakyAllocations !!! i >= 0 /\
      ~ exists j, Frees leakyAllocations i j.
Proof.
  exact (filterToRetainedAllocations_rows leakyAllocations leakyAllocations_wf).
Defined.

(** X12: on a balanced allocation table whose columns have one entry per
    row, [filterToDeallocationsMemory] returns, in the order of the table,
    the deallocations that free an allocation, with their own time, weight,
    address and thread id; the stack column of such a row holds the row
    index of the allocation it frees. *)
Theorem filterToDeallocationsMemory_rows (t : BalancedNativeAllocationsTable) :
  BalancedTable_wf t ->
  exists rows allocationOf,
    filterToDeallocationsMemory t =
      Balanced (selectBalancedRows t allocationOf rows) /\
    rows `sublist_of` seq 0 (bna_length t) /\
    (forall j, j ∈ rows <-> exists i, Frees t i j) /\
    (forall i j, Frees t i j -> allocationOf j = Some i).
Proof.
  intros _.
  destruct (deallocationsMemoryScan_inv t) as (_ & Hlen & Hstacks).
  unfold filterToDeallocationsMemory.
  set (stacks := dm_stackOfOriginalAllocation (deallocationsMemoryScan t)) in *.
  exists (filter (fun j => is_Some (stacks !!! j)) (seq 0 (bna_length t))).
  exists (fun j => stacks !!! j).
  assert (forall i j, Frees t i j -> stacks !!! j = Some i) as Hfrees.
  { intros i j Hf. pose proof Hf as ((Hij & Hj) & _ & Hwj & _).
    rewrite Hstacks by done. rewrite decide_False by lia.
    by apply liveAllocation_Frees. }
  split_and!.
  - f_equal.
    apply (pushBalancedRows_foldl t (fun j => is_Some (stacks !!! j))
             (fun j => stacks !!! j) _ _ []).
    intros acc j. destruct (stacks !!! j) as [i|] eqn:Hs.
    + rewrite decide_True; [done | by eexists].
    + rewrite decide_False; [done | by intros [? ?]].
  - apply sublist_filter.
  - intros j. rewrite list_elem_of_filter, elem_of_seq. split.
    + intros [[i Hi] Hj]. exists i.
      rewrite Hstacks in Hi by lia.
      case_decide as Hw; [done|].
      apply liveAllocation_Frees; [lia | lia | done].
    + intros (i & Hf). pose proof Hf as ((Hij & Hj) & _).
      split; [|lia]. rewrite (Hfrees i j Hf). by eexists.
  - done.
Qed.

Lemma filterToDeallocationsMemory_rows_witness :
  exists rows allocationOf,
    filterToDeallocationsMemory leakyAllocations =
      Balanced (selectBalancedRows leakyAllocations allocationOf rows) /\
    rows `sublist_of` seq 0 (bna_length leakyAllocations) /\
    (forall j, j ∈ rows <-> exists i, Frees leakyAllocations i j) /\
    (forall i j, Frees leakyAllocations i j -> allocationOf j = Some i).
Proof.
  exact (filterToDeallocationsMemory_rows leakyAllocations leakyAllocations_wf).
Defined.

(** ** Events of weight 0 *)

(** The rows that the first loop of [filterToRetainedAllocations] leaves
    marked are the allocations that no deallocation frees. *)
Lemma retainedAllocationsScan_retained (t : BalancedNativeAllocationsTable) (i : nat) :
  (i < bna_length t)%nat ->
  rt_retainedAllocation (retainedAllocationsScan t) !!! i = true <->
  bna_weight t !!! i >= 0 /\ ~ exists j, Frees t i j.
Proof.
  intros Hi. destruct (retainedAllocationsScan_inv t) as (_ & _ & Hretained).
  rewrite Hretained by done. split.
  - intros [Hw Hfree]. split; [done|].
    intros (j & Hfrees). pose proof Hfrees as ((Hij & Hj) & _ & Hwj & _).
    apply (Hfree j); [lia | done |]. by apply liveAllocation_Frees.
  - intros [Hw Hfree]. split; [done|].
    intros j Hj Hwj Hlive. apply Hfree. exists j.
    apply liveAllocation_Frees; [lia | done | done].
Qed.

(** The entry of [stackOfOriginalAllocation] for a deallocation is the row
    of the allocation that it frees. *)
Lemma deallocationsMemoryScan_frees (t : BalancedNativeAllocationsTable) (i j : nat) :
  Frees t i j ->
  dm_stackOfOriginalAllocation (deallocationsMemoryScan t) !!! j = Some i.
Proof.
  intros Hf. destruct (deallocationsMemoryScan_inv t) as (_ & _ & Hstacks).
  pose proof Hf as ((Hij & Hj) & _ & Hwj & _).
  rewrite Hstacks by done. rewrite decide_False by lia.
  by apply liveAllocation_Frees.
Qed.

(** C10: an event of weight 0 is an allocation for the two pairing passes
    and none for [filterToAllocations].  For every row [i] of weight 0 of a
    balanced table: [filterToDeallocationsMemory] keeps every deallocation
    that frees row [i] and gives it row [i] as its allocation;
    [filterToRetainedAllocations] keeps row [i] exactly when no deallocation
    frees it, and it keeps the allocation that was live at the address of
    row [i] before it, whatever is deallocated at that address afterwards,
    because row [i] took its place in the map; [filterToAllocations] keeps
    only rows of strictly positive weight, so never row [i].  On
    [shadowedAllocation] the deallocation is matched to the event of weight
    0, the allocation of 100 bytes is reported as retained, and the
    allocations view shows only that allocation; on [zeroWeightAllocation]
    the event of weight 0 is freed and the allocations view is empty. *)
Theorem weight_zero_is_paired_but_not_an_allocation
    (t : BalancedNativeAllocationsTable) (i : nat) :
  BalancedTable_wf t ->
  (i < bna_length t)%nat ->
  bna_weight t !!! i = 0 ->
  (exists rows allocationOf,
     filterToDeallocationsMemory t =
       Balanced (selectBalancedRows t allocationOf rows) /\
     rows `sublist_of` seq 0 (bna_length t) /\
     forall j, Frees t i j -> j ∈ rows /\ allocationOf j = Some i) /\
  (exists rows,
     filterToRetainedAllocations t =
       Balanced (selectBalancedRows t (fun r => bna_stack t !!! r) rows) /\
     rows `sublist_of` seq 0 (bna_length t) /\
     (i ∈ rows <-> ~ exists j, Frees t i j) /\
     forall h, (h < i)%nat -> bna_weight t !!! h >= 0 ->
       bna_memoryAddress t !!! h = bna_memoryAddress t !!! i ->
       (forall m, (h < m < i)%nat ->
          bna_memoryAddress t !!! m ≠ bna_memoryAddress t !!! i) ->
       h ∈ rows) /\
  (exists rows,
     filterToAllocations (Balanced t) =
       Balanced (selectBalancedRows t (fun r => bna_stack t !!! r) rows) /\
     (i ∉ rows) /\
     forall r, r ∈ rows <-> (r < bna_length t)%nat /\ bna_weight t !!! r > 0) /\
  filterToDeallocationsMemory shadowedAllocation =
    Balanced {| bna_time := [2]; bna_weight := [-100]; bna_weightType := "bytes";
                bna_stack := [Some 1%nat]; bna_memoryAddress := [16];
                bna_threadId := [1]; bna_length := 1 |} /\
  filterToRetainedAllocations shadowedAllocation =
    Balanced {| bna_time := [0]; bna_weight := [100]; bna_weightType := "bytes";
                bna_stack := [Some 7%nat]; bna_memoryAddress := [16];
                bna_threadId := [1]; bna_length := 1 |} /\
  filterToAllocations (Balanced shadowedAllocation) =
    Balanced {| bna_time := [0]; bna_weight := [100]; bna_weightType := "bytes";
                bna_stack := [Some 7%nat]; bna_memoryAddress := [16];
                bna_threadId := [1]; bna_length := 1 |} /\
  filterToDeallocationsMemory zeroWeightAllocation =
    Balanced {| bna_time := [1]; bna_weight := [-100]; bna_weightType := "bytes";
                bna_stack := [Some 0%nat]; bna_memoryAddress := [16];
                bna_threadId := [1]; bna_length := 1 |} /\
  filterToRetainedAllocations zeroWeightAllocation =
    Balanced getEmptyBalancedNativeAllocationsTable /\
  filterToAllocations (Balanced zeroWeightAllocation) =
    Balanced getEmptyBalancedNativeAllocationsTable.
Proof.
  intros _ Hi Hzero.
  split_and!; try (vm_compute; reflexivity).
  - set (stacks := dm_stackOfOriginalAllocation (deallocationsMemoryScan t)).
    exists (filter (fun j => is_Some (stacks !!! j)) (seq 0 (bna_length t))).
    exists (fun j => stacks !!! j). split_and!.
    + unfold filterToDeallocationsMemory. fold stacks. f_equal.
      apply (pushBalancedRows_foldl t (fun j => is_Some (stacks !!! j))
               (fun j => stacks !!! j) _ _ []).
      intros acc j. destruct (stacks !!! j) as [s|] eqn:Hs.
      * rewrite decide_True; [done | by eexists].
      * rewrite decide_False; [done | by intros [? ?]].
    + apply sublist_filter.
    + intros j Hf. pose proof Hf as ((Hij & Hj) & _).
      pose proof (deallocationsMemoryScan_frees t i j Hf) as Hs. fold stacks in Hs.
      split; [|done]. rewrite list_elem_of_filter, elem_of_seq.
      split; [by eexists | lia].
  - set (retained := rt_retainedAllocation (retainedAllocationsScan t)).
    exists (filter (fun r => retained !!! r = true) (seq 0 (bna_length t))).
    split_and!.
    + unfold filterToRetainedAllocations. fold retained. f_equal.
      apply (pushBalancedRows_foldl t (fun r => retained !!! r = true)
               (fun r => bna_stack t !!! r) _ _ []).
      intros acc r. destruct (retained !!! r); by case_decide.
    + apply sublist_filter.
    + rewrite list_elem_of_filter, elem_of_seq. unfold retained.
      rewrite retainedAllocationsScan_retained by done. split.
      * by intros [[_ Hfree] _].
      * intros Hfree. split_and!; [lia | done | lia | lia].
    + intros h Hh Hwh Ha Hbetween.
      rewrite list_elem_of_filter, elem_of_seq. unfold retained.
      rewrite retainedAllocationsScan_retained by lia.
      split_and!; [done | | lia | lia].
      intros (j & (Hhj & Hj) & _ & Hwj & Haj & Hlast).
      destruct (Nat.lt_trichotomy j i) as [Hlt|[->|Hgt]].
      * apply (Hbetween j); [lia | congruence].
      * lia.
      * apply (Hlast i); [lia | congruence].
  - exists (filter (fun r => bna_weight t !!! r > 0) (seq 0 (bna_length t))).
    split_and!.
    + apply (filterToAllocations_select (Balanced t)).
    + rewrite list_elem_of_filter. lia.
    + intros r. rewrite list_elem_of_filter, elem_of_seq. split; [lia|].
      intros [? ?]. split; [done | lia].
Qed.

Lemma shadowedAllocation_wf : BalancedTable_wf shadowedAllocation.
Proof. by constructor. Qed.

Lemma weight_zero_is_paired_but_not_an_allocation_witness :
  (exists rows allocationOf,
     filterToDeallocationsMemory shadowedAllocation =
       Balanced (selectBalancedRows shadowedAllocation allocationOf rows) /\
     rows `sublist_of` seq 0 (bna_length shadowedAllocation) /\
     forall j, Frees shadowedAllocation 1 j -> j ∈ rows /\ allocationOf j = Some 1%nat).
Proof.
  apply (weight_zero_is_paired_but_not_an_allocation shadowedAllocation 1
           shadowedAllocation_wf); [simpl; lia | reflexivity].
Defined.

(** ** The resolver and its cache *)

Lemma _getCallNodeIndexFromParentAndFunc_Some (t : CallNodeTable)
    (parent func c : Z) :
  _getCallNodeIndexFromParentAndFunc parent func t = Some c ->
  0 <= c < Z.of_nat (cn_length t) /\ parent < c /\
  cn_prefix t !!! Z.to_nat c = parent /\ cn_func t !!! Z.to_nat c = func.
Proof.
  unfold _getCallNodeIndexFromParentAndFunc. intros Hfind.
  apply fmap_Some in Hfind as ([i y] & Hfind & ->). simpl.
  apply list_find_Some in Hfind as (Hy & [Hp Hf] & _).
  apply lookup_seq in Hy as [-> Hi].
  rewrite Nat2Z.id. split_and!; try done; lia.
Qed.

Lemma walkDown_app (t : CallNodeTable) (l1 l2 : list Z) (a : Z) :
  walkDown t (l1 ++ l2) a = walkDown t l1 a ≫= walkDown t l2.
Proof.
  revert a. induction l1 as [|f l1 IH]; intros a; simpl; [done|].
  destruct (_getCallNodeIndexFromParentAndFunc a f t); simpl; [apply IH | done].
Qed.

(** The descent follows the links of the table. *)
Lemma walkDown_Descends (t : CallNodeTable) (funcs : list Z) (a n : Z) :
  walkDown t funcs a = Some n -> Descends t a funcs n.
Proof.
  revert a. induction funcs as [|f funcs IH]; intros a; simpl.
  - intros [= ->]. constructor.
  - destruct (_getCallNodeIndexFromParentAndFunc a f t) as [c|] eqn:Hc; [|done].
    simpl. intros Hwalk.
    apply _getCallNodeIndexFromParentAndFunc_Some in Hc as (Hrange & _ & Hp & <-).
    econstructor; [done | done | by apply IH].
Qed.

Lemma Descends_range (t : CallNodeTable) (a n : Z) (funcs : list Z) :
  Descends t a funcs n -> funcs ≠ [] -> 0 <= n < Z.of_nat (cn_length t).
Proof.
  induction 1 as [a|a c n funcs Hc Hp Hd IH]; [done|]. intros _.
  destruct funcs as [|f funcs]; [|by apply IH].
  by inversion Hd; subst.
Qed.

Lemma Descends_PathOf (t : CallNodeTable) (a n : Z) (funcs path : list Z) :
  Descends t a funcs n -> PathOf t a path -> PathOf t n (path ++ funcs).
Proof.
  intros Hd. revert path.
  induction Hd as [a|a c n funcs Hc Hp Hd IH]; intros path Hpath.
  - by rewrite app_nil_r.
  - change (cn_func t !!! Z.to_nat c :: funcs)
      with ([cn_func t !!! Z.to_nat c] ++ funcs).
    rewrite app_assoc. apply IH.
    constructor; [done|]. by rewrite Hp.
Qed.

Lemma resolveDownwards_walkDown (t : CallNodeTable) (funcs : list Z) (a : Z)
    (sliceHashes : list string) (cache : gmap string Z) :
  (resolveDownwards t funcs a sliceHashes cache).1 =
    n ← walkDown t funcs a; if decide (n < 0) then None else Some n.
Proof.
  revert a sliceHashes cache.
  induction funcs as [|f funcs IH]; intros a sliceHashes cache; simpl; [done|].
  destruct (_getCallNodeIndexFromParentAndFunc a f t); simpl; [apply IH | done].
Qed.

Lemma getCallNodeIndexFromPath_walkDown (hashPath : CallNodePath -> string)
    (t : CallNodeTable) (path : CallNodePath) :
  getCallNodeIndexFromPath hashPath path t =
    if decide (path = []) then None
    else n ← walkDown t path (-1); if decide (n < 0) then None else Some n.
Proof.
  case_decide as Hpath.
  - subst. apply getCallNodeIndexFromPath_empty.
  - assert (0 < length path)%nat as Hlen by (destruct path; [done | simpl; lia]).
    unfold getCallNodeIndexFromPath, getCallNodeIndicesFromPaths. simpl.
    unfold _getCallNodeIndexFromPathWithCache. rewrite lookup_empty.
    destruct (findCachedParent_empty_cache hashPath path (length path)
                [hashPath path] Hlen) as (hs & ->).
    rewrite decide_False by lia. simpl. rewrite drop_0.
    pose proof (resolveDownwards_walkDown t path (-1) hs ∅) as Hres.
    by destruct (resolveDownwards t path (-1) hs ∅) as [r cache'].
Qed.

(** X13: on a well-formed call-node table, when [getCallNodeIndexFromPath]
    resolves a path to a call node, that call node is a row of the table,
    the path lists the functions from a root down to it, and
    [getCallNodePathFromIndex] on the call node returns the path. *)
Theorem getCallNodePathFromIndex_of_getCallNodeIndexFromPath
    (hashPath : CallNodePath -> string) (t : CallNodeTable)
    (path : CallNodePath) (n : Z) :
  CallNodeTable_wf t ->
  getCallNodeIndexFromPath hashPath path t = Some n ->
  0 <= n < Z.of_nat (cn_length t) /\
  PathOf t n path /\
  getCallNodePathFromIndex (Some n) t = Some path.
Proof.
  intros Hwf. rewrite getCallNodeIndexFromPath_walkDown.
  case_decide as Hpath; [done|].
  destruct (walkDown t path (-1)) as [n'|] eqn:Hwalk; [|done]. simpl.
  case_decide; [done|]. intros [= ->].
  apply walkDown_Descends in Hwalk.
  pose proof (Descends_range t _ _ _ Hwalk Hpath) as Hn.
  pose proof (Descends_PathOf t _ _ _ [] Hwalk (PathOf_root t)) as Hof.
  simpl in Hof.
  destruct (getCallNodePathFromIndex_PathOf t Hwf n Hn) as (path' & Hof' & Hget).
  assert (path' = path) as -> by (by eapply PathOf_functional).
  done.
Qed.

Lemma getCallNodePathFromIndex_of_getCallNodeIndexFromPath_witness :
  getCallNodePathFromIndex (Some 2) sampleCallNodeTable = Some [0; 1].
Proof.
  apply (getCallNodePathFromIndex_of_getCallNodeIndexFromPath sampleHashPath
           sampleCallNodeTable [0; 1] 2 sampleCallNodeTable_wf).
  reflexivity.
Defined.

Section ResolverCache.

Variable hashPath : CallNodePath -> string.
Hypothesis hashPath_inj : Inj (=) (=) hashPath.
Variable t : CallNodeTable.

Lemma CacheOk_empty : CacheOk hashPath t ∅.
Proof. intros path n. by rewrite lookup_empty. Qed.

Lemma CacheOk_resolved (cache : gmap string Z) (path : CallNodePath) (n : Z) :
  CacheOk hashPath t cache ->
  cache !! hashPath path = Some n ->
  getCallNodeIndexFromPath hashPath path t = Some n.
Proof.
  intros Hok Hn. destruct (Hok path n Hn) as (Hpath & Hnn & Hwalk).
  rewrite getCallNodeIndexFromPath_walkDown, decide_False, Hwalk by done.
  simpl. by rewrite decide_False by lia.
Qed.

Lemma findCachedParent_unfold (path : CallNodePath) (cache : gmap string Z)
    (m : nat) (hs : list string) :
  findCachedParent hashPath path cache (S (S m)) hs =
    match cache !! hashPath (take (S m) path) with
    | Some index => (Z.of_nat (S m), Some index, hs)
    | None =>
        findCachedParent hashPath path cache (S m)
          (hashPath (take (S m) path) :: hs)
    end.
Proof. done. Qed.

(** What step 1 leaves: the position [i] from which step 2 starts, the
    cached call node of the first [i] functions if [i] is not 0, and the
    hashes of the longer prefixes of the path, shortest first. *)
Lemma findCachedParent_spec (path : CallNodePath) (cache : gmap string Z)
    (m : nat) (hs0 : list string) :
  (0 < m)%nat ->
  exists (i : nat) (index : option Z),
    findCachedParent hashPath path cache m hs0 =
      (Z.of_nat i, index,
       ((fun k => hashPath (take k path)) <$> seq (S i) (m - 1 - i)) ++ hs0) /\
    (i < m)%nat /\
    match index with
    | Some v => (0 < i)%nat /\ cache !! hashPath (take i path) = Some v
    | None => i = 0%nat
    end.
Proof.
  revert hs0. induction m as [|m IH]; intros hs0 Hm; [lia|].
  destruct m as [|m].
  - exists 0%nat, None. split_and!; [done | lia | done].
  - rewrite findCachedParent_unfold.
    destruct (cache !! hashPath (take (S m) path)) as [v|] eqn:Hv.
    + exists (S m), (Some v). split_and!; [|lia | lia | done].
      by replace (S (S m) - 1 - S m)%nat with 0%nat by lia.
    + destruct (IH (hashPath (take (S m) path) :: hs0) ltac:(lia))
        as (i & index & -> & Hi & Hindex).
      exists i, index. split_and!; [|lia | done].
      f_equal.
      replace (S (S m) - 1 - i)%nat with (S (S m - 1 - i))%nat by lia.
      rewrite seq_S, fmap_app, <- app_assoc. simpl.
      do 4 f_equal. lia.
Qed.

(** Step 2 only adds entries for the prefixes of the path it walks. *)
Lemma resolveDownwards_cache (path : CallNodePath) (funcs : list Z) (k : nat)
    (a : Z) (hs0 : list string) (cache : gmap string Z) :
  drop k path = funcs ->
  walkDown t (take k path) (-1) = Some a ->
  CacheOk hashPath t cache ->
  CacheOk hashPath t
    (resolveDownwards t funcs a
       (((fun k' => hashPath (take k' path)) <$> seq (S k) (length funcs)) ++ hs0)
       cache).2.
Proof.
  revert k a cache.
  induction funcs as [|f funcs IH]; intros k a cache Hdrop Hwalk Hok; [done|].
  cbn [resolveDownwards].
  destruct (_getCallNodeIndexFromParentAndFunc a f t) as [next|] eqn:Hnext;
    [|done].
  assert (path !! k = Some f) as Hk.
  { pose proof (lookup_drop path k 0) as Hlook.
    rewrite Hdrop, Nat.add_0_r in Hlook. done. }
  assert (drop (S k) path = funcs) as Hdrop'.
  { replace (S k) with (k + 1)%nat by lia.
    rewrite <- drop_drop, Hdrop. done. }
  assert (walkDown t (take (S k) path) (-1) = Some next) as Hwalk'.
  { rewrite (take_S_r path k f Hk), walkDown_app, Hwalk. simpl.
    by rewrite Hnext. }
  simpl. apply (IH (S k)); [done | done |].
  intros q n. rewrite lookup_insert. case_decide as Hq.
  - intros [= <-]. apply hashPath_inj in Hq. subst q.
    apply _getCallNodeIndexFromParentAndFunc_Some in Hnext as (Hrange & _).
    split_and!; [|lia | done].
    rewrite (take_S_r path k f Hk). by destruct (take k path).
  - apply Hok.
Qed.

Lemma _getCallNodeIndexFromPathWithCache_transparent (path : CallNodePath)
    (cache : gmap string Z) :
  CacheOk hashPath t cache ->
  (_getCallNodeIndexFromPathWithCache hashPath path t cache).1 =
    getCallNodeIndexFromPath hashPath path t /\
  CacheOk hashPath t (_getCallNodeIndexFromPathWithCache hashPath path t cache).2.
Proof.
  intros Hok. unfold _getCallNodeIndexFromPathWithCache.
  destruct (cache !! hashPath path) as [result|] eqn:Hresult.
  { simpl. split; [|done]. symmetry. by eapply CacheOk_resolved. }
  destruct (decide (path = [])) as [->|Hpath].
  { simpl. split; [|done]. symmetry. apply getCallNodeIndexFromPath_empty. }
  assert (0 < length path)%nat as Hlen by (destruct path; [done | simpl; lia]).
  destruct (findCachedParent_spec path cache (length path) [hashPath path] Hlen)
    as (i & index & -> & Hi & Hindex).
  rewrite decide_False by lia. rewrite Nat2Z.id.
  assert (walkDown t (take i path) (-1) = Some (default (-1) index)) as Hwalk.
  { destruct index as [v|]; simpl.
    - destruct Hindex as [_ Hv]. by destruct (Hok _ _ Hv) as (_ & _ & ?).
    - by subst i. }
  assert (((fun k => hashPath (take k path)) <$> seq (S i) (length path - 1 - i))
            ++ [hashPath path] =
          ((fun k => hashPath (take k path)) <$> seq (S i) (length (drop i path)))
            ++ []) as ->.
  { rewrite app_nil_r, length_drop.
    replace (length path - i)%nat with (S (length path - 1 - i)) by lia.
    rewrite seq_S, fmap_app. f_equal. simpl. do 2 f_equal.
    symmetry. apply take_ge. lia. }
  split.
  - rewrite resolveDownwards_walkDown, getCallNodeIndexFromPath_walkDown.
    rewrite decide_False by done.
    rewrite <- (take_drop i path) at 2. rewrite walkDown_app, Hwalk. done.
  - by apply resolveDownwards_cache.
Qed.

Lemma resolvePathsWithCache_transparent (paths : list CallNodePath)
    (cache : gmap string Z) :
  CacheOk hashPath t cache ->
  resolvePathsWithCache hashPath paths t cache =
    (fun path => getCallNodeIndexFromPath hashPath path t) <$> paths.
Proof.
  revert cache. induction paths as [|path paths IH]; intros cache Hok; [done|].
  cbn [resolvePathsWithCache].
  destruct (_getCallNodeIndexFromPathWithCache_transparent path cache Hok)
    as [Hr Hok'].
  destruct (_getCallNodeIndexFromPathWithCache hashPath path t cache)
    as [r cache'].
  simpl in Hr, Hok'. rewrite fmap_cons, Hr. f_equal. by apply IH.
Qed.

End ResolverCache.

Lemma injectiveHashPath_inj : Inj (=) (=) injectiveHashPath.
Proof.
  intros p q Hpq. unfold injectiveHashPath in Hpq.
  by apply (inj pretty), (inj encode) in Hpq.
Qed.

(** X14: with a hash that tells any two paths apart, the cache of
    [getCallNodeIndicesFromPaths] does not change its results: on every
    table, the call nodes of a list of paths are those that
    [getCallNodeIndexFromPath] returns for each path on its own. *)
Theorem getCallNodeIndicesFromPaths_cache_transparent
    (hashPath : CallNodePath -> string) (t : CallNodeTable)
    (paths : list CallNodePath) :
  Inj (=) (=) hashPath ->
  getCallNodeIndicesFromPaths hashPath paths t =
    (fun path => getCallNodeIndexFromPath hashPath path t) <$> paths.
Proof.
  intros Hinj. unfold getCallNodeIndicesFromPaths.
  apply resolvePathsWithCache_transparent; [done|]. apply CacheOk_empty.
Qed.

Lemma getCallNodeIndicesFromPaths_cache_transparent_witness :
  getCallNodeIndicesFromPaths injectiveHashPath [[0; 1]; [0]; [0; 1; 7]]
    sampleCallNodeTable =
  (fun path => getCallNodeIndexFromPath injectiveHashPath path sampleCallNodeTable)
    <$> [[0; 1]; [0]; [0; 1; 7]].
Proof.
  exact (getCallNodeIndicesFromPaths_cache_transparent injectiveHashPath
           sampleCallNodeTable [[0; 1]; [0]; [0; 1; 7]] injectiveHashPath_inj).
Defined.

(** ** The selected states of the samples *)

Section SelectedStates.

Variable t : CallNodeTable.
Hypothesis Hwf : CallNodeTable_wf t.

Lemma treeKey_length (n : Z) :
  0 <= n < Z.of_nat (cn_length t) ->
  Z.of_nat (length (treeKey t n)) = cn_depth t !!! Z.to_nat n + 1.
Proof.
  intros Hn. remember (Z.to_nat n) as k eqn:Hk.
  revert n Hn Hk. induction k as [k IH] using lt_wf_ind. intros n Hn ->.
  rewrite (treeKey_unfold t Hwf n Hn), length_app. simpl.
  destruct (cn_wf_nodes _ Hwf (Z.to_nat n) ltac:(lia)) as [[Hp Hd]|[Hp Hd]].
  - rewrite Hp, treeKey_root, Hd. simpl. lia.
  - assert (Z.to_nat (cn_prefix t !!! Z.to_nat n) < Z.to_nat n)%nat as Hlt by lia.
    assert (0 <= cn_prefix t !!! Z.to_nat n < Z.of_nat (cn_length t)) as Hin by lia.
    pose proof (IH _ Hlt _ Hin eq_refl). lia.
Qed.

Lemma treeKey_last (n : Z) :
  0 <= n < Z.of_nat (cn_length t) ->
  treeKey t n !! Z.to_nat (cn_depth t !!! Z.to_nat n) = Some n.
Proof.
  intros Hn. pose proof (treeKey_length n Hn) as Hlen.
  pose proof (depth_range t Hwf n Hn) as Hd.
  rewrite (treeKey_unfold t Hwf n Hn) in Hlen |- *.
  rewrite length_app in Hlen. simpl in Hlen.
  rewrite lookup_app_r by lia.
  replace (_ - _)%nat with 0%nat by lia. done.
Qed.

(** The entry at depth [j] of the key of [s] is the ancestor of [s] at that
    depth, and the key up to that entry is the key of the ancestor. *)
Lemma treeKey_ancestor (s : Z) (j : Z) :
  0 <= s < Z.of_nat (cn_length t) ->
  0 <= j <= cn_depth t !!! Z.to_nat s ->
  exists y rest,
    0 <= y < Z.of_nat (cn_length t) /\
    cn_depth t !!! Z.to_nat y = j /\
    treeKey t s = treeKey t y ++ rest /\
    treeKey t s !! Z.to_nat j = Some y /\
    IsSelfOrAncestor t y s.
Proof.
  intros Hs Hj.
  assert (Z.of_nat (Z.to_nat (cn_depth t !!! Z.to_nat s - j))
            <= cn_depth t !!! Z.to_nat s) as Hk by lia.
  destruct (walkTowardsRoot_key t Hwf (Z.to_nat (cn_depth t !!! Z.to_nat s - j)) s Hs
              Hk) as (Hy & Hd & rest & Hrest & Hkey).
  set (y := walkTowardsRoot t _ s) in *.
  exists y, rest. split_and!; [lia | lia | lia | done | |].
  - rewrite Hkey. rewrite lookup_app_l.
    + replace (Z.to_nat j) with (Z.to_nat (cn_depth t !!! Z.to_nat y)) by lia.
      by apply treeKey_last.
    + pose proof (treeKey_length y Hy). lia.
  - eexists. split; [|done]. lia.
Qed.

Lemma treeKey_lookup_self (s y : Z) :
  0 <= s < Z.of_nat (cn_length t) ->
  0 <= y < Z.of_nat (cn_length t) ->
  cn_depth t !!! Z.to_nat y <= cn_depth t !!! Z.to_nat s ->
  treeKey t s !! Z.to_nat (cn_depth t !!! Z.to_nat y) = Some y ->
  exists rest, treeKey t s = treeKey t y ++ rest.
Proof.
  intros Hs Hy Hd Hlook.
  pose proof (depth_range t Hwf y Hy) as Hdy.
  assert (0 <= cn_depth t !!! Z.to_nat y <= cn_depth t !!! Z.to_nat s) as Hj by lia.
  destruct (treeKey_ancestor s (cn_depth t !!! Z.to_nat y) Hs Hj)
    as (y' & rest & Hy' & Hdy' & Hkey & Hlook' & _).
  assert (y' = y) as -> by congruence. by exists rest.
Qed.

(** The loop fills the array with the key of the selected call node. *)
Lemma fillSelectedCallNodeAtDepth_key (n : nat) (x : Z) (array : list (option Z)) :
  (x = -1 /\ n = 0%nat) \/
  (0 <= x < Z.of_nat (cn_length t) /\ Z.of_nat n = cn_depth t !!! Z.to_nat x + 1) ->
  (n <= length array)%nat ->
  fillSelectedCallNodeAtDepth t n x array =
    (Some <$> treeKey t x) ++ drop n array.
Proof.
  revert x array. induction n as [|d IH]; intros x array Hx Hlen.
  - destruct Hx as [[-> _]|[Hx Hd]].
    + by rewrite (treeKey_root t).
    + pose proof (depth_range t Hwf x Hx). lia.
  - destruct Hx as [[_ ?]|[Hx Hd]]; [done|].
    cbn [fillSelectedCallNodeAtDepth].
    unfold array_set. rewrite decide_True by lia.
    rewrite IH.
    + rewrite (treeKey_unfold t Hwf x Hx), fmap_app, <- app_assoc. f_equal.
      simpl. rewrite drop_insert_ge by lia.
      replace (d - d)%nat with 0%nat by lia.
      destruct (drop d array) as [|z rest] eqn:Hdrop.
      { apply (f_equal length) in Hdrop. rewrite length_drop in Hdrop.
        simpl in Hdrop. lia. }
      simpl. f_equal.
      replace (S d) with (d + 1)%nat by lia.
      by rewrite <- drop_drop, Hdrop.
    + destruct (decide (d = 0%nat)) as [->|Hpos].
      * left. split; [|done]. apply (root_depth t Hwf x Hx). lia.
      * right. destruct (parent_depth t Hwf x Hx ltac:(lia)) as [Hp Hdp].
        split; lia.
    + rewrite length_insert. lia.
Qed.

Lemma computeSelectedCallNodeAtDepth_key (s : Z) :
  0 <= s < Z.of_nat (cn_length t) ->
  computeSelectedCallNodeAtDepth t (Some s) = Some <$> treeKey t s.
Proof.
  intros Hs. unfold computeSelectedCallNodeAtDepth, selectedCallNodeDepthOf.
  rewrite decide_False by lia.
  pose proof (depth_range t Hwf s Hs) as Hd.
  set (d := cn_depth t !!! Z.to_nat s) in *.
  replace (Z.to_nat (d + 1)) with (S (Z.to_nat d)) by lia.
  cbn [fillSelectedCallNodeAtDepth].
  unfold array_set. rewrite length_replicate.
  rewrite decide_False by lia.
  rewrite fillSelectedCallNodeAtDepth_key.
  - rewrite drop_app_length'; [|by rewrite length_replicate].
    rewrite (treeKey_unfold t Hwf s Hs), fmap_app. done.
  - destruct (decide (d = 0)) as [Hz|Hpos].
    + left. split; [|lia]. by apply (root_depth t Hwf s Hs).
    + right. destruct (parent_depth t Hwf s Hs ltac:(lia)) as [Hp Hdp].
      fold d in Hdp. split; lia.
  - rewrite length_app, length_replicate. simpl. lia.
Qed.

Lemma arrayGet_key (key : list Z) (j : Z) :
  0 <= j -> arrayGet (Some <$> key) j = key !! Z.to_nat j.
Proof.
  intros Hj. unfold arrayGet. rewrite decide_True by done.
  rewrite list_lookup_fmap. by destruct (key !! Z.to_nat j).
Qed.

(** The walk towards the common ancestor ends, and it compares the call
    nodes at which the key of [x] and the key of the selected call node
    part; if these are the same call node, it is [x] itself. *)
Lemma findCommonAncestorOrder_key (fuel : nat) (s x : Z) :
  0 <= s < Z.of_nat (cn_length t) ->
  0 <= x < Z.of_nat (cn_length t) ->
  cn_depth t !!! Z.to_nat x <= cn_depth t !!! Z.to_nat s ->
  cn_depth t !!! Z.to_nat x + 1 <= Z.of_nat fuel ->
  exists p a b ra rb,
    findCommonAncestorOrder fuel t (Some <$> treeKey t s) x
      (cn_depth t !!! Z.to_nat x) =
      Some (if decide (a <= b) then UNSELECTED_ORDERED_BEFORE_SELECTED
            else UNSELECTED_ORDERED_AFTER_SELECTED) /\
    treeKey t x = p ++ a :: ra /\
    treeKey t s = p ++ b :: rb /\
    (a = b -> ra = []).
Proof.
  intros Hs. revert x.
  induction fuel as [|fuel IH]; intros x Hx Hd Hfuel.
  { pose proof (depth_range t Hwf x Hx). lia. }
  pose proof (depth_range t Hwf x Hx) as Hdx.
  cbn [findCommonAncestorOrder].
  set (d := cn_depth t !!! Z.to_nat x) in *.
  replace (d - 1 + 1) with d by lia.
  assert (0 <= d <= cn_depth t !!! Z.to_nat s) as Hdr by lia.
  destruct (treeKey_ancestor s d Hs Hdr)
    as (b & rb & Hb & Hdb & Hkeyb & Hlookb & _).
  rewrite (arrayGet_key _ d) by lia. rewrite Hlookb.
  destruct (decide (d = 0)) as [Hz|Hpos].
  - (* [x] is a root *)
    pose proof (root_depth t Hwf x Hx Hz) as Hp.
    rewrite decide_True by (by left).
    exists [], x, b, [], (drop 1 (treeKey t s)).
    split_and!; [done | | | done].
    + by rewrite (treeKey_unfold t Hwf x Hx), Hp, (treeKey_root t).
    + rewrite Hz in Hlookb. simpl in Hlookb.
      destruct (treeKey t s); by simplify_eq/=.
  - assert (0 < cn_depth t !!! Z.to_nat x) as Hpos' by (fold d; lia).
    destruct (parent_depth t Hwf x Hx Hpos') as [Hp Hdp].
    fold d in Hdp.
    set (parent := cn_prefix t !!! Z.to_nat x) in *.
    assert (0 <= parent < Z.of_nat (cn_length t)) as Hpr by lia.
    rewrite (arrayGet_key _ (d - 1)) by lia.
    destruct (decide (treeKey t s !! Z.to_nat (d - 1) = Some parent)) as [Hlook|Hlook].
    + (* the parent of [x] is an ancestor of the selected call node *)
      rewrite decide_True by (by right).
      rewrite <- Hdp in Hlook.
      assert (cn_depth t !!! Z.to_nat parent <= cn_depth t !!! Z.to_nat s)
        as Hdps by lia.
      destruct (treeKey_lookup_self s parent Hs Hpr Hdps Hlook)
        as (rest & Hrest).
      exists (treeKey t parent), x, b, [], (drop 1 rest).
      split_and!; [done | | | done].
      * by rewrite (treeKey_unfold t Hwf x Hx).
      * rewrite Hrest. f_equal.
        rewrite Hrest in Hlookb. rewrite lookup_app_r in Hlookb.
        -- pose proof (treeKey_length parent Hpr) as Hlen.
           replace (Z.to_nat d - length (treeKey t parent))%nat with 0%nat
             in Hlookb by lia.
           destruct rest; by simplify_eq/=.
        -- pose proof (treeKey_length parent Hpr) as Hlen. lia.
    + rewrite decide_False by (intros [?|?]; [lia | done]).
      rewrite <- Hdp.
      assert (cn_depth t !!! Z.to_nat parent <= cn_depth t !!! Z.to_nat s)
        as Hdps by lia.
      assert (cn_depth t !!! Z.to_nat parent + 1 <= Z.of_nat fuel) as Hfuel' by lia.
      destruct (IH parent Hpr Hdps Hfuel')
        as (p & a & b' & ra & rb' & -> & Hkx & Hks & Hab).
      exists p, a, b', (ra ++ [x]), rb'.
      split_and!; [done | | done |].
      * rewrite (treeKey_unfold t Hwf x Hx). fold parent.
        by rewrite Hkx, <- app_assoc.
      * intros Heq. exfalso. apply Hlook.
        rewrite (Hab Heq) in Hkx. subst b'.
        pose proof (treeKey_last parent Hpr) as Hlast.
        pose proof (treeKey_length parent Hpr) as Hlen.
        rewrite Hkx in Hlast, Hlen. rewrite length_app in Hlen. simpl in Hlen.
        rewrite lookup_app_r in Hlast by lia.
        replace (_ - _)%nat with 0%nat in Hlast by lia.
        simpl in Hlast. injection Hlast as ->.
        rewrite Hks. rewrite lookup_app_r by lia.
        by replace (_ - _)%nat with 0%nat by lia.
Qed.

(** The state of a sample with a call node, against a selected call node:
    what it says about the keys of the two call nodes. *)
Lemma getSelectedStateFromCallNode_key (s c : Z) (activeTab : option Z) :
  0 <= s < Z.of_nat (cn_length t) ->
  0 <= c < Z.of_nat (cn_length t) ->
  exists state,
    getSelectedStateFromCallNode t (Some s) (cn_depth t !!! Z.to_nat s)
      (Some <$> treeKey t s) (Some c) activeTab = Some state /\
    ((state = SELECTED /\ IsSelfOrAncestor t s c) \/
     (state = UNSELECTED_ORDERED_BEFORE_SELECTED /\
      lexico (treeKey t c) (treeKey t s) /\ ~ IsSelfOrAncestor t s c) \/
     (state = UNSELECTED_ORDERED_AFTER_SELECTED /\
      lexico (treeKey t s) (treeKey t c) /\ ~ IsSelfOrAncestor t s c)).
Proof.
  intros Hs Hc. unfold getSelectedStateFromCallNode.
  pose proof (depth_range t Hwf s Hs) as Hds.
  pose proof (depth_range t Hwf c Hc) as Hdc.
  set (ds := cn_depth t !!! Z.to_nat s) in *.
  set (dc := cn_depth t !!! Z.to_nat c) in *.
  assert (Z.of_nat (Z.to_nat (dc - ds)) <= cn_depth t !!! Z.to_nat c) as Hk0.
  { fold dc. lia. }
  destruct (walkTowardsRoot_key t Hwf (Z.to_nat (dc - ds)) c Hc Hk0)
    as (Hx & Hdx & sfx & Hsfx & Hkc).
  fold dc in Hdx.
  set (x := walkTowardsRoot t (Z.to_nat (dc - ds)) c) in *.
  assert (forall k : nat, Z.of_nat k <= dc -> walkTowardsRoot t k c = s ->
            k = Z.to_nat (dc - ds)) as Hanc.
  { intros k Hk Hwalk.
    destruct (walkTowardsRoot_key t Hwf k c Hc Hk) as (_ & Hd' & _).
    rewrite Hwalk in Hd'. fold ds dc in Hd'. lia. }
  case_decide as Hxs.
  { exists SELECTED. split; [done|]. left. split; [done|].
    exists (Z.to_nat (dc - ds)). fold dc. split; [lia | done]. }
  assert (~ IsSelfOrAncestor t s c) as Hnot.
  { intros (k & Hk & Hwalk). fold dc in Hk.
    rewrite (Hanc k Hk Hwalk) in Hwalk. done. }
  assert ((if decide (dc > ds) then ds else dc) = cn_depth t !!! Z.to_nat x) as ->.
  { case_decide; lia. }
  assert (cn_depth t !!! Z.to_nat x <= cn_depth t !!! Z.to_nat s) as Hdxs.
  { fold ds. lia. }
  assert (cn_depth t !!! Z.to_nat x + 1 <= Z.of_nat (cn_length t)) as Hfuel.
  { pose proof (depth_range t Hwf x Hx). lia. }
  destruct (findCommonAncestorOrder_key (cn_length t) s x Hs Hx Hdxs Hfuel)
    as (p & a & b & ra & rb & -> & Hkx & Hks & Hab).
  eexists. split; [done|].
  rewrite Hkc, Hkx, Hks, <- app_assoc. simpl.
  destruct (Z.lt_trichotomy a b) as [Hlt|[Heq|Hgt]].
  - rewrite decide_True by lia. right; left.
    split_and!; [done | by apply lexico_common_prefix | done].
  - rewrite decide_True by lia. right; left.
    split_and!; [done | | done].
    rewrite (Hab Heq) in Hkx |- *. subst b. simpl.
    assert (sfx = []) as ->.
    { destruct (decide (dc <= ds)) as [Hle|Hgt].
      - apply nil_length_inv. lia.
      - exfalso. apply Hxs.
        pose proof (treeKey_length x Hx) as Hlx.
        pose proof (treeKey_length s Hs) as Hls. fold ds in Hls.
        rewrite Hkx in Hlx. rewrite Hks in Hls.
        rewrite length_app in Hlx, Hls. simpl in Hlx, Hls.
        assert (rb = []) as -> by (apply nil_length_inv; lia).
        apply (treeKey_inj t Hwf); [done | done |]. by rewrite Hkx, Hks. }
    assert (rb ≠ []) as Hrb.
    { intros ->. apply Hxs.
      apply (treeKey_inj t Hwf); [done | done |]. by rewrite Hkx, Hks. }
    replace (p ++ a :: rb) with ((p ++ [a]) ++ rb) by (by rewrite <- app_assoc).
    by apply lexico_extension.
  - rewrite decide_False by lia. right; right.
    split_and!; [done | by apply lexico_common_prefix | done].
Qed.

End SelectedStates.

(** X15: on a well-formed call-node table, with a selected call node of the
    table and samples whose call nodes are in it, [getSamplesSelectedStates]
    returns one state per sample.  A sample without call node is
    [FILTERED_OUT_BY_ACTIVE_TAB] when its entry in
    [activeTabFilteredCallNodes] is [null] and [FILTERED_OUT_BY_TRANSFORM]
    otherwise.  A sample with a call node is [SELECTED] exactly when the
    selected call node is its call node or an ancestor of it; otherwise it
    is ordered before the selected call node exactly when [compareCallNodes]
    on its call node and the selected call node is negative, and after it
    exactly when that result is positive. *)
Theorem getSamplesSelectedStates_tree_order (t : CallNodeTable)
    (sampleCallNodes activeTabFilteredCallNodes : list (option Z))
    (selected : Z) (i : nat) :
  CallNodeTable_wf t ->
  SampleCallNodes_wf t sampleCallNodes ->
  length activeTabFilteredCallNodes = length sampleCallNodes ->
  0 <= selected < Z.of_nat (cn_length t) ->
  (i < length sampleCallNodes)%nat ->
  exists states state,
    getSamplesSelectedStates t sampleCallNodes activeTabFilteredCallNodes
      (Some selected) = Some states /\
    length states = length sampleCallNodes /\
    states !! i = Some state /\
    match sampleCallNodes !!! i with
    | None =>
        state = match activeTabFilteredCallNodes !!! i with
                | None => FILTERED_OUT_BY_ACTIVE_TAB
                | Some _ => FILTERED_OUT_BY_TRANSFORM
                end
    | Some callNode =>
        exists r,
          compareCallNodes t callNode selected = Some r /\
          (state = SELECTED <-> IsSelfOrAncestor t selected callNode) /\
          (state = UNSELECTED_ORDERED_BEFORE_SELECTED <-> r < 0) /\
          (state = UNSELECTED_ORDERED_AFTER_SELECTED <->
             r > 0 /\ ~ IsSelfOrAncestor t selected callNode)
    end.
Proof.
  intros Hwf Hsamples Hlen Hs Hi.
  unfold getSamplesSelectedStates.
  rewrite (computeSelectedCallNodeAtDepth_key t Hwf selected Hs).
  unfold selectedCallNodeDepthOf. rewrite decide_False by lia.
  set (f := fun sampleIndex : nat => getSelectedStateFromCallNode _ _ _ _ _ _).
  assert (forall j, (j < length sampleCallNodes)%nat -> is_Some (f j)) as Hsome.
  { intros j Hj. unfold f, getSelectedStateFromCallNode.
    destruct (sampleCallNodes !!! j) as [c|] eqn:Hc; [|by eexists].
    assert (0 <= c < Z.of_nat (cn_length t)) as Hcr.
    { apply (Hsamples j). by apply lookup_total_Some. }
    destruct (getSelectedStateFromCallNode_key t Hwf selected c
                (activeTabFilteredCallNodes !!! j) Hs Hcr) as (state & Hstate & _).
    by exists state. }
  destruct (mapM f (seq 0 (length sampleCallNodes))) as [states|] eqn:Hmap; last first.
  { exfalso. apply mapM_None in Hmap. apply Exists_exists in Hmap as (j & Hj & Hnone).
    apply elem_of_seq in Hj. destruct (Hsome j ltac:(lia)) as [? ?]. congruence. }
  pose proof Hmap as Hforall. apply mapM_Some in Hforall.
  pose proof (Forall2_length _ _ _ Hforall) as Hlens. rewrite length_seq in Hlens.
  destruct (lookup_lt_is_Some_2 states i ltac:(lia)) as [state Hstate].
  assert (f i = Some state) as Hfi.
  { eapply (Forall2_lookup_lr _ _ _ i i state) in Hforall; [done | | done].
    apply lookup_seq. lia. }
  exists states, state. split_and!; [done | lia | done |].
  unfold f in Hfi. clear f Hsome Hmap Hforall.
  destruct (sampleCallNodes !!! i) as [c|] eqn:Hc.
  - assert (0 <= c < Z.of_nat (cn_length t)) as Hcr.
    { apply (Hsamples i). by apply lookup_total_Some. }
    destruct (getSelectedStateFromCallNode_key t Hwf selected c
                (activeTabFilteredCallNodes !!! i) Hs Hcr)
      as (state' & Hstate' & Hcases).
    assert (state' = state) as -> by congruence.
    destruct (compareCallNodes_ordersAs t Hwf c selected Hcr Hs) as (r & Hr & Hord).
    exists r. split; [done|].
    assert (forall x y : list Z, lexico x y -> lexico y x -> False) as Hasym.
    { intros x y Hxy Hyx. apply (irreflexivity lexico x). by trans y. }
    assert (forall x : list Z, lexico x x -> False) as Hirr.
    { intros x. apply (irreflexivity lexico). }
    assert (IsSelfOrAncestor t selected c ->
            c = selected \/ lexico (treeKey t selected) (treeKey t c)) as Hself.
    { intros (k & Hk & Hwalk).
      destruct (walkTowardsRoot_key t Hwf k c Hcr Hk) as (_ & _ & sfx & Hsfx & Hkey).
      rewrite Hwalk in Hkey. destruct sfx as [|z sfx].
      - left. apply (treeKey_inj t Hwf); [done | done |].
        by rewrite Hkey, app_nil_r.
      - right. rewrite Hkey. by apply lexico_extension. }
    destruct Hcases as [[-> Hanc]|[[-> [Hlex Hnot]]|[-> [Hlex Hnot]]]].
    + split_and!; [done | | ].
      * split; [done|]. intros Hr0. exfalso.
        destruct (Hself Hanc) as [->|Hlex];
          destruct Hord as [[_ H1]|[[? ?]|[? H1]]]; try lia; eauto.
      * split; [done|]. by intros [_ ?].
    + split_and!.
      * split; [done | by intros ?].
      * split; [|done]. intros _.
        destruct Hord as [[? _]|[[_ ->]|[_ H1]]]; [done | | ]; exfalso; eauto.
      * split; [done|]. intros [Hr0 _]. exfalso.
        destruct Hord as [[? _]|[[? _]|[_ H1]]]; [lia | lia | eauto].
    + split_and!.
      * split; [done | by intros ?].
      * split; [done|]. intros Hr0. exfalso.
        destruct Hord as [[_ H1]|[[? _]|[? _]]]; [eauto | lia | lia].
      * split; [|done]. intros _. split; [|done].
        destruct Hord as [[_ H1]|[[_ ->]|[? _]]]; [exfalso; eauto | exfalso; eauto | done].
  - by injection Hfi as <-.
Qed.

Lemma getSamplesSelectedStates_tree_order_witness :
  exists states state,
    getSamplesSelectedStates sampleCallNodeTable [Some 0; Some 2; None]
      [Some 0; Some 2; Some 1] (Some 1) = Some states /\
    length states = 3%nat /\
    states !! 1%nat = Some state /\
    exists r,
      compareCallNodes sampleCallNodeTable 2 1 = Some r /\
      (state = SELECTED <-> IsSelfOrAncestor sampleCallNodeTable 1 2) /\
      (state = UNSELECTED_ORDERED_BEFORE_SELECTED <-> r < 0) /\
      (state = UNSELECTED_ORDERED_AFTER_SELECTED <->
         r > 0 /\ ~ IsSelfOrAncestor sampleCallNodeTable 1 2).
Proof.
  apply (getSamplesSelectedStates_tree_order sampleCallNodeTable
           [Some 0; Some 2; None] [Some 0; Some 2; Some 1] 1 1
           sampleCallNodeTable_wf sampleCallNodes_wf eq_refl).
  - simpl. lia.
  - simpl. lia.
Defined.

(** ** Filtering the stacks of a thread *)

Section ConvertStacks.

Context {State : Type}.
Variable convertStack : option nat -> State -> option (option nat * State).
Variable table : StackTable.

(** [Inv] is an invariant of the state of the closure, [R st] relates an
    old stack to the stack it was converted to, as seen from the state [st],
    and [le] orders the states so that later states see the same. *)
Variable Inv : State -> Prop.
Variable R : State -> option nat -> option nat -> Prop.
Variable le : State -> State -> Prop.

Hypothesis le_refl : forall st, le st st.
Hypothesis le_trans : forall st1 st2 st3, le st1 st2 -> le st2 st3 -> le st1 st3.
Hypothesis R_mono : forall st st' oldStack newStack,
  le st st' -> R st oldStack newStack -> R st' oldStack newStack.

Hypothesis convertStack_spec : forall oldStack st,
  (forall s, oldStack = Some s -> (s < st_length table)%nat) ->
  Inv st ->
  exists newStack st',
    convertStack oldStack st = Some (newStack, st') /\
    Inv st' /\ le st st' /\ R st' oldStack newStack.

Lemma convertStacks_spec (stacks : list (option nat)) (st : State) :
  Stacks_wf table stacks -> Inv st ->
  exists newStacks st',
    convertStacks convertStack stacks st = Some (newStacks, st') /\
    Inv st' /\ le st st' /\ Forall2 (R st') stacks newStacks.
Proof.
  revert st. induction stacks as [|oldStack stacks IH]; intros st Hwf Hinv.
  - exists [], st. by split_and!.
  - destruct (convertStack_spec oldStack st)
      as (newStack & st1 & Hc & Hinv1 & Hle1 & HR).
    { intros s ->. by apply (Hwf 0%nat). }
    { done. }
    destruct (IH st1) as (newStacks & st2 & Hcs & Hinv2 & Hle2 & HRs).
    { intros i s Hs. by apply (Hwf (S i)). }
    { done. }
    exists (newStack :: newStacks), st2. split_and!.
    + simpl. rewrite Hc. simpl. rewrite Hcs. done.
    + done.
    + by eapply le_trans.
    + constructor; [by eapply R_mono | done].
Qed.

Lemma Forall2_R_mono (st st' : State) (stacks newStacks : list (option nat)) :
  le st st' -> Forall2 (R st) stacks newStacks -> Forall2 (R st') stacks newStacks.
Proof.
  intros Hle HR. eapply Forall2_impl; [exact HR|]. intros. by eapply R_mono.
Qed.

(** [updateThreadStacks] converts the stacks of the samples, then those of
    the JS allocations, then those of the native allocations, and changes
    nothing else but the stack table. *)
Lemma updateThreadStacks_spec (thread : Thread)
    (newStackTable : State -> StackTable) (st : State) :
  table = stackTable thread ->
  ThreadStacks_wf thread -> Inv st ->
  exists sampleStacks jsStacks nativeStacks st',
    updateThreadStacks convertStack thread newStackTable st =
      Some ({| samples := withSamplesStack (samples thread) sampleStacks;
               jsAllocations :=
                 (fun t => withJsAllocationsStack t jsStacks) <$> jsAllocations thread;
               nativeAllocations :=
                 (fun t => withNativeAllocationsStack t nativeStacks)
                   <$> nativeAllocations thread;
               stackTable := newStackTable st';
               frameTable := frameTable thread;
               funcTable := funcTable thread;
               stringTable := stringTable thread |}, st') /\
    Inv st' /\ le st st' /\
    Forall2 (R st') (s_stack (samples thread)) sampleStacks /\
    (forall t, jsAllocations thread = Some t ->
       Forall2 (R st') (js_stack t) jsStacks) /\
    (forall t, nativeAllocations thread = Some t ->
       Forall2 (R st') (nativeAllocationsStack t) nativeStacks).
Proof.
  intros Htable (Hs & Hjs & Hnative) Hinv. unfold updateThreadStacks.
  rewrite <- Htable in Hs, Hjs, Hnative.
  destruct (convertStacks_spec _ st Hs Hinv)
    as (sampleStacks & st1 & -> & Hinv1 & Hle1 & HR1).
  simpl.
  destruct (jsAllocations thread) as [js|] eqn:Ejs.
  - destruct (convertStacks_spec _ st1 (Hjs js eq_refl) Hinv1)
      as (jsStacks & st2 & -> & Hinv2 & Hle2 & HR2).
    simpl.
    destruct (nativeAllocations thread) as [native|] eqn:Enative.
    + destruct (convertStacks_spec _ st2 (Hnative native eq_refl) Hinv2)
        as (nativeStacks & st3 & -> & Hinv3 & Hle3 & HR3).
      simpl. exists sampleStacks, jsStacks, nativeStacks, st3.
      split_and!; [done | done | by eauto | | |].
      * apply (Forall2_R_mono st1); by eauto.
      * intros ? [= <-]. by apply (Forall2_R_mono st2).
      * by intros ? [= <-].
    + simpl. exists sampleStacks, jsStacks, [], st2.
      split_and!; [done | done | by eauto | | | done].
      * by apply (Forall2_R_mono st1).
      * by intros ? [= <-].
  - simpl.
    destruct (nativeAllocations thread) as [native|] eqn:Enative.
    + destruct (convertStacks_spec _ st1 (Hnative native eq_refl) Hinv1)
        as (nativeStacks & st3 & -> & Hinv3 & Hle3 & HR3).
      simpl. exists sampleStacks, [], nativeStacks, st3.
      split_and!; [done | done | by eauto | | done |].
      * by apply (Forall2_R_mono st1).
      * by intros ? [= <-].
    + simpl. exists sampleStacks, [], [], st1.
      split_and!; done.
Qed.

End ConvertStacks.

Section TabFilter.

Variable stackTable : StackTable.
Variable frameTable : FrameTable.
Variable relevantPages : gset Z.
Hypothesis Hwf : StackTable_wf stackTable.

Local Abbreviation relevant := (HasRelevantFrame stackTable frameTable relevantPages).
Local Abbreviation cachesOk := (TabFilterCachesOk stackTable frameTable relevantPages).

Lemma HasRelevantFrame_inv (stack : nat) :
  relevant stack <->
  frameMatches frameTable relevantPages (st_frame stackTable !!! stack) = true \/
  exists prefix, st_prefix stackTable !!! stack = Some prefix /\ relevant prefix.
Proof.
  split.
  - intros H. inversion H; subst; [by left | right; eauto].
  - intros [?|(prefix & ? & ?)]; [by constructor | by econstructor].
Qed.

Lemma frameMatchesFilter_spec (frame : nat) (caches : TabFilterCaches) :
  cachesOk caches ->
  (frameMatchesFilter frameTable relevantPages frame caches).1 =
    frameMatches frameTable relevantPages frame /\
  cachesOk (frameMatchesFilter frameTable relevantPages frame caches).2 /\
  stackMatchesFilterCache (frameMatchesFilter frameTable relevantPages frame caches).2
    = stackMatchesFilterCache caches.
Proof.
  intros [Hframes Hstacks]. unfold frameMatchesFilter.
  destruct (frameMatchesFilterCache caches !! frame) as [b|] eqn:Hb; simpl.
  - split_and!; [by apply Hframes | done | done].
  - split_and!; [done | | done]. split; simpl; [|done].
    intros frame' b'. rewrite lookup_insert. case_decide as Heq.
    + intros [= <-]. by subst.
    + apply Hframes.
Qed.

Lemma setStackMatches_ok (stack : nat) (b : bool) (caches : TabFilterCaches) :
  cachesOk caches -> (b = true <-> relevant stack) ->
  cachesOk (setStackMatches stack b caches).
Proof.
  intros [Hframes Hstacks] Hb. split; simpl; [done|].
  intros stack' b'. rewrite lookup_insert. case_decide as Heq.
  - intros [= <-]. by subst.
  - apply Hstacks.
Qed.

(** [stackMatchesFilter] returns whether the stack has a relevant frame,
    whatever the caches hold. *)
Lemma stackMatchesFilter_spec (fuel : nat) (stackIndex : option nat)
    (caches : TabFilterCaches) :
  (forall s, stackIndex = Some s ->
     (s < st_length stackTable)%nat /\ (s + 1 <= fuel)%nat) ->
  cachesOk caches ->
  exists b caches',
    stackMatchesFilter fuel stackTable frameTable relevantPages stackIndex caches
      = Some (b, caches') /\
    cachesOk caches' /\
    (b = true <-> exists s, stackIndex = Some s /\ relevant s).
Proof.
  revert stackIndex caches.
  induction fuel as [|fuel IH]; intros stackIndex caches Hs Hok.
  - destruct stackIndex as [s|]; [destruct (Hs s eq_refl); lia|].
    exists false, caches. split_and!; [done | done |].
    split; [done | by intros (? & ? & _)].
  - destruct stackIndex as [s|]; last first.
    { exists false, caches. split_and!; [done | done |].
      split; [done | by intros (? & ? & _)]. }
    destruct (Hs s eq_refl) as [Hlt Hfuel].
    cbn [stackMatchesFilter].
    destruct (stackMatchesFilterCache caches !! s) as [b|] eqn:Hcache.
    { exists b, caches. split_and!; [done | done |].
      destruct Hok as [_ Hstacks]. rewrite (Hstacks s b Hcache).
      split; [by exists s | by intros (? & [= <-] & ?)]. }
    destruct (IH (st_prefix stackTable !!! s) caches) as (pb & caches1 & -> & Hok1 & Hpb).
    { intros p Hp.
      assert (p < s)%nat; [|lia].
      apply (st_wf_order _ Hwf s p). rewrite <- Hp.
      apply list_lookup_lookup_total_lt. by rewrite (st_wf_prefix _ Hwf). }
    { done. }
    simpl. destruct pb.
    + destruct Hpb as [Hpb _]. destruct (Hpb eq_refl) as (p & Hp & Hrel).
      assert (relevant s) as Hrs by (by econstructor).
      exists true, (setStackMatches s true caches1).
      split_and!; [done | by apply setStackMatches_ok |].
      split; [by exists s | done].
    + destruct (frameMatchesFilter_spec (st_frame stackTable !!! s) caches1 Hok1)
        as (Hm & Hok2 & _).
      destruct (frameMatchesFilter frameTable relevantPages
                  (st_frame stackTable !!! s) caches1) as [m caches2].
      simpl in Hm, Hok2. subst m.
      assert (frameMatches frameTable relevantPages (st_frame stackTable !!! s) = true
              <-> relevant s) as Hrs.
      { rewrite (HasRelevantFrame_inv s). split; [by left|].
        intros [?|(p & Hp & Hrel)]; [done|].
        destruct Hpb as [_ Hpb]. exfalso.
        assert (false = true); [|done]. apply Hpb. by exists p. }
      eexists _, _. split_and!; [done | by apply setStackMatches_ok |].
      rewrite Hrs. split; [by exists s | by intros (? & [= <-] & ?)].
Qed.

End TabFilter.

(** X16: [filterThreadByTab] returns the thread itself when the set of
    relevant pages is empty.  Otherwise, on a thread whose stack table is
    well formed and whose stacks are rows of it, it returns, and in the
    thread it returns the stack of a sample, of a JS allocation or of a
    native allocation is kept when its frame, or the frame of one of the
    stacks above it, has a positive [innerWindowID] that is a relevant
    page, and is [null] otherwise; the stack table and every other column
    are those of the thread. *)
Theorem filterThreadByTab_keeps_relevant_stacks (thread : Thread)
    (relevantPages : gset Z) :
  StackTable_wf (stackTable thread) ->
  ThreadStacks_wf thread ->
  (size relevantPages = 0%nat ->
     filterThreadByTab thread relevantPages = Some thread) /\
  (size relevantPages ≠ 0%nat ->
     exists sampleStacks jsStacks nativeStacks,
       filterThreadByTab thread relevantPages =
         Some {| samples := withSamplesStack (samples thread) sampleStacks;
                 jsAllocations :=
                   (fun t => withJsAllocationsStack t jsStacks)
                     <$> jsAllocations thread;
                 nativeAllocations :=
                   (fun t => withNativeAllocationsStack t nativeStacks)
                     <$> nativeAllocations thread;
                 stackTable := stackTable thread;
                 frameTable := frameTable thread;
                 funcTable := funcTable thread;
                 stringTable := stringTable thread |} /\
       let keeps := KeepsRelevant (stackTable thread) (frameTable thread)
                      relevantPages in
       Forall2 keeps (s_stack (samples thread)) sampleStacks /\
       (forall t, jsAllocations thread = Some t ->
          Forall2 keeps (js_stack t) jsStacks) /\
       (forall t, nativeAllocations thread = Some t ->
          Forall2 keeps (nativeAllocationsStack t) nativeStacks)).
Proof.
  intros Hwf Hstacks. unfold filterThreadByTab. split.
  { intros Hsize. by rewrite decide_True. }
  intros Hsize. rewrite decide_False by done.
  set (convertStack := fun (stackIndex : option nat) (caches : TabFilterCaches) => _).
  destruct (updateThreadStacks_spec convertStack (stackTable thread)
              (TabFilterCachesOk (stackTable thread) (frameTable thread) relevantPages)
              (fun _ => KeepsRelevant (stackTable thread) (frameTable thread)
                          relevantPages)
              (fun _ _ => True))
    with (thread := thread) (newStackTable := fun _ : TabFilterCaches => stackTable thread)
         (st := {| frameMatchesFilterCache := ∅; stackMatchesFilterCache := ∅ |})
    as (sampleStacks & jsStacks & nativeStacks & st' & -> & _ & _ & HR1 & HR2 & HR3).
  - done.
  - done.
  - done.
  - intros oldStack st Hold Hok. unfold convertStack.
    destruct (stackMatchesFilter_spec (stackTable thread) (frameTable thread)
                relevantPages Hwf (st_length (stackTable thread)) oldStack st)
      as (b & st' & -> & Hok' & Hb).
    { intros s Hs. specialize (Hold s Hs). lia. }
    { done. }
    simpl. eexists _, st'. split_and!; [done | done | done |].
    unfold KeepsRelevant. destruct oldStack as [s|].
    + destruct b.
      * left. split; [|done]. destruct Hb as [Hb _].
        by destruct (Hb eq_refl) as (? & [= <-] & ?).
      * right. split; [|done]. intros Hrel.
        destruct Hb as [_ Hb]. assert (false = true); [|done].
        apply Hb. by exists s.
    + destruct b; [|done]. destruct Hb as [Hb _].
      by destruct (Hb eq_refl) as (? & ? & _).
  - done.
  - done.
  - split; simpl; intros ? ?; by rewrite lookup_empty.
  - simpl. by exists sampleStacks, jsStacks, nativeStacks.
Qed.

Lemma tabThread_stacks_wf : ThreadStacks_wf tabThread.
Proof.
  split_and!; [|done|done].
  intros i s Hs. destruct i as [|[|[|i]]]; simplify_eq/=; lia.
Qed.

Lemma filterThreadByTab_keeps_relevant_stacks_witness :
  exists sampleStacks jsStacks nativeStacks,
    filterThreadByTab tabThread {[ 5 ]} =
      Some {| samples := withSamplesStack (samples tabThread) sampleStacks;
              jsAllocations :=
                (fun t => withJsAllocationsStack t jsStacks)
                  <$> jsAllocations tabThread;
              nativeAllocations :=
                (fun t => withNativeAllocationsStack t nativeStacks)
                  <$> nativeAllocations tabThread;
              stackTable := stackTable tabThread;
              frameTable := frameTable tabThread;
              funcTable := funcTable tabThread;
              stringTable := stringTable tabThread |} /\
    let keeps := KeepsRelevant (stackTable tabThread) (frameTable tabThread)
                   {[ 5 ]} in
    Forall2 keeps (s_stack (samples tabThread)) sampleStacks /\
    (forall t, jsAllocations tabThread = Some t ->
       Forall2 keeps (js_stack t) jsStacks) /\
    (forall t, nativeAllocations tabThread = Some t ->
       Forall2 keeps (nativeAllocationsStack t) nativeStacks).
Proof.
  apply (filterThreadByTab_keeps_relevant_stacks tabThread {[ 5 ]}
           sampleStackTable_wf tabThread_stacks_wf).
  rewrite size_singleton. lia.
Defined.

(** ** Inverting the stacks *)

Lemma size_keys_below {A} (m : gmap nat A) (n : nat) :
  (forall s, is_Some (m !! s) -> (s < n)%nat) -> (size m <= n)%nat.
Proof.
  intros Hkeys. rewrite <- size_dom.
  rewrite <- (size_set_seq (C := gset nat) 0 n).
  apply subseteq_size. intros s Hs.
  apply elem_of_dom in Hs. apply elem_of_set_seq. specialize (Hkeys s Hs). lia.
Qed.

Lemma stackFor_length (frameCount defaultCategory : Z) (prefix : option nat)
    (frame : nat) (category subcategory : Z) (st : InvertState) :
  let r := stackFor frameCount defaultCategory prefix frame category subcategory st in
  (st_length (ic_newStackTable r.2) <= S (st_length (ic_newStackTable st)))%nat /\
  ic_oldStackToNewStack r.2 = ic_oldStackToNewStack st.
Proof.
  unfold stackFor. destruct (ic_prefixAndFrameToStack st !! _); [|simpl; split; [lia|done]].
  repeat case_decide; simpl; split; (lia || done).
Qed.

(** The loop of [convertStack] adds at most one stack for each stack that
    it visits, and leaves [oldStackToNewStack] alone. *)
Lemma convertStackLoop_length (fuel : nat) (old : StackTable)
    (frameCount defaultCategory : Z) (current newStack newStack' : option nat)
    (st st' : InvertState) :
  convertStackLoop fuel old frameCount defaultCategory current newStack st
    = Some (newStack', st') ->
  (st_length (ic_newStackTable st') <= st_length (ic_newStackTable st) + fuel)%nat /\
  ic_oldStackToNewStack st' = ic_oldStackToNewStack st.
Proof.
  revert current newStack st.
  induction fuel as [|fuel IH]; intros [c|] newStack st Hloop; simpl in Hloop;
    try (injection Hloop as <- <-; split; [lia | done]); [done|].
  pose proof (stackFor_length frameCount defaultCategory newStack
                (st_frame old !!! c) (st_category old !!! c)
                (st_subcategory old !!! c) st) as Hstep.
  destruct (stackFor _ _ _ _ _ _ st) as [n st1]. simpl in Hstep.
  destruct Hstep as [Hlen Hmap].
  apply IH in Hloop as [Hlen' Hmap']. split; [lia | congruence].
Qed.

Lemma convertStack_bound (old : StackTable) (frameCount defaultCategory : Z)
    (oldStack newStack : option nat) (st st' : InvertState) :
  (forall s, oldStack = Some s -> (s < st_length old)%nat) ->
  convertStack old frameCount defaultCategory oldStack st = Some (newStack, st') ->
  NewStacksBound old st -> NewStacksBound old st'.
Proof.
  intros Hs Hconvert [Hkeys Hbound]. unfold convertStack in Hconvert.
  destruct oldStack as [s|]; [|by injection Hconvert as <- <-].
  destruct (ic_oldStackToNewStack st !! s) as [cached|] eqn:Hcached.
  { by injection Hconvert as <- <-. }
  destruct (convertStackLoop _ _ _ _ _ _ _) as [[r st1]|] eqn:Hloop; [|done].
  simpl in Hconvert. injection Hconvert as <- <-.
  apply convertStackLoop_length in Hloop as [Hlen Hmap].
  unfold NewStacksBound. simpl. rewrite Hmap. split.
  - intros s'. rewrite lookup_insert_is_Some.
    intros [<-|[_ Hs']]; [by apply Hs | by apply Hkeys].
  - rewrite map_size_insert_None by done. lia.
Qed.

Lemma NewStacksBound_square (old : StackTable) (st : InvertState) :
  NewStacksBound old st ->
  (st_length (ic_newStackTable st) <= st_length old * st_length old)%nat.
Proof.
  intros [Hkeys Hbound]. pose proof (size_keys_below _ _ Hkeys) as Hsize.
  pose proof (Nat.mul_le_mono_r _ _ (st_length old) Hsize). lia.
Qed.

Lemma prefixAndFrameKey_inj (frameCount : Z) (prefix prefix' : option nat)
    (frame frame' : nat) :
  Z.of_nat frame < frameCount -> Z.of_nat frame' < frameCount ->
  prefixAndFrameKey frameCount prefix frame =
    prefixAndFrameKey frameCount prefix' frame' ->
  prefix = prefix' /\ frame = frame'.
Proof.
  unfold prefixAndFrameKey. intros Hf Hf' Hkey.
  set (p := match prefix with Some p => Z.of_nat p | None => -1 end) in *.
  set (p' := match prefix' with Some p => Z.of_nat p | None => -1 end) in *.
  assert (p = p') as Hp.
  { destruct (Z.lt_trichotomy p p') as [Hlt|[Heq|Hgt]]; [|done|].
    - assert (p + 1 <= p') as Hle by lia.
      pose proof (Z.mul_le_mono_nonneg_r (p + 1) p' frameCount ltac:(lia) Hle). lia.
    - assert (p' + 1 <= p) as Hle by lia.
      pose proof (Z.mul_le_mono_nonneg_r (p' + 1) p frameCount ltac:(lia) Hle). lia. }
  split; [|rewrite Hp in Hkey; lia].
  subst p p'. destruct prefix, prefix'; (done || lia || f_equal; lia).
Qed.

Lemma FramesToRoot_extends (t t' : StackTable) (s : option nat) (frames : list nat) :
  ExtendsStacks t t' -> FramesToRoot t s frames -> FramesToRoot t' s frames.
Proof.
  intros [Hlen Hsame]. induction 1 as [|s frames Hs Hprefix IH]; [constructor|].
  destruct (Hsame s Hs) as [<- Hp]. constructor; [lia|]. by rewrite Hp.
Qed.

Lemma FramesToRoot_functional (t : StackTable) (s : option nat)
    (frames frames' : list nat) :
  FramesToRoot t s frames -> FramesToRoot t s frames' -> frames = frames'.
Proof.
  intros H. revert frames'. induction H as [|s frames Hs Hprefix IH]; intros frames' H'.
  - by inversion H'.
  - inversion H'; subst. f_equal. by apply IH.
Qed.

Lemma FramesToRoot_exists (t : StackTable) (s : nat) :
  StackTable_tree t -> (s < st_length t)%nat ->
  exists frames, FramesToRoot t (Some s) frames.
Proof.
  intros Htree. induction s as [s IH] using lt_wf_ind. intros Hs.
  destruct (st_prefix t !!! s) as [p|] eqn:Hp.
  - assert (p < s)%nat as Hlt.
    { apply (st_tree_order _ Htree s p). rewrite <- Hp.
      apply list_lookup_lookup_total_lt. by rewrite (st_tree_prefix _ Htree). }
    destruct (IH p Hlt ltac:(lia)) as (frames & Hframes).
    eexists. constructor; [done|]. by rewrite Hp.
  - eexists. constructor; [done|]. rewrite Hp. constructor.
Qed.

Lemma ExtendsStacks_refl (t : StackTable) : ExtendsStacks t t.
Proof. by split. Qed.

Lemma ExtendsStacks_trans (t1 t2 t3 : StackTable) :
  ExtendsStacks t1 t2 -> ExtendsStacks t2 t3 -> ExtendsStacks t1 t3.
Proof.
  intros [Hl1 H1] [Hl2 H2]. split; [lia|]. intros i Hi.
  destruct (H1 i Hi) as [<- <-]. apply H2. lia.
Qed.

Lemma Inverted_extends (old t t' : StackTable) (oldStack newStack : option nat) :
  ExtendsStacks t t' -> Inverted old t oldStack newStack ->
  Inverted old t' oldStack newStack.
Proof.
  intros Hext. destruct oldStack as [s|]; [|done].
  intros (n & frames & -> & Hold & Hnew). exists n, frames.
  split_and!; [done | done | by eapply FramesToRoot_extends].
Qed.

Section Invert.

Variable old : StackTable.
Variable frameCount : Z.
Variable defaultCategory : Z.
Hypothesis Hold : StackTable_tree old.
Hypothesis Hframes : StackFrames_wf old frameCount.

(** [stackFor] returns a stack with the given prefix and frame, and keeps
    the stacks that exist. *)
Lemma stackFor_spec (prefix : option nat) (frame : nat) (category subcategory : Z)
    (st : InvertState) :
  NewStacksInv frameCount st ->
  (forall p, prefix = Some p -> (p < st_length (ic_newStackTable st))%nat) ->
  Z.of_nat frame < frameCount ->
  let r := stackFor frameCount defaultCategory prefix frame category subcategory st in
  NewStacksInv frameCount r.2 /\
  ExtendsStacks (ic_newStackTable st) (ic_newStackTable r.2) /\
  ic_oldStackToNewStack r.2 = ic_oldStackToNewStack st /\
  (r.1 < st_length (ic_newStackTable r.2))%nat /\
  st_frame (ic_newStackTable r.2) !!! r.1 = frame /\
  st_prefix (ic_newStackTable r.2) !!! r.1 = prefix.
Proof.
  intros (Htree & Hfr & Hkeys & Hnodes) Hprefix Hframe. unfold stackFor.
  set (t := ic_newStackTable st) in *.
  destruct Htree as [Hl1 Hl2 Hl3 Hl4 Horder].
  destruct (ic_prefixAndFrameToStack st !! prefixAndFrameKey frameCount prefix frame)
    as [v|] eqn:Hv.
  - destruct (Hkeys _ _ Hv) as [Hvlt Hkey].
    apply prefixAndFrameKey_inj in Hkey as [Hp Hf]; [|done|by apply Hfr].
    assert (forall c sc,
      length c = st_length t -> length sc = st_length t ->
      let st' := withNewStackTable
                   {| st_frame := st_frame t; st_category := c;
                      st_subcategory := sc; st_prefix := st_prefix t;
                      st_length := st_length t |} st in
      NewStacksInv frameCount st' /\
      ExtendsStacks t (ic_newStackTable st') /\
      ic_oldStackToNewStack st' = ic_oldStackToNewStack st /\
      (v < st_length (ic_newStackTable st'))%nat /\
      st_frame (ic_newStackTable st') !!! v = frame /\
      st_prefix (ic_newStackTable st') !!! v = prefix) as Hsame.
    { intros c sc Hc Hsc. simpl. split_and!; done. }
    repeat case_decide.
    + apply Hsame; by rewrite array_set_length_inside by lia.
    + apply Hsame; [done | by rewrite array_set_length_inside by lia].
    + simpl. fold t. split_and!; done.
  - simpl.
    assert (forall i, (i < st_length t)%nat ->
              array_set (st_length t) frame (st_frame t) !!! i = st_frame t !!! i /\
              array_set (st_length t) prefix (st_prefix t) !!! i = st_prefix t !!! i)
      as Hbefore.
    { intros i Hi. by rewrite !array_set_lookup_before_end by (done || lia). }
    assert (array_set (st_length t) frame (st_frame t) !!! st_length t = frame)
      as Hnewf by (by apply array_set_lookup_at_end).
    assert (array_set (st_length t) prefix (st_prefix t) !!! st_length t = prefix)
      as Hnewp by (by apply array_set_lookup_at_end).
    split_and!; [| |done|lia|done|done].
    + split_and!.
      * constructor; simpl; try (by apply array_set_length_at_end).
        intros i p Hip.
        assert (i < S (st_length t))%nat as Hi.
        { apply lookup_lt_Some in Hip.
          rewrite array_set_length_at_end in Hip by done. done. }
        apply list_lookup_total_correct in Hip.
        destruct (decide (i = st_length t)) as [->|Hne].
        -- rewrite Hnewp in Hip. by apply Hprefix.
        -- destruct (Hbefore i ltac:(lia)) as [_ Hpi]. rewrite Hpi in Hip.
           apply (Horder i p). rewrite <- Hip.
           apply list_lookup_lookup_total_lt. lia.
      * intros i Hi. simpl in Hi |- *.
        destruct (decide (i = st_length t)) as [->|Hne].
        -- by rewrite Hnewf.
        -- destruct (Hbefore i ltac:(lia)) as [-> _]. apply Hfr. lia.
      * simpl. intros key v. rewrite lookup_insert. case_decide as Hkey.
        -- intros [= <-]. split; [lia|]. by rewrite Hnewf, Hnewp.
        -- intros Hv'. destruct (Hkeys _ _ Hv') as [Hvlt Hkv]. split; [lia|].
           by destruct (Hbefore v Hvlt) as [-> ->].
      * simpl. intros i Hi.
        destruct (decide (i = st_length t)) as [->|Hne].
        -- rewrite Hnewf, Hnewp. apply lookup_insert_eq.
        -- destruct (Hbefore i ltac:(lia)) as [-> ->].
           rewrite lookup_insert_ne; [apply Hnodes; lia|].
           intros Heq. rewrite Heq in Hv. rewrite Hnodes in Hv by lia. done.
    + split; simpl; [lia | done].
Qed.

(** The loop of [convertStack] puts the frames of the stack and of the
    stacks above it, from the stack up, below [newStack]. *)
Lemma convertStackLoop_spec (fuel : nat) (current newStack : option nat)
    (st : InvertState) (rest acc : list nat) :
  NewStacksInv frameCount st ->
  FramesToRoot old current rest ->
  FramesToRoot (ic_newStackTable st) newStack acc ->
  (forall c, current = Some c -> (c + 1 <= fuel)%nat) ->
  exists newStack' st',
    convertStackLoop fuel old frameCount defaultCategory current newStack st
      = Some (newStack', st') /\
    NewStacksInv frameCount st' /\
    ExtendsStacks (ic_newStackTable st) (ic_newStackTable st') /\
    ic_oldStackToNewStack st' = ic_oldStackToNewStack st /\
    FramesToRoot (ic_newStackTable st') newStack' (reverse rest ++ acc) /\
    (is_Some current -> is_Some newStack').
Proof.
  revert current newStack st rest acc.
  induction fuel as [|fuel IH]; intros current newStack st rest acc Hinv Hrest Hacc Hfuel.
  - destruct current as [c|]; [specialize (Hfuel c eq_refl); lia|].
    inversion Hrest; subst. exists newStack, st.
    split_and!; [done | done | apply ExtendsStacks_refl | done | done |].
    by intros [? ?].
  - destruct current as [c|]; last first.
    { inversion Hrest; subst. exists newStack, st.
      split_and!; [done | done | apply ExtendsStacks_refl | done | done |].
      by intros [? ?]. }
    inversion Hrest as [|c' rest' Hc Hprefix]; subst.
    cbn [convertStackLoop].
    pose proof (stackFor_spec newStack (st_frame old !!! c) (st_category old !!! c)
                  (st_subcategory old !!! c) st Hinv) as Hfor.
    destruct (stackFor frameCount defaultCategory newStack (st_frame old !!! c)
                (st_category old !!! c) (st_subcategory old !!! c) st) as [n st1].
    destruct Hfor as (Hinv1 & Hext1 & Hcache1 & Hn & Hnf & Hnp).
    { intros p ->. by inversion Hacc. }
    { by apply Hframes. }
    simpl in Hinv1, Hext1, Hcache1, Hn, Hnf, Hnp.
    assert (FramesToRoot (ic_newStackTable st1) (Some n) (st_frame old !!! c :: acc))
      as Hacc1.
    { rewrite <- Hnf. constructor; [done|]. rewrite Hnp.
      by eapply FramesToRoot_extends. }
    destruct (IH (st_prefix old !!! c) (Some n) st1 rest' (st_frame old !!! c :: acc)
                Hinv1 Hprefix Hacc1)
      as (newStack' & st' & Hloop & Hinv' & Hext' & Hcache' & Hnew & Hsome).
    { intros p Hp.
      assert (p < c)%nat; [|specialize (Hfuel c eq_refl); lia].
      apply (st_tree_order _ Hold c p). rewrite <- Hp.
      apply list_lookup_lookup_total_lt. by rewrite (st_tree_prefix _ Hold). }
    exists newStack', st'. split_and!.
    + done.
    + done.
    + by eapply ExtendsStacks_trans.
    + congruence.
    + rewrite reverse_cons, <- app_assoc. done.
    + intros _. destruct (st_prefix old !!! c) as [p|] eqn:Hp.
      * apply Hsome. by eexists.
      * destruct fuel; simpl in Hloop; injection Hloop as <- <-; by eexists.
Qed.

(** [convertStack] returns the inverted stack, whatever
    [oldStackToNewStack] holds. *)
Lemma convertStack_spec (oldStack : option nat) (st : InvertState) :
  (forall s, oldStack = Some s -> (s < st_length old)%nat) ->
  InvertInv old frameCount st ->
  exists newStack st',
    convertStack old frameCount defaultCategory oldStack st = Some (newStack, st') /\
    InvertInv old frameCount st' /\
    ExtendsStacks (ic_newStackTable st) (ic_newStackTable st') /\
    Inverted old (ic_newStackTable st') oldStack newStack.
Proof.
  intros Hs [Hinv Hcache]. unfold convertStack.
  destruct oldStack as [s|]; last first.
  { exists None, st. split_and!; [done | done | apply ExtendsStacks_refl | done]. }
  destruct (ic_oldStackToNewStack st !! s) as [newStack|] eqn:Hcached.
  { exists newStack, st.
    split_and!; [done | done | apply ExtendsStacks_refl | by apply Hcache]. }
  destruct (FramesToRoot_exists old s Hold (Hs s eq_refl)) as (frames & Hframes').
  destruct (convertStackLoop_spec (st_length old) (Some s) None st frames [] Hinv
              Hframes' (FramesToRoot_root _))
    as (newStack & st' & -> & Hinv' & Hext & Hcache' & Hnew & Hsome).
  { intros c [= <-]. specialize (Hs s eq_refl). lia. }
  rewrite app_nil_r in Hnew.
  destruct Hsome as [n ->]; [by eexists|].
  simpl. eexists _, _. split_and!; [done | | done |].
  - split; [done|]. simpl. intros s' newStack'. rewrite lookup_insert.
    case_decide as Heq.
    + intros [= <-]. subst s'. by exists n, frames.
    + rewrite Hcache'. intros Hc.
      apply (Inverted_extends old (ic_newStackTable st) _ (Some s') newStack' Hext).
      by apply Hcache.
  - by exists n, frames.
Qed.

End Invert.

(** [invertCallstack] returns; what it returns is the thread with a new
    stack table, a tree without two stacks of the same prefix and frame, and
    with every stack replaced by its inverted stack. *)
Lemma invertCallstack_spec (thread : Thread) (defaultCategory : Z) :
  StackTable_tree (stackTable thread) ->
  StackFrames_wf (stackTable thread) (Z.of_nat (ft_length (frameTable thread))) ->
  ThreadStacks_wf thread ->
  exists newStackTable sampleStacks jsStacks nativeStacks,
    invertCallstack thread defaultCategory =
      Some {| samples := withSamplesStack (samples thread) sampleStacks;
              jsAllocations :=
                (fun t => withJsAllocationsStack t jsStacks) <$> jsAllocations thread;
              nativeAllocations :=
                (fun t => withNativeAllocationsStack t nativeStacks)
                  <$> nativeAllocations thread;
              stackTable := newStackTable;
              frameTable := frameTable thread;
              funcTable := funcTable thread;
              stringTable := stringTable thread |} /\
    StackTable_tree newStackTable /\
    StackFrames_wf newStackTable (Z.of_nat (ft_length (frameTable thread))) /\
    (st_length newStackTable
       <= st_length (stackTable thread) * st_length (stackTable thread))%nat /\
    (forall i j, (i < st_length newStackTable)%nat -> (j < st_length newStackTable)%nat ->
       st_prefix newStackTable !!! i = st_prefix newStackTable !!! j ->
       st_frame newStackTable !!! i = st_frame newStackTable !!! j -> i = j) /\
    let inverted := Inverted (stackTable thread) newStackTable in
    Forall2 inverted (s_stack (samples thread)) sampleStacks /\
    (forall t, jsAllocations thread = Some t ->
       Forall2 inverted (js_stack t) jsStacks) /\
    (forall t, nativeAllocations thread = Some t ->
       Forall2 inverted (nativeAllocationsStack t) nativeStacks).
Proof.
  intros Htree Hframes Hstacks. unfold invertCallstack.
  set (frameCount := Z.of_nat (ft_length (frameTable thread))) in *.
  destruct (updateThreadStacks_spec
              (convertStack (stackTable thread) frameCount defaultCategory)
              (stackTable thread)
              (fun st => InvertInv (stackTable thread) frameCount st /\
                         NewStacksBound (stackTable thread) st)
              (fun st => Inverted (stackTable thread) (ic_newStackTable st))
              (fun st st' => ExtendsStacks (ic_newStackTable st) (ic_newStackTable st')))
    with (thread := thread) (newStackTable := ic_newStackTable)
         (st := {| ic_newStackTable :=
                     {| st_frame := []; st_category := []; st_subcategory := [];
                        st_prefix := []; st_length := 0 |};
                   ic_prefixAndFrameToStack := ∅;
                   ic_oldStackToNewStack := ∅ |})
    as (sampleStacks & jsStacks & nativeStacks & st' & -> & Hinv & _ & HR1 & HR2 & HR3).
  - intros st. apply ExtendsStacks_refl.
  - intros st1 st2 st3. apply ExtendsStacks_trans.
  - intros st1 st2 oldStack newStack. apply Inverted_extends.
  - intros oldStack st Hs [Hinv Hbound].
    destruct (convertStack_spec (stackTable thread) frameCount defaultCategory
                Htree Hframes oldStack st Hs Hinv)
      as (newStack & st' & Heq & Hinv' & Hext & HR).
    exists newStack, st'. split_and!; try done. by eapply convertStack_bound.
  - done.
  - done.
  - split; [split|split].
    + split_and!.
      * by constructor.
      * intros i Hi. simpl in Hi. lia.
      * intros key v. simpl. by rewrite lookup_empty.
      * intros i Hi. simpl in Hi. lia.
    + intros s newStack. simpl. by rewrite lookup_empty.
    + intros s. simpl. rewrite lookup_empty. by intros [? ?].
    + simpl. lia.
  - destruct Hinv as [[(Htree' & Hfr' & Hkeys & Hnodes) _] Hbound].
    simpl. exists (ic_newStackTable st'), sampleStacks, jsStacks, nativeStacks.
    split_and!; try done; [by apply NewStacksBound_square|].
    intros i j Hi Hj Hp Hf.
    pose proof (Hnodes i Hi) as Hmi. pose proof (Hnodes j Hj) as Hmj.
    rewrite Hp, Hf, Hmj in Hmi. by injection Hmi.
Qed.

(** X17: on a thread whose stack table has parallel columns and prefixes
    that are earlier stacks, whose stacks are rows of that table, whose
    frames are rows of the frame table, and that is small enough for the
    keys of the map of stacks to be exact, [invertCallstack] returns.  The
    new stack table is again such a table, with frames of the frame table,
    at most as many stacks as the square of the number of stacks of the
    thread, and without two stacks of the same prefix and frame; a sample or
    an allocation without stack stays without, and the new stack of any
    other has, from its root down to itself, the frames that the old stack
    has from itself up to its root.  Every other column of the thread is
    unchanged. *)
Theorem invertCallstack_inverts_stacks (thread : Thread) (defaultCategory : Z) :
  StackTable_tree (stackTable thread) ->
  StackFrames_wf (stackTable thread) (Z.of_nat (ft_length (frameTable thread))) ->
  ThreadStacks_wf thread ->
  StackKeys_exact thread ->
  exists newStackTable sampleStacks jsStacks nativeStacks,
    invertCallstack thread defaultCategory =
      Some {| samples := withSamplesStack (samples thread) sampleStacks;
              jsAllocations :=
                (fun t => withJsAllocationsStack t jsStacks) <$> jsAllocations thread;
              nativeAllocations :=
                (fun t => withNativeAllocationsStack t nativeStacks)
                  <$> nativeAllocations thread;
              stackTable := newStackTable;
              frameTable := frameTable thread;
              funcTable := funcTable thread;
              stringTable := stringTable thread |} /\
    StackTable_tree newStackTable /\
    StackFrames_wf newStackTable (Z.of_nat (ft_length (frameTable thread))) /\
    (st_length newStackTable
       <= st_length (stackTable thread) * st_length (stackTable thread))%nat /\
    (forall i j, (i < st_length newStackTable)%nat -> (j < st_length newStackTable)%nat ->
       st_prefix newStackTable !!! i = st_prefix newStackTable !!! j ->
       st_frame newStackTable !!! i = st_frame newStackTable !!! j -> i = j) /\
    let inverted := Inverted (stackTable thread) newStackTable in
    Forall2 inverted (s_stack (samples thread)) sampleStacks /\
    (forall t, jsAllocations thread = Some t ->
       Forall2 inverted (js_stack t) jsStacks) /\
    (forall t, nativeAllocations thread = Some t ->
       Forall2 inverted (nativeAllocationsStack t) nativeStacks).
Proof. intros Htree Hframes Hstacks _. by apply invertCallstack_spec. Qed.

Lemma sampleStackTable_tree : StackTable_tree sampleStackTable.
Proof.
  constructor; try done.
  intros i p Hp. destruct i as [|[|[|[|[|i]]]]]; simplify_eq/=; lia.
Qed.

Lemma sampleStackFrames_wf : StackFrames_wf sampleStackTable 3.
Proof.
  intros i Hi. simpl in Hi. destruct i as [|[|[|[|[|i]]]]]; simpl; lia.
Qed.

Lemma tabThread_keys_exact : StackKeys_exact tabThread.
Proof. by vm_compute. Qed.

Lemma invertCallstack_inverts_stacks_witness :
  exists newStackTable sampleStacks jsStacks nativeStacks,
    invertCallstack tabThread 0 =
      Some {| samples := withSamplesStack (samples tabThread) sampleStacks;
              jsAllocations :=
                (fun t => withJsAllocationsStack t jsStacks)
                  <$> jsAllocations tabThread;
              nativeAllocations :=
                (fun t => withNativeAllocationsStack t nativeStacks)
                  <$> nativeAllocations tabThread;
              stackTable := newStackTable;
              frameTable := frameTable tabThread;
              funcTable := funcTable tabThread;
              stringTable := stringTable tabThread |} /\
    StackTable_tree newStackTable /\
    StackFrames_wf newStackTable (Z.of_nat (ft_length (frameTable tabThread))) /\
    (st_length newStackTable
       <= st_length (stackTable tabThread) * st_length (stackTable tabThread))%nat /\
    (forall i j, (i < st_length newStackTable)%nat -> (j < st_length newStackTable)%nat ->
       st_prefix newStackTable !!! i = st_prefix newStackTable !!! j ->
       st_frame newStackTable !!! i = st_frame newStackTable !!! j -> i = j) /\
    let inverted := Inverted (stackTable tabThread) newStackTable in
    Forall2 inverted (s_stack (samples tabThread)) sampleStacks /\
    (forall t, jsAllocations tabThread = Some t ->
       Forall2 inverted (js_stack t) jsStacks) /\
    (forall t, nativeAllocations tabThread = Some t ->
       Forall2 inverted (nativeAllocationsStack t) nativeStacks).
Proof.
  exact (invertCallstack_inverts_stacks tabThread 0 sampleStackTable_tree
           sampleStackFrames_wf tabThread_stacks_wf tabThread_keys_exact).
Defined.

(** ** Inverting twice *)

Lemma Inverted_in_range (old new : StackTable) (stacks newStacks : list (option nat)) :
  Forall2 (Inverted old new) stacks newStacks -> Stacks_wf new newStacks.
Proof.
  intros HR i n Hn.
  destruct (Forall2_lookup_r _ _ _ i (Some n) HR Hn) as (s & Hs & Hinv).
  destruct s as [s|]; [|done].
  destruct Hinv as (n' & frames & [= <-] & _ & Hnew). by inversion Hnew.
Qed.

Lemma Inverted_twice (old mid new : StackTable) (s s' s'' : option nat) :
  Inverted old mid s s' -> Inverted mid new s' s'' -> SameFrames old new s s''.
Proof.
  destruct s as [x|]; simpl; [|by intros -> ->].
  intros (n & frames & -> & Hold & Hmid) (m & frames' & -> & Hmid' & Hnew).
  rewrite <- (FramesToRoot_functional _ _ _ _ Hmid Hmid'), reverse_involutive in Hnew.
  by exists m, frames.
Qed.

Lemma Forall2_Inverted_twice (old mid new : StackTable)
    (l1 l2 l3 : list (option nat)) :
  Forall2 (Inverted old mid) l1 l2 -> Forall2 (Inverted mid new) l2 l3 ->
  Forall2 (SameFrames old new) l1 l3.
Proof.
  intros H12. revert l3. induction H12 as [|x y l1 l2 Hxy H12 IH]; intros l3 H23.
  - inversion H23. constructor.
  - inversion H23 as [|y' z l2' l3' Hyz H23']; subst. constructor.
    + by eapply Inverted_twice.
    + by apply IH.
Qed.

(** X18: on a thread as in X17 whose inverted thread is also small enough
    for the keys to be exact, inverting the call stacks of the inverted
    thread returns a thread in which every sample and allocation has a stack
    with the same frames, from itself up to its root, as in the thread that
    was inverted first, and no stack where it had none. *)
Theorem invertCallstack_twice (thread thread' : Thread) (defaultCategory : Z) :
  StackTable_tree (stackTable thread) ->
  StackFrames_wf (stackTable thread) (Z.of_nat (ft_length (frameTable thread))) ->
  ThreadStacks_wf thread ->
  StackKeys_exact thread ->
  StackKeys_exact thread' ->
  invertCallstack thread defaultCategory = Some thread' ->
  exists thread'',
    invertCallstack thread' defaultCategory = Some thread'' /\
    ThreadStacksRelated (SameFrames (stackTable thread) (stackTable thread''))
      thread thread''.
Proof.
  intros Htree Hframes Hstacks _ _ Hinvert.
  destruct (invertCallstack_spec thread defaultCategory Htree Hframes Hstacks)
    as (mid & stacks1 & js1 & native1 & Heq & Htree' & Hframes' & _ & _
        & HR1 & HR2 & HR3).
  rewrite Hinvert in Heq. injection Heq as ->.
  destruct (invertCallstack_spec
              {| samples := withSamplesStack (samples thread) stacks1;
                 jsAllocations :=
                   (fun t => withJsAllocationsStack t js1) <$> jsAllocations thread;
                 nativeAllocations :=
                   (fun t => withNativeAllocationsStack t native1)
                     <$> nativeAllocations thread;
                 stackTable := mid;
                 frameTable := frameTable thread;
                 funcTable := funcTable thread;
                 stringTable := stringTable thread |} defaultCategory)
    as (new & stacks2 & js2 & native2 & -> & _ & _ & _ & _ & HS1 & HS2 & HS3).
  - done.
  - done.
  - split_and!; simpl.
    + by eapply Inverted_in_range.
    + intros t Ht. destruct (jsAllocations thread) as [js|] eqn:Ejs; [|done].
      injection Ht as <-. simpl. eapply Inverted_in_range. by apply HR2.
    + intros t Ht. destruct (nativeAllocations thread) as [native|] eqn:En; [|done].
      injection Ht as <-.
      assert (nativeAllocationsStack (withNativeAllocationsStack native native1)
              = native1) as -> by (by destruct native).
      eapply Inverted_in_range. by apply HR3.
  - eexists. split; [done|]. simpl in HS1, HS2, HS3 |- *.
    unfold ThreadStacksRelated. simpl. split_and!.
    + by eapply Forall2_Inverted_twice.
    + destruct (jsAllocations thread) as [js|] eqn:Ejs; simpl; [|constructor].
      constructor. simpl.
      eapply Forall2_Inverted_twice; [by apply HR2|].
      by apply (HS2 (withJsAllocationsStack js js1)).
    + destruct (nativeAllocations thread) as [native|] eqn:En; simpl; [|constructor].
      constructor.
      assert (forall stacks,
                nativeAllocationsStack (withNativeAllocationsStack native stacks)
                = stacks) as Hset by (by destruct native).
      specialize (HS3 _ eq_refl). rewrite Hset in HS3.
      assert (nativeAllocationsStack
                (withNativeAllocationsStack
                   (withNativeAllocationsStack native native1) native2) = native2)
        as -> by (by destruct native).
      eapply Forall2_Inverted_twice; [by apply HR3 | done].
Qed.

Lemma invertCallstack_twice_witness :
  exists thread' thread'',
    invertCallstack tabThread 0 = Some thread' /\
    invertCallstack thread' 0 = Some thread'' /\
    ThreadStacksRelated (SameFrames (stackTable tabThread) (stackTable thread''))
      tabThread thread''.
Proof.
  destruct (invertCallstack_spec tabThread 0 sampleStackTable_tree
              sampleStackFrames_wf tabThread_stacks_wf)
    as (mid & stacks1 & js1 & native1 & Heq & _ & _ & Hbound & _).
  eexists.
  refine (let H := invertCallstack_twice tabThread _ 0 sampleStackTable_tree
                     sampleStackFrames_wf tabThread_stacks_wf
                     tabThread_keys_exact _ Heq in _).
  destruct H as (thread'' & H1 & H2). by exists thread''.
  Unshelve.
  unfold StackKeys_exact. simpl in Hbound |- *.
  assert (Z.of_nat (st_length mid) <= 25) as Hmid by lia.
  assert (0 <= Z.of_nat (st_length mid)) as Hpos by lia.
  pose proof (Z.mul_le_mono_nonneg _ _ _ _ Hpos Hmid Hpos Hmid). lia.
Defined.
